(** * serverless-plugin-subscription-filter: a shallow embedding

    The plugin compiles [subscriptionFilter] events of a Serverless
    service into CloudFormation resources.  This development embeds the
    second (current) revision of [serverless_plugin_subscription_filter.js]
    and states the properties of its specification over that embedding;
    further properties of the code follow them.  The first revision,
    which the file holds as well, is embedded in the module [Rev1].

    Conventions.
    - JavaScript values that the plugin inspects are values of [jsval];
      objects live in a store and are referred to by location, because
      the orchestrator mutates the [stage] property of a setting object.
    - A synchronous computation that may throw is a [result]; a promise
      is observed through its [outcome], which may also be [Pending]
      (a promise that nobody settles).
    - Remote calls (CloudWatch Logs, CloudFormation) and the naming
      service of the host are the fields of the records [aws] and
      [host]; the functions of the plugin take them as arguments. *)

From Stdlib Require Import ZArith Ascii String List Permutation Lia Bool.
From stdpp Require Import base strings gmap list pretty.

Local Open Scope string_scope.
Local Open Scope list_scope.

(** ** JavaScript values *)

Module JS.

Definition loc := nat.

Inductive jsval :=
| JUndefined
| JNull
| JBool (b : bool)
| JNumber (n : Z)
| JString (s : string)
| JObject (l : loc).

(** [!!v]: the values that pass an [if (v)] test. *)
Definition truthy (v : jsval) : bool :=
  match v with
  | JUndefined | JNull => false
  | JBool b => b
  | JNumber n => negb (Z.eqb n 0)
  | JString s => negb (String.eqb s "")
  | JObject _ => true
  end.

(** [typeof v === 'string'] *)
Definition is_string (v : jsval) : bool :=
  match v with JString _ => true | _ => false end.

(** [String(v)], as used for a property key or inside a template
    literal. *)
Definition to_string (v : jsval) : string :=
  match v with
  | JUndefined => "undefined"
  | JNull => "null"
  | JBool true => "true"
  | JBool false => "false"
  | JNumber n => pretty n
  | JString s => s
  | JObject _ => "[object Object]"
  end.

(** Strict equality [a === b] on the values modelled here. *)
Definition strict_eq (a b : jsval) : bool :=
  match a, b with
  | JUndefined, JUndefined => true
  | JNull, JNull => true
  | JBool x, JBool y => Bool.eqb x y
  | JNumber x, JNumber y => Z.eqb x y
  | JString x, JString y => String.eqb x y
  | JObject x, JObject y => Nat.eqb x y
  | _, _ => false
  end.

(** Errors that travel through [throw] and promise rejection. *)
Inductive jserror :=
| ServerlessError (message : string)
| Error (message : string)
| AwsError (code message : string)
| SyntaxError (message : string).

Definition err_message (e : jserror) : string :=
  match e with
  | ServerlessError m | Error m | AwsError _ m | SyntaxError m => m
  end.

Definition err_code (e : jserror) : option string :=
  match e with
  | AwsError c _ => Some c
  | _ => None
  end.

(** A synchronous call either returns or throws. *)
Inductive result (A : Type) :=
| Return (a : A)
| Throw (e : jserror).
Arguments Return {A} a.
Arguments Throw {A} e.

(** What an observer of a promise sees. *)
Inductive outcome (A : Type) :=
| Resolved (a : A)
| Rejected (e : jserror)
| Pending.
Arguments Resolved {A} a.
Arguments Rejected {A} e.
Arguments Pending {A}.

(** [s.includes(t)] *)
Fixpoint includes (s t : string) : bool :=
  if String.prefix t s then true
  else match s with
       | EmptyString => false
       | String _ s' => includes s' t
       end.

End JS.
Export JS.

(** ** The service model read by the plugin *)

(** A setting object: the three properties the plugin reads.  A property
    that is not set reads as [JUndefined]. *)
Record settingObj := {
  stage : jsval;
  logGroupName : jsval;
  filterPattern : jsval
}.

Definition emptyObj : settingObj :=
  {| stage := JUndefined; logGroupName := JUndefined;
     filterPattern := JUndefined |}.

(** The store of objects. A location without an entry reads as an object
    with no properties. *)
Definition getObj (h : gmap loc settingObj) (l : loc) : settingObj :=
  default emptyObj (h !! l).

(** Property reads [v.stage], [v.logGroupName], [v.filterPattern] on a
    value that is not [null] or [undefined]; on a primitive they give
    [undefined]. *)
Definition prop (f : settingObj -> jsval) (h : gmap loc settingObj)
    (v : jsval) : jsval :=
  match v with
  | JObject l => f (getObj h l)
  | _ => JUndefined
  end.

(** An event of a function: only its [subscriptionFilter] property
    matters here. *)
Record event := { subscriptionFilter : jsval }.

(** ** validateSettings *)

Definition requiredMessage (field : string) : string :=
  "You can't set " +:+ field +:+
  " properties of a subscriptionFilter event. " +:+ field +:+
  " propertiy is required.".

(** [!x || typeof x !== 'string'] *)
Definition badField (x : jsval) : bool :=
  negb (truthy x) || negb (is_string x).

Definition validateSettings (h : gmap loc settingObj) (setting : jsval)
    : result bool :=
  if negb (truthy setting) then Return false
  else if badField (prop stage h setting)
  then Throw (ServerlessError (requiredMessage "stage"))
  else if badField (prop logGroupName h setting)
  then Throw (ServerlessError (requiredMessage "logGroupName"))
  else if badField (prop filterPattern h setting)
  then Throw (ServerlessError (requiredMessage "filterPattern"))
  else Return true.

(** ** preCheckResourceLimitExceeded *)

Definition LIMIT_CLOUDWATCH_FILTER_COUNT : nat := 2.

Definition nl : string := String (ascii_of_nat 10) EmptyString.

(** The text between [log group] and the closing backquote of the two
    quota messages; they differ only in the indentation of the last
    line. *)
Definition limitMessageTail (indent : string) : string :=
  " log group" +:+ nl +:+ nl +:+
  "  - Resource limit exceeded.." +:+ nl +:+ nl +:+
  "    You've hit a AWS resource limit:" +:+ nl +:+
  "    http://docs.aws.amazon.com/AmazonCloudWatch/latest/logs/cloudwatch_limits_cwl.html"
  +:+ nl +:+ nl +:+
  "    Subscription filters: 1/log group. This limit cannot be changed."
  +:+ nl +:+ indent.

Definition limitMessage (indent key : string) : string :=
  nl +:+ "  Subscription filters of " +:+ key +:+ limitMessageTail indent.

Definition preCheckMessage (key : string) : string :=
  limitMessage "        " key.

(** A service: the functions in the order of [getAllFunctions], each
    with the events of [getFunction(name).events]. *)
Definition service := list (string * list event).

(** The [logGroupNames] array: every event with a truthy
    [subscriptionFilter], mapped to that value's [logGroupName]. *)
Definition declaredLogGroupNames (h : gmap loc settingObj) (svc : service)
    : list jsval :=
  map (fun e => prop logGroupName h (subscriptionFilter e))
      (filter (fun e => truthy (subscriptionFilter e) = true)
              (flat_map snd svc)).

(** [_.countBy]: an object from [String(value)] to the number of
    occurrences.  The association list keeps the keys in the order of
    their creation. *)
Fixpoint bump (k : string) (o : list (string * nat)) : list (string * nat) :=
  match o with
  | [] => [(k, 1)]
  | (k', n) :: o' =>
      if String.eqb k k' then (k', S n) :: o' else (k', n) :: bump k o'
  end.

Definition countBy (vs : list jsval) : list (string * nat) :=
  fold_left (fun o v => bump (to_string v) o) vs [].

(** Own keys of an ordinary object are enumerated with the array indexes
    first, in ascending numeric order, and then the other keys in the
    order of their creation. *)
Definition digit_of (a : ascii) : option N :=
  let n := N_of_ascii a in
  if ((48 <=? n) && (n <=? 57))%N then Some (n - 48)%N else None.

Fixpoint parse_digits (s : string) (acc : N) : option N :=
  match s with
  | EmptyString => Some acc
  | String a s' =>
      match digit_of a with
      | Some d => parse_digits s' (acc * 10 + d)%N
      | None => None
      end
  end.

Definition array_index (s : string) : option N :=
  match s with
  | EmptyString => None
  | String a s' =>
      if Ascii.eqb a "0"%char && negb (String.eqb s' "") then None
      else match parse_digits s 0%N with
           | Some n => if (n <=? 4294967294)%N then Some n else None
           | None => None
           end
  end.

Fixpoint insert_index {A} (n : N) (x : A) (l : list (N * A)) : list (N * A) :=
  match l with
  | [] => [(n, x)]
  | (m, y) :: l' =>
      if (n <=? m)%N then (n, x) :: l else (m, y) :: insert_index n x l'
  end.

Fixpoint index_entries {A} (o : list (string * A)) : list (N * (string * A)) :=
  match o with
  | [] => []
  | (k, v) :: o' =>
      match array_index k with
      | Some n => insert_index n (k, v) (index_entries o')
      | None => index_entries o'
      end
  end.

Definition named_entries {A} (o : list (string * A)) : list (string * A) :=
  filter (fun kv => array_index (fst kv) = None) o.

Definition ownEntries {A} (o : list (string * A)) : list (string * A) :=
  map snd (index_entries o) ++ named_entries o.

(** The callback of [_.mapKeys] throws at the first entry over the
    limit; the object that [mapKeys] builds is discarded. *)
Fixpoint checkCounts (o : list (string * nat)) : result unit :=
  match o with
  | [] => Return tt
  | (key, value) :: o' =>
      if Nat.ltb LIMIT_CLOUDWATCH_FILTER_COUNT value
      then Throw (ServerlessError (preCheckMessage key))
      else checkCounts o'
  end.

Definition preCheckResourceLimitExceeded (h : gmap loc settingObj)
    (svc : service) : result unit :=
  checkCounts (ownEntries (countBy (declaredLogGroupNames h svc))).

(** ** The host and the remote provider *)

(** What the plugin asks of the Serverless provider and its naming
    service.  Their code is not part of the plugin. *)
Record host := {
  getStage : string;
  getRegion : string;
  getStackName : string;
  getLambdaLogicalId : string -> string;
  getNormalizedFunctionName : string -> string;
  normalizeNameToAlphaNumericOnly : string -> string;
  (* the message of the error that [JSON.parse] throws *)
  syntaxErrorMessage : string
}.

Record subFilter := { destinationArn : jsval }.

Record output := { OutputKey : string; OutputValue : jsval }.

Record stack := { Outputs : list output }.

Record logGroup := { lgName : string; arn : string }.

Record logGroupsPage := {
  logGroups : list logGroup;
  nextToken : option string
}.

(** The three remote calls, each observed through the outcome of the
    promise it returns. *)
Record aws := {
  describeSubscriptionFilters : string -> outcome (list subFilter);
  describeStacks : string -> outcome (list stack);
  describeLogGroups : string -> option string -> outcome logGroupsPage
}.

(** ** Destination lookups *)

Definition getSubscriptionFilterDestinationArn (r : aws) (lg : string)
    : outcome jsval :=
  match describeSubscriptionFilters r lg with
  | Resolved subscriptionFilters =>
      match subscriptionFilters with
      | [] => Resolved JNull
      | f :: _ => Resolved (destinationArn f)
      end
  | Rejected e => Rejected e
  | Pending => Pending
  end.

(** [_.find(outputs, { OutputKey: key })] *)
Definition findOutput (key : string) (outputs : list output) : option output :=
  List.find (fun o => String.eqb (OutputKey o) key) outputs.

Definition stackMissing (e : jserror) : bool :=
  match err_code e with
  | Some c => String.eqb c "ValidationError"
  | None => false
  end && includes (err_message e) "does not exist".

Definition guessSubscriptionFilterDestinationArn (hst : host) (r : aws)
    (lg lambdaFunctionName : string) : outcome jsval :=
  match describeStacks r (getStackName hst) with
  | Resolved stacks =>
      match findOutput (lg +:+ lambdaFunctionName) (flat_map Outputs stacks) with
      | None => Resolved JNull
      | Some o => Resolved (OutputValue o)
      end
  | Rejected e => if stackMissing e then Resolved JNull else Rejected e
  | Pending => Pending
  end.

Definition buildLambdaFunctionName (hst : host) (functionName : string)
    : string :=
  getStackName hst +:+ "-" +:+ functionName.

(** ** checkResourceLimitExceeded *)

Definition checkMessage (lg : string) : string :=
  limitMessage "            " lg.

(** [Promise.all] of two promises.  When both reject, the one listed
    first is taken to reject first. *)
Definition all2 {A B} (p : outcome A) (q : outcome B) : outcome (A * B) :=
  match p, q with
  | Rejected e, _ => Rejected e
  | _, Rejected e => Rejected e
  | Resolved a, Resolved b => Resolved (a, b)
  | _, _ => Pending
  end.

(** The body of the [then] callback: the two destinations compared. *)
Definition compareDestinations (lg : string)
    (subscriptionFilterDestinationArn guessed : jsval) : outcome unit :=
  if negb (truthy subscriptionFilterDestinationArn) then Resolved tt
  else if negb (strict_eq subscriptionFilterDestinationArn guessed)
  then Rejected (ServerlessError (checkMessage lg))
  else Resolved tt.

Definition checkResourceLimitExceeded (hst : host) (r : aws)
    (lg functionName : string) : outcome unit :=
  let lambdaFunctionName := buildLambdaFunctionName hst functionName in
  match all2 (getSubscriptionFilterDestinationArn r lg)
             (guessSubscriptionFilterDestinationArn hst r lg lambdaFunctionName)
  with
  | Resolved (d, g) => compareDestinations lg d g
  | Rejected e => Rejected e
  | Pending => Pending
  end.

(** ** getLogGroupArn *)

Definition findLogGroup (name : string) (gs : list logGroup) : option logGroup :=
  List.find (fun g => String.eqb (lgName g) name) gs.

(** The promise that [getLogGroupArn] returns is settled only by the
    calls of [resolve] and [reject] in its own executor.  When a page
    has no exact match, the [then] callback returns the promise of the
    recursive call: a rejection of that promise reaches [catch] and
    rejects this one, a fulfilment of it is dropped.

    The result pairs the continuation tokens of the [describeLogGroups]
    calls made, in order, with the outcome of the promise.  A missing
    [data.nextToken] is [undefined], which the default parameter turns
    into [null]: both are [None].  [None] as a result: the recursion is
    deeper than [fuel]. *)
Fixpoint getLogGroupArn (fuel : nat) (r : aws) (name : string)
    (token : option string) : option (list (option string) * outcome string) :=
  match fuel with
  | O => None
  | S fuel' =>
      match describeLogGroups r name token with
      | Rejected e => Some ([token], Rejected e)
      | Pending => Some ([token], Pending)
      | Resolved data =>
          match logGroups data with
          | [] => Some ([token], Rejected (Error "LogGroup not found"))
          | _ :: _ =>
              match findLogGroup name (logGroups data) with
              | Some g => Some ([token], Resolved (arn g))
              | None =>
                  match getLogGroupArn fuel' r name (nextToken data) with
                  | None => None
                  | Some (calls, Rejected e) => Some (token :: calls, Rejected e)
                  | Some (calls, _) => Some (token :: calls, Pending)
                  end
              end
          end
      end
  end.

(** ** Logical identifiers *)

Definition getSubscriptionFilterLogicalId (hst : host)
    (functionName lg : string) (index : nat) : string :=
  getNormalizedFunctionName hst functionName +:+ "SubscriptionFilter" +:+
  normalizeNameToAlphaNumericOnly hst lg +:+ pretty index.

Definition getLambdaPermissionLogicalId (hst : host)
    (functionName lg : string) (index : nat) : string :=
  getNormalizedFunctionName hst functionName +:+ "LambdaPermission" +:+
  normalizeNameToAlphaNumericOnly hst lg +:+ pretty index.

(** [str.replace(/"/g, '\\"')] *)
Definition dq : ascii := ascii_of_nat 34.
Definition bs : ascii := ascii_of_nat 92.

Fixpoint escapeDoubleQuote (str : string) : string :=
  match str with
  | EmptyString => EmptyString
  | String c s =>
      if Ascii.eqb c dq then String bs (String dq (escapeDoubleQuote s))
      else String c (escapeDoubleQuote s)
  end.

(** ** JSON text and [JSON.parse] *)

Module Json.

#[warnings="-register-all"] Inductive json :=
| JsNull
| JsBool (b : bool)
| JsNum (lexeme : string)
| JsStr (s : string)
| JsArr (items : list json)
| JsObj (members : list (string * json)).

(** Defining a property: a key that exists keeps its place and takes
    the new value. *)
Fixpoint obj_set (k : string) (v : json) (o : list (string * json))
    : list (string * json) :=
  match o with
  | [] => [(k, v)]
  | (k', v') :: o' =>
      if String.eqb k k' then (k', v) :: o' else (k', v') :: obj_set k v o'
  end.

Fixpoint obj_get (k : string) (o : list (string * json)) : option json :=
  match o with
  | [] => None
  | (k', v) :: o' => if String.eqb k k' then Some v else obj_get k o'
  end.

(** [v[k]] for a parsed value. *)
Definition get (k : string) (v : json) : option json :=
  match v with
  | JsObj o => obj_get k o
  | _ => None
  end.

Inductive parsed (A : Type) :=
| POk (a : A) (rest : string)
| PSyntax
| PFuel.
Arguments POk {A} a rest.
Arguments PSyntax {A}.
Arguments PFuel {A}.

Definition is_ws (c : ascii) : bool :=
  Ascii.eqb c " " || Ascii.eqb c (ascii_of_nat 9) ||
  Ascii.eqb c (ascii_of_nat 10) || Ascii.eqb c (ascii_of_nat 13).

Fixpoint skip_ws (s : string) : string :=
  match s with
  | String c s' => if is_ws c then skip_ws s' else s
  | EmptyString => EmptyString
  end.

Definition is_digit (c : ascii) : bool :=
  let n := nat_of_ascii c in Nat.leb 48 n && Nat.leb n 57.

Definition hex_value (c : ascii) : option nat :=
  let n := nat_of_ascii c in
  if Nat.leb 48 n && Nat.leb n 57 then Some (n - 48)
  else if Nat.leb 65 n && Nat.leb n 70 then Some (n - 55)
  else if Nat.leb 97 n && Nat.leb n 102 then Some (n - 87)
  else None.

(** A UTF-16 code unit written as [\uXXXX], in the byte strings used
    here: one byte below 128, its UTF-8 form above. *)
Definition code_unit (n : nat) : string :=
  if Nat.ltb n 128 then String (ascii_of_nat n) EmptyString
  else if Nat.ltb n 2048 then
    String (ascii_of_nat (192 + n / 64))
      (String (ascii_of_nat (128 + n mod 64)) EmptyString)
  else
    String (ascii_of_nat (224 + n / 4096))
      (String (ascii_of_nat (128 + (n / 64) mod 64))
        (String (ascii_of_nat (128 + n mod 64)) EmptyString)).

Definition simple_escape (e : ascii) : option ascii :=
  if Ascii.eqb e dq then Some dq
  else if Ascii.eqb e bs then Some bs
  else if Ascii.eqb e "/" then Some "/"%char
  else if Ascii.eqb e "b" then Some (ascii_of_nat 8)
  else if Ascii.eqb e "f" then Some (ascii_of_nat 12)
  else if Ascii.eqb e "n" then Some (ascii_of_nat 10)
  else if Ascii.eqb e "r" then Some (ascii_of_nat 13)
  else if Ascii.eqb e "t" then Some (ascii_of_nat 9)
  else None.

(** The characters of a string literal after its opening quote, up to
    and including the closing quote. *)
Fixpoint parse_chars (s : string) : option (string * string) :=
  match s with
  | EmptyString => None
  | String c s' =>
      if Ascii.eqb c dq then Some (EmptyString, s')
      else if Ascii.eqb c bs then
        match s' with
        | EmptyString => None
        | String e s'' =>
            if Ascii.eqb e "u" then
              match s'' with
              | String h1 (String h2 (String h3 (String h4 rest))) =>
                  match hex_value h1, hex_value h2, hex_value h3, hex_value h4 with
                  | Some a, Some b, Some c', Some d =>
                      match parse_chars rest with
                      | Some (v, r) =>
                          Some (code_unit (((a * 16 + b) * 16 + c') * 16 + d)
                                  +:+ v, r)
                      | None => None
                      end
                  | _, _, _, _ => None
                  end
              | _ => None
              end
            else
              match simple_escape e with
              | Some x =>
                  match parse_chars s'' with
                  | Some (v, r) => Some (String x v, r)
                  | None => None
                  end
              | None => None
              end
        end
      else if Nat.ltb (nat_of_ascii c) 32 then None
      else
        match parse_chars s' with
        | Some (v, r) => Some (String c v, r)
        | None => None
        end
  end.

(** The longest prefix of digits. *)
Fixpoint span_digits (s : string) : string * string :=
  match s with
  | String c s' =>
      if is_digit c then
        let '(d, r) := span_digits s' in (String c d, r)
      else (EmptyString, s)
  | EmptyString => (EmptyString, EmptyString)
  end.

Definition parse_int (s : string) : option (string * string) :=
  match s with
  | String c s' =>
      if Ascii.eqb c "0" then Some ("0", s')
      else if is_digit c then Some (span_digits s)
      else None
  | EmptyString => None
  end.

Definition parse_frac (s : string) : option (string * string) :=
  match s with
  | String c s' =>
      if Ascii.eqb c "." then
        match span_digits s' with
        | (EmptyString, _) => None
        | (d, r) => Some (String "." d, r)
        end
      else Some (EmptyString, s)
  | EmptyString => Some (EmptyString, s)
  end.

(** An optional sign. *)
Definition parse_sign (plus : bool) (s : string) : string * string :=
  match s with
  | String c t =>
      if Ascii.eqb c "-" then ("-", t)
      else if plus && Ascii.eqb c "+" then ("+", t)
      else (EmptyString, s)
  | EmptyString => (EmptyString, s)
  end.

Definition parse_exp (s : string) : option (string * string) :=
  match s with
  | String c s' =>
      if Ascii.eqb c "e" || Ascii.eqb c "E" then
        let '(sign, s'') := parse_sign true s' in
        match span_digits s'' with
        | (EmptyString, _) => None
        | (d, r) => Some (String c (sign +:+ d), r)
        end
      else Some (EmptyString, s)
  | EmptyString => Some (EmptyString, s)
  end.

Definition parse_number (s : string) : option (string * string) :=
  let '(sign, s1) := parse_sign false s in
  match parse_int s1 with
  | Some (i, s2) =>
      match parse_frac s2 with
      | Some (f, s3) =>
          match parse_exp s3 with
          | Some (e, s4) => Some (sign +:+ i +:+ f +:+ e, s4)
          | None => None
          end
      | None => None
      end
  | None => None
  end.

(** [strip p s]: [s] without its prefix [p]. *)
Fixpoint strip (p s : string) : option string :=
  match p, s with
  | EmptyString, _ => Some s
  | String a p', String b s' => if Ascii.eqb a b then strip p' s' else None
  | _, _ => None
  end.

(** The first character after white space, and what follows it. *)
Definition next_char (s : string) : option (ascii * string) :=
  match skip_ws s with
  | String c r => Some (c, r)
  | EmptyString => None
  end.

(** Recursive descent.  Every call consumes a character before it
    calls again, so the length of the text bounds the depth. *)
Fixpoint parse_value (fuel : nat) (s : string) : parsed json :=
  match fuel with
  | O => PFuel
  | S fuel' =>
      match next_char s with
      | None => PSyntax
      | Some (c, s') =>
          if Ascii.eqb c dq then
            match parse_chars s' with
            | Some (v, r) => POk (JsStr v) r
            | None => PSyntax
            end
          else if Ascii.eqb c "{" then
            match next_char s' with
            | Some (c', r) =>
                if Ascii.eqb c' "}" then POk (JsObj []) r
                else parse_members fuel' s' []
            | None => parse_members fuel' s' []
            end
          else if Ascii.eqb c "[" then
            match next_char s' with
            | Some (c', r) =>
                if Ascii.eqb c' "]" then POk (JsArr []) r
                else parse_elements fuel' s' []
            | None => parse_elements fuel' s' []
            end
          else if Ascii.eqb c "t" then
            match strip "rue" s' with
            | Some r => POk (JsBool true) r
            | None => PSyntax
            end
          else if Ascii.eqb c "f" then
            match strip "alse" s' with
            | Some r => POk (JsBool false) r
            | None => PSyntax
            end
          else if Ascii.eqb c "n" then
            match strip "ull" s' with
            | Some r => POk JsNull r
            | None => PSyntax
            end
          else
            match parse_number (String c s') with
            | Some (n, r) => POk (JsNum n) r
            | None => PSyntax
            end
      end
  end
with parse_members (fuel : nat) (s : string) (acc : list (string * json))
    : parsed json :=
  match fuel with
  | O => PFuel
  | S fuel' =>
      match next_char s with
      | None => PSyntax
      | Some (c, s1) =>
          if Ascii.eqb c dq then
            match parse_chars s1 with
            | None => PSyntax
            | Some (k, s2) =>
                match next_char s2 with
                | None => PSyntax
                | Some (c2, s3) =>
                    if Ascii.eqb c2 ":" then
                      match parse_value fuel' s3 with
                      | POk v s4 =>
                          match next_char s4 with
                          | None => PSyntax
                          | Some (c4, s5) =>
                              if Ascii.eqb c4 "," then
                                parse_members fuel' s5 (obj_set k v acc)
                              else if Ascii.eqb c4 "}" then
                                POk (JsObj (obj_set k v acc)) s5
                              else PSyntax
                          end
                      | PSyntax => PSyntax
                      | PFuel => PFuel
                      end
                    else PSyntax
                end
            end
          else PSyntax
      end
  end
with parse_elements (fuel : nat) (s : string) (acc : list json)
    : parsed json :=
  match fuel with
  | O => PFuel
  | S fuel' =>
      match parse_value fuel' s with
      | POk v s1 =>
          match next_char s1 with
          | None => PSyntax
          | Some (c, s2) =>
              if Ascii.eqb c "," then parse_elements fuel' s2 (acc ++ [v])
              else if Ascii.eqb c "]" then POk (JsArr (acc ++ [v])) s2
              else PSyntax
          end
      | PSyntax => PSyntax
      | PFuel => PFuel
      end
  end.

(** [JSON.parse(text)]: one value, then only white space.  The fuel
    exceeds what the descent can use on [text]: [parse_value_has_fuel]
    below. *)
Definition parse_fuel (text : string) : nat := 2 * String.length text + 2.

Definition parse (hst_message : string) (text : string) : result json :=
  match parse_value (parse_fuel text) text with
  | POk v rest =>
      match skip_ws rest with
      | EmptyString => Return v
      | _ => Throw (SyntaxError hst_message)
      end
  | _ => Throw (SyntaxError hst_message)
  end.

End Json.
Export Json.

(** ** [_.merge] into the compiled template *)

(** [array[i] = v] for [i] at most the length. *)
Definition arr_set (i : nat) (v : json) (a : list json) : list json :=
  if Nat.ltb i (length a) then <[i:=v]> a else a ++ [v].

(** [_.merge] of a source value into what the destination holds under
    the same key ([None]: nothing).  Objects are merged member by
    member and arrays index by index; any other source value replaces
    the destination.  A destination that is not of the source's kind is
    read as an empty one. *)
Fixpoint merge_value (dst : option json) (src : json) {struct src} : json :=
  match src with
  | JsObj ms =>
      let base := match dst with Some (JsObj d) => d | _ => [] end in
      JsObj ((fix go (ms : list (string * json)) (acc : list (string * json)) :=
                match ms with
                | [] => acc
                | (k, v) :: ms' =>
                    go ms' (obj_set k (merge_value (obj_get k acc) v) acc)
                end) ms base)
  | JsArr items =>
      let base := match dst with Some (JsArr d) => d | _ => [] end in
      JsArr ((fix go (items : list json) (i : nat) (acc : list json) :=
                match items with
                | [] => acc
                | v :: items' =>
                    go items' (S i) (arr_set i (merge_value (acc !! i) v) acc)
                end) items 0 base)
  | _ => src
  end.

(** [_.merge(Resources, { [id]: body })] *)
Definition merge (resources : gmap string json) (fragment : string * json)
    : gmap string json :=
  <[fst fragment := merge_value (resources !! fst fragment) (snd fragment)]>
    resources.

(** ** The two resource builders *)

(** [q s]: [s] between double quotes. *)
Definition q (s : string) : string := String dq (s +:+ String dq EmptyString).

Definition subscriptionFilterTemplate
    (lambdaLogicalId filterPattern lambdaPermissionLogicalId stg lg : string)
    : string :=
  nl +:+
  "        {" +:+ nl +:+
  "          " +:+ q "Type" +:+ " : " +:+ q "AWS::Logs::SubscriptionFilter"
    +:+ "," +:+ nl +:+
  "          " +:+ q "Properties" +:+ " : {" +:+ nl +:+
  "            " +:+ q "DestinationArn" +:+ " : { " +:+ q "Fn::GetAtt" +:+
    ": [" +:+ q lambdaLogicalId +:+ ", " +:+ q "Arn" +:+ "] }," +:+ nl +:+
  "            " +:+ q "FilterPattern" +:+ " : " +:+ q filterPattern +:+ ","
    +:+ nl +:+
  "            " +:+ q "FilterName" +:+ ": " +:+
    q (lambdaPermissionLogicalId +:+ "-" +:+ stg) +:+ "," +:+ nl +:+
  "            " +:+ q "LogGroupName" +:+ " : " +:+ q lg +:+ nl +:+
  "          }," +:+ nl +:+
  "          " +:+ q "DependsOn" +:+ ": " +:+ q lambdaPermissionLogicalId
    +:+ nl +:+
  "        }" +:+ nl +:+
  "      ".

Definition permissionTemplate (lambdaLogicalId region logGroupArn : string)
    : string :=
  nl +:+
  "        {" +:+ nl +:+
  "          " +:+ q "Type" +:+ ": " +:+ q "AWS::Lambda::Permission" +:+ ","
    +:+ nl +:+
  "          " +:+ q "Properties" +:+ ": {" +:+ nl +:+
  "            " +:+ q "FunctionName" +:+ ": { " +:+ q "Fn::GetAtt" +:+
    ": [" +:+ q lambdaLogicalId +:+ ", " +:+ q "Arn" +:+ "] }," +:+ nl +:+
  "            " +:+ q "Action" +:+ ": " +:+ q "lambda:InvokeFunction" +:+ ","
    +:+ nl +:+
  "            " +:+ q "Principal" +:+ ": " +:+
    q ("logs." +:+ region +:+ ".amazonaws.com") +:+ "," +:+ nl +:+
  "            " +:+ q "SourceArn" +:+ ": " +:+ q logGroupArn +:+ nl +:+
  "          }" +:+ nl +:+
  "        }" +:+ nl +:+
  "      ".

(** A [throw] inside the executor of [new Promise] rejects the promise. *)
Definition executor {A} (r : result A) : outcome A :=
  match r with
  | Return a => Resolved a
  | Throw e => Rejected e
  end.

(** The builders read the setting object that [validateSettings] has
    accepted: its three properties are strings, on which [to_string] is
    the identity. *)
Definition compileSubscriptionFilter (hst : host) (setting : settingObj)
    (functionName : string) (index : nat) : outcome (string * json) :=
  let lambdaLogicalId := getLambdaLogicalId hst functionName in
  let lambdaPermissionLogicalId :=
    getLambdaPermissionLogicalId hst functionName
      (to_string (logGroupName setting)) index in
  let pattern := escapeDoubleQuote (to_string (filterPattern setting)) in
  let lg := to_string (logGroupName setting) in
  let text :=
    subscriptionFilterTemplate lambdaLogicalId pattern
      lambdaPermissionLogicalId (to_string (stage setting)) lg in
  let subscriptionFilterLogicalId :=
    getSubscriptionFilterLogicalId hst functionName
      (to_string (logGroupName setting)) index in
  executor
    match parse (syntaxErrorMessage hst) text with
    | Return body => Return (subscriptionFilterLogicalId, body)
    | Throw e => Throw e
    end.

Definition compilePermission (hst : host) (setting : settingObj)
    (functionName logGroupArn : string) (index : nat)
    : outcome (string * json) :=
  let lambdaLogicalId := getLambdaLogicalId hst functionName in
  let region := getRegion hst in
  let text := permissionTemplate lambdaLogicalId region logGroupArn in
  let lambdaPermissionLogicalId :=
    getLambdaPermissionLogicalId hst functionName
      (to_string (logGroupName setting)) index in
  executor
    match parse (syntaxErrorMessage hst) text with
    | Return body => Return (lambdaPermissionLogicalId, body)
    | Throw e => Throw e
    end.

(** ** doCompile *)

(** What a pipeline does to the world, in the order it does it. *)
Inductive effect :=
| CallDescribeSubscriptionFilters (lg : string)
| CallDescribeStacks (stackName : string)
| CallDescribeLogGroups (prefix : string) (token : option string)
| MergeResource (fragment : string * json).

(** The [catch] at the end of the chain. *)
Definition rethrow {A} (e : jserror) : outcome A :=
  Rejected (ServerlessError (err_message e)).

(** The promise chain of [doCompile]: the effects of the pipeline and
    the outcome of the promise it returns.  [None]: [getLogGroupArn]
    needs more than [fuel]. *)
Definition doCompile (fuel : nat) (hst : host) (r : aws)
    (setting : settingObj) (functionName : string) (index : nat)
    : option (list effect * outcome unit) :=
  let lg := to_string (logGroupName setting) in
  let checks :=
    [CallDescribeSubscriptionFilters lg; CallDescribeStacks (getStackName hst)] in
  match checkResourceLimitExceeded hst r lg functionName with
  | Rejected e => Some (checks, rethrow e)
  | Pending => Some (checks, Pending)
  | Resolved _ =>
      match getLogGroupArn fuel r lg None with
      | None => None
      | Some (tokens, found) =>
          let listed := checks ++ map (CallDescribeLogGroups lg) tokens in
          match found with
          | Rejected e => Some (listed, rethrow e)
          | Pending => Some (listed, Pending)
          | Resolved logGroupArn =>
              match compilePermission hst setting functionName logGroupArn index with
              | Rejected e => Some (listed, rethrow e)
              | Pending => Some (listed, Pending)
              | Resolved newPermissionObject =>
                  let granted := listed ++ [MergeResource newPermissionObject] in
                  match compileSubscriptionFilter hst setting functionName index with
                  | Rejected e => Some (granted, rethrow e)
                  | Pending => Some (granted, Pending)
                  | Resolved newSubscriptionFilterObject =>
                      Some (granted ++ [MergeResource newSubscriptionFilterObject],
                            Resolved tt)
                  end
              end
          end
      end
  end.

(** The template after a sequence of effects. *)
Definition apply_effect (resources : gmap string json) (e : effect)
    : gmap string json :=
  match e with
  | MergeResource fragment => merge resources fragment
  | _ => resources
  end.

Definition apply_effects (resources : gmap string json) (es : list effect)
    : gmap string json :=
  fold_left apply_effect es resources.

(** ** compileSubscriptionFilterEvents *)

(** A pipeline started by the loop: [doCompile(subscriptionFilter,
    functionName, index)], the setting given by its location. *)
Record task := {
  t_function : string;
  t_index : nat;
  t_setting : loc
}.

(** The state the two nested [forEach] loops thread: the store (the
    loop assigns to [subscriptionFilter.stage]), the pipelines started so
    far and the number of [Math.random()] draws. *)
Record loopState := {
  st_store : gmap loc settingObj;
  st_tasks : list task;
  st_draws : nat
}.

Definition setStage (h : gmap loc settingObj) (v : jsval) (s : string)
    : gmap loc settingObj :=
  match v with
  | JObject l =>
      <[l := {| stage := JString s;
                logGroupName := logGroupName (getObj h l);
                filterPattern := filterPattern (getObj h l) |}]> h
  | _ => h
  end.

Definition settingLoc (v : jsval) : loc :=
  match v with JObject l => l | _ => 0 end.

(** The callback of the inner [forEach] on one event: the state after
    it, and the error it throws, if any.  [random n] is the text of
    [Math.random().toString(36).substring(2, 7)] at the [n]-th draw. *)
Definition eachEvent (hst : host) (random : nat -> string)
    (functionName : string) (index : nat) (e : event) (st : loopState)
    : loopState * option jserror :=
  let sf := subscriptionFilter e in
  match validateSettings (st_store st) sf with
  | Throw err => (st, Some err)
  | Return false => (st, None)
  | Return true =>
      if negb (strict_eq (prop stage (st_store st) sf) (JString (getStage hst)))
      then (st, None)
      else
        ({| st_store :=
              setStage (st_store st) sf
                (getStage hst +:+ "-" +:+ random (st_draws st));
            st_tasks :=
              st_tasks st ++
              [{| t_function := functionName; t_index := index;
                  t_setting := settingLoc sf |}];
            st_draws := S (st_draws st) |}, None)
  end.

(** A throw ends the loops; the pipelines started before it stay
    started. *)
Fixpoint eachEvents (hst : host) (random : nat -> string)
    (functionName : string) (index : nat) (es : list event) (st : loopState)
    : loopState * option jserror :=
  match es with
  | [] => (st, None)
  | e :: es' =>
      match eachEvent hst random functionName index e st with
      | (st', Some err) => (st', Some err)
      | (st', None) => eachEvents hst random functionName (S index) es' st'
      end
  end.

Fixpoint eachFunction (hst : host) (random : nat -> string)
    (svc : service) (st : loopState) : loopState * option jserror :=
  match svc with
  | [] => (st, None)
  | (functionName, es) :: svc' =>
      match eachEvents hst random functionName 0 es st with
      | (st', Some err) => (st', Some err)
      | (st', None) => eachFunction hst random svc' st'
      end
  end.

(** The synchronous part of the hook: the static check, then the loops. *)
Definition startPipelines (hst : host) (random : nat -> string)
    (h : gmap loc settingObj) (svc : service) : loopState * option jserror :=
  let st := {| st_store := h; st_tasks := []; st_draws := 0 |} in
  match preCheckResourceLimitExceeded h svc with
  | Throw err => (st, Some err)
  | Return _ => eachFunction hst random svc st
  end.

(** [Promise.all(promises)]: the first rejection in the list, else
    pending when one is, else resolved. *)
Fixpoint allSettled (os : list (outcome unit)) : outcome unit :=
  match os with
  | [] => Resolved tt
  | Rejected e :: _ => Rejected e
  | Resolved _ :: os' => allSettled os'
  | Pending :: os' =>
      match allSettled os' with
      | Rejected e => Rejected e
      | _ => Pending
      end
  end.

(** The pipelines of the tasks, each reading its setting object in the
    store the loops have left. *)
Fixpoint pipelines (fuel : nat) (hst : host) (r : aws)
    (h : gmap loc settingObj) (ts : list task)
    : option (list (task * (list effect * outcome unit))) :=
  match ts with
  | [] => Some []
  | t :: ts' =>
      match doCompile fuel hst r (getObj h (t_setting t)) (t_function t)
              (t_index t), pipelines fuel hst r h ts' with
      | Some p, Some ps => Some ((t, p) :: ps)
      | _, _ => None
      end
  end.

(** The hook: the pipelines it has started, and either the error its
    synchronous part throws or the outcome of [Promise.all] over the
    pipelines.  The pipelines started before a throw are not joined, but
    they go on. *)
Definition compileSubscriptionFilterEvents (fuel : nat) (hst : host)
    (r : aws) (random : nat -> string) (h : gmap loc settingObj)
    (svc : service)
    : option (list (task * (list effect * outcome unit))
              * result (outcome unit)) :=
  let '(st, thrown) := startPipelines hst random h svc in
  match pipelines fuel hst r (st_store st) (st_tasks st) with
  | None => None
  | Some ps =>
      Some (ps,
            match thrown with
            | Some err => Throw err
            | None => Return (allSettled (map (fun p => snd (snd p)) ps))
            end)
  end.

(** ** Vocabulary of the statements *)

(** A field passes the test exactly when it is a non-empty string. *)
Definition nonEmptyString (v : jsval) : Prop :=
  exists s, v = JString s /\ s <> "".

(** The three properties of a setting, in the order they are checked. *)
Definition stageOf (h : gmap loc settingObj) (v : jsval) := prop stage h v.
Definition logGroupNameOf (h : gmap loc settingObj) (v : jsval) :=
  prop logGroupName h v.
Definition filterPatternOf (h : gmap loc settingObj) (v : jsval) :=
  prop filterPattern h v.

Definition fieldError (field : string) : jserror :=
  ServerlessError (requiredMessage field).

(** The number of declared triggers whose log group name reads [k]. *)
Definition occurrences (k : string) (vs : list jsval) : nat :=
  length (filter (fun v => to_string v = k) vs).

(** The count an object of [countBy] holds for [k]; 0 without the key. *)
Fixpoint count_of (k : string) (o : list (string * nat)) : nat :=
  match o with
  | [] => 0
  | (k', n) :: o' => if String.eqb k k' then n else count_of k o'
  end.

Definition isMerge (e : effect) : bool :=
  match e with MergeResource _ => true | _ => false end.

(** The triggers of a service in the order the two loops visit them:
    function name, position among the events of the function, event. *)
Fixpoint indexed (functionName : string) (index : nat) (es : list event)
    : list (string * nat * event) :=
  match es with
  | [] => []
  | e :: es' => (functionName, index, e) :: indexed functionName (S index) es'
  end.

Definition triggers (svc : service) : list (string * nat * event) :=
  flat_map (fun fe => indexed (fst fe) 0 (snd fe)) svc.

(** The declared triggers: the events of the service that carry a
    [subscriptionFilter], whatever their stage, valid or not. *)
Definition declaredTriggers (svc : service) : list (string * nat * event) :=
  List.filter (fun t => truthy (subscriptionFilter (snd t))) (triggers svc).

(** The declared triggers on the log group [k]: those whose
    [logGroupName] reads [k].  A string reads as itself; a name that is
    not a string reads as JavaScript prints it. *)
Definition triggersOn (h : gmap loc settingObj) (svc : service) (k : string)
    : list (string * nat * event) :=
  List.filter
    (fun t => String.eqb
                (to_string (logGroupNameOf h (subscriptionFilter (snd t)))) k)
    (declaredTriggers svc).

(** The two loops as one loop over the triggers. *)
Fixpoint eachTrigger (hst : host) (random : nat -> string)
    (ts : list (string * nat * event)) (st : loopState)
    : loopState * option jserror :=
  match ts with
  | [] => (st, None)
  | (functionName, index, e) :: ts' =>
      match eachEvent hst random functionName index e st with
      | (st', Some err) => (st', Some err)
      | (st', None) => eachTrigger hst random ts' st'
      end
  end.

(** A store that the loops may have reached from [h]: log group names
    and filter patterns are those of [h], and an object is either as in
    [h] or carries a stage with a suffix. *)
Definition evolved (hst : host) (h s : gmap loc settingObj) : Prop :=
  forall l,
    logGroupName (getObj s l) = logGroupName (getObj h l) /\
    filterPattern (getObj s l) = filterPattern (getObj h l) /\
    (getObj s l = getObj h l \/
     exists x, stage (getObj s l) = JString (getStage hst +:+ "-" +:+ x)).

(** The setting objects that the triggers refer to, in order. *)
Definition settingLocs (ts : list (string * nat * event)) : list loc :=
  flat_map (fun t => match subscriptionFilter (snd t) with
                     | JObject l => [l]
                     | _ => []
                     end) ts.

(** ** Text for JSON string literals, and the templates as tokens *)

(** Text that a JSON string literal holds as it is: no double quote, no
    backslash and no control character. *)
Definition plain_char (c : ascii) : bool :=
  negb (Ascii.eqb c dq) && negb (Ascii.eqb c bs) &&
  negb (Nat.ltb (nat_of_ascii c) 32).

Fixpoint plain (s : string) : bool :=
  match s with
  | EmptyString => true
  | String c s' => plain_char c && plain s'
  end.

(** A filter pattern that [escapeDoubleQuote] makes fit for a string
    literal: no backslash and no control character. *)
Fixpoint quotable (s : string) : bool :=
  match s with
  | EmptyString => true
  | String c s' =>
      negb (Ascii.eqb c bs) && negb (Nat.ltb (nat_of_ascii c) 32) &&
      quotable s'
  end.

(** Every double quote of [s] stands right after a backslash; [prev] is
    the character before [s]. *)
Fixpoint quotes_escaped (prev : ascii) (s : string) : bool :=
  match s with
  | EmptyString => true
  | String c s' =>
      (if Ascii.eqb c dq then Ascii.eqb prev bs else true) &&
      quotes_escaped c s'
  end.

(** The resource descriptions that the two templates spell out. *)
Definition subscriptionFilterResource
    (lambdaLogicalId pattern lambdaPermissionLogicalId stg lg : string) : json :=
  JsObj
    [("Type", JsStr "AWS::Logs::SubscriptionFilter");
     ("Properties",
      JsObj
        [("DestinationArn",
          JsObj [("Fn::GetAtt", JsArr [JsStr lambdaLogicalId; JsStr "Arn"])]);
         ("FilterPattern", JsStr pattern);
         ("FilterName", JsStr (lambdaPermissionLogicalId +:+ "-" +:+ stg));
         ("LogGroupName", JsStr lg)]);
     ("DependsOn", JsStr lambdaPermissionLogicalId)].

Definition permissionResource (lambdaLogicalId region logGroupArn : string)
    : json :=
  JsObj
    [("Type", JsStr "AWS::Lambda::Permission");
     ("Properties",
      JsObj
        [("FunctionName",
          JsObj [("Fn::GetAtt", JsArr [JsStr lambdaLogicalId; JsStr "Arn"])]);
         ("Action", JsStr "lambda:InvokeFunction");
         ("Principal", JsStr ("logs." +:+ region +:+ ".amazonaws.com"));
         ("SourceArn", JsStr logGroupArn)])].

Fixpoint all_ws (s : string) : bool :=
  match s with
  | EmptyString => true
  | String c s' => is_ws c && all_ws s'
  end.

(** Text seen as tokens: white space [w], then a punctuation character
    or a string literal, then the rest [r]. *)
Definition tok (w : string) (c : ascii) (r : string) : string :=
  w +:+ String c r.

Definition str (w s r : string) : string :=
  w +:+ String dq (s +:+ String dq r).

(** [{ "Fn::GetAtt": ["<id>", "Arn"] }], the reference to the ARN of the
    function in both templates, as tokens. *)
Definition getAttArray (id r : string) : string :=
  tok " " "[" (str "" id (tok "" "," (str " " "Arn" (tok "" "]" r)))).

Definition getAttText (w id r : string) : string :=
  tok w "{" (str " " "Fn::GetAtt" (tok "" ":" (getAttArray id (tok " " "}" r)))).

(** The indentations of the two templates: a line break and 8, 10 or 12
    spaces. *)
Definition W8 : string := nl +:+ "        ".
Definition W10 : string := nl +:+ "          ".
Definition W12 : string := nl +:+ "            ".

(** The end of both templates, and the end of the subscription filter
    template after its [Properties] object: the [DependsOn] member, and
    the brace that closes the resource. *)
Definition templateEnd : string := nl +:+ "      ".

Definition dependsOnMember (id : string) : string :=
  str W10 "DependsOn" (tok "" ":" (str " " id (tok W8 "}" templateEnd))).

Definition afterProperties (id : string) : string :=
  tok "" "," (dependsOnMember id).

(** The same end from the brace that closes [Properties], and from the
    quote that closes the log group name. *)
Definition afterLogGroup (id : string) : string :=
  tok W10 "}" (afterProperties id).

Definition closing (id : string) : string := String dq (afterLogGroup id).

(** The [Properties] object of the subscription filter, as tokens. *)
Definition subscriptionFilterProperties (L P ID STG G r : string) : string :=
  tok " " "{"
    (str W12 "DestinationArn" (tok " " ":" (getAttText " " L (tok "" ","
    (str W12 "FilterPattern" (tok " " ":" (str " " P (tok "" ","
    (str W12 "FilterName" (tok "" ":" (str " " (ID +:+ "-" +:+ STG)
      (tok "" ","
    (str W12 "LogGroupName" (tok " " ":" (str " " G
      (tok W10 "}" r)))))))))))))))).

Definition subscriptionFilterTokens (L P ID STG G : string) : string :=
  tok W8 "{"
    (str W10 "Type" (tok " " ":" (str " " "AWS::Logs::SubscriptionFilter"
      (tok "" ","
    (str W10 "Properties" (tok " " ":"
      (subscriptionFilterProperties L P ID STG G (afterProperties ID)))))))).

Definition permissionProperties (L principal A r : string) : string :=
  tok " " "{"
    (str W12 "FunctionName" (tok "" ":" (getAttText " " L (tok "" ","
    (str W12 "Action" (tok "" ":" (str " " "lambda:InvokeFunction"
      (tok "" ","
    (str W12 "Principal" (tok "" ":" (str " " principal (tok "" ","
    (str W12 "SourceArn" (tok "" ":" (str " " A
      (tok W10 "}" r)))))))))))))))).

Definition permissionTokens (L region A : string) : string :=
  tok W8 "{"
    (str W10 "Type" (tok "" ":" (str " " "AWS::Lambda::Permission"
      (tok "" ","
    (str W10 "Properties" (tok "" ":"
      (permissionProperties L ("logs." +:+ region +:+ ".amazonaws.com") A
         (tok W8 "}" templateEnd)))))))).

(** [s] is a text that ends with [t]. *)
Definition before (t s : string) : Prop := exists x, s = x +:+ t.

(** Where a value can end in a text that ends with [closing id], and
    what it then is: before the closing, at the quote (a string), at
    the brace that closes [Properties], or at the end of the text, and
    then it is an object whose [DependsOn] is [id]. *)
Definition ends (id : string) (v : json) (r : string) : Prop :=
  before (closing id) r \/
  r = afterLogGroup id \/
  r = afterProperties id \/
  (r = templateEnd /\ get "DependsOn" v = Some (JsStr id)).

(** ** A reference host and reference deployments

    The naming service of the Serverless AWS provider, and small
    services and deployed states; the statements below are instantiated
    on them. *)

Definition is_alnum (c : ascii) : bool :=
  let n := nat_of_ascii c in
  (Nat.leb 48 n && Nat.leb n 57) || (Nat.leb 65 n && Nat.leb n 90) ||
  (Nat.leb 97 n && Nat.leb n 122).

Definition upperFirst (s : string) : string :=
  match s with
  | String c s' =>
      let n := nat_of_ascii c in
      if Nat.leb 97 n && Nat.leb n 122 then String (ascii_of_nat (n - 32)) s'
      else s
  | EmptyString => EmptyString
  end.

Fixpoint keepAlnum (s : string) : string :=
  match s with
  | String c s' => if is_alnum c then String c (keepAlnum s') else keepAlnum s'
  | EmptyString => EmptyString
  end.

Fixpoint spellDashes (s : string) : string :=
  match s with
  | String c s' =>
      if Ascii.eqb c "-" then "Dash" +:+ spellDashes s'
      else if Ascii.eqb c "_" then "Underscore" +:+ spellDashes s'
      else String c (spellDashes s')
  | EmptyString => EmptyString
  end.

Definition devHost : host := {|
  getStage := "dev";
  getRegion := "us-east-1";
  getStackName := "svc-dev";
  getLambdaLogicalId := fun f => upperFirst (spellDashes f) +:+ "LambdaFunction";
  getNormalizedFunctionName := fun f => upperFirst (spellDashes f);
  normalizeNameToAlphaNumericOnly := fun n => upperFirst (keepAlnum n);
  syntaxErrorMessage := "Unexpected token in JSON"
|}.

(** A deployed state: the log group [/app/a] has a subscription filter
    with destination [dest], and the stack of a previous deployment
    records [recorded] for the function [hello] and that log group. *)
Definition deployed (dest recorded : string) : aws := {|
  describeSubscriptionFilters := fun _ =>
    Resolved [{| destinationArn := JString dest |}];
  describeStacks := fun _ =>
    Resolved [{| Outputs :=
      [{| OutputKey := "ServerlessDeploymentBucketName";
          OutputValue := JString "bucket" |};
       {| OutputKey := "/app/asvc-dev-hello";
          OutputValue := JString recorded |}] |}];
  describeLogGroups := fun _ _ =>
    Resolved {| logGroups := [{| lgName := "/app/a"; arn := "arn:lg:a" |}];
                nextToken := None |}
|}.

(** A first deployment: no filter on the log group and no stack. *)
Definition firstDeployment : aws := {|
  describeSubscriptionFilters := fun _ => Resolved [];
  describeStacks := fun _ =>
    Rejected (AwsError "ValidationError" "Stack with id svc-dev does not exist");
  describeLogGroups := fun _ _ =>
    Resolved {| logGroups := [{| lgName := "/app/a"; arn := "arn:lg:a" |}];
                nextToken := None |}
|}.

(** A deployment whose stack lookup is refused. *)
Definition refusedLookup : aws := {|
  describeSubscriptionFilters := fun _ => Resolved [];
  describeStacks := fun _ =>
    Rejected (AwsError "AccessDenied" "User is not authorized");
  describeLogGroups := fun _ _ =>
    Resolved {| logGroups := []; nextToken := None |}
|}.

(** A listing in two pages for the prefix [/app/a]: the first holds a
    log group that only shares the prefix, the second the log group
    itself. *)
Definition twoPages : aws := {|
  describeSubscriptionFilters := fun _ => Resolved [];
  describeStacks := fun _ => Resolved [];
  describeLogGroups := fun _ token =>
    match token with
    | None =>
        Resolved {| logGroups := [{| lgName := "/app/a-old"; arn := "arn:lg:a-old" |}];
                    nextToken := Some "t1" |}
    | Some _ =>
        Resolved {| logGroups := [{| lgName := "/app/a"; arn := "arn:lg:a" |}];
                    nextToken := None |}
    end
|}.

(** A listing of one page that holds only a log group sharing the
    prefix. *)
Definition prefixOnly : aws := {|
  describeSubscriptionFilters := fun _ => Resolved [];
  describeStacks := fun _ => Resolved [];
  describeLogGroups := fun _ _ =>
    Resolved {| logGroups := [{| lgName := "/app/a-old"; arn := "arn:lg:a-old" |}];
                nextToken := None |}
|}.

(** Three triggers of one function on the log group [/app/a]: one for
    the stage [dev], one for [prod], and one without a filter pattern. *)
Definition threeOnOne : gmap loc settingObj :=
  <[0 := {| stage := JString "dev"; logGroupName := JString "/app/a";
            filterPattern := JString "ERROR" |}]>
  (<[1 := {| stage := JString "prod"; logGroupName := JString "/app/a";
             filterPattern := JString "ERROR" |}]>
  (<[2 := {| stage := JString "staging"; logGroupName := JString "/app/a";
             filterPattern := JUndefined |}]> ∅)).

Definition helloThree : service :=
  [("hello", [{| subscriptionFilter := JObject 0 |};
              {| subscriptionFilter := JObject 1 |};
              {| subscriptionFilter := JObject 2 |}])].

Definition noRandom : nat -> string := fun _ => "k3x9q".

(** Settings as the loop hands them to [doCompile]: the stage already
    carries its suffix. *)
Definition errorsOfA : settingObj :=
  {| stage := JString "dev-k3x9q"; logGroupName := JString "/app/a";
     filterPattern := JString ("{ $.level = " +:+ q "error" +:+ " }") |}.

Definition digitsPattern : string := "{ $.id = " +:+ q "\d+" +:+ " }".

Definition digitsOfA : settingObj :=
  {| stage := JString "dev-k3x9q"; logGroupName := JString "/app/a";
     filterPattern := JString digitsPattern |}.

Definition blockOfA : settingObj :=
  {| stage := JString "dev-k3x9q"; logGroupName := JString "/app/a";
     filterPattern := JString ("ERROR" +:+ nl) |}.

Definition settingOn (lg : string) : settingObj :=
  {| stage := JString "dev-k3x9q"; logGroupName := JString lg;
     filterPattern := JString "ERROR" |}.

(** A service with one trigger for the stage [dev] and one for [prod],
    on two log groups. *)
Definition devAndProd : gmap loc settingObj :=
  <[0 := {| stage := JString "dev"; logGroupName := JString "/app/a";
            filterPattern := JString "ERROR" |}]>
  (<[1 := {| stage := JString "prod"; logGroupName := JString "/app/b";
             filterPattern := JString "ERROR" |}]> ∅).

Definition helloTwo : service :=
  [("hello", [{| subscriptionFilter := JObject 0 |};
              {| subscriptionFilter := JObject 1 |}])].

(** Two functions whose triggers are one and the same setting object
    (a YAML anchor and its alias), declared for the stage [dev]. *)
Definition oneSetting : gmap loc settingObj :=
  <[0 := {| stage := JString "dev"; logGroupName := JString "/app/a";
            filterPattern := JString "ERROR" |}]> ∅.

Definition alphaBeta : service :=
  [("alpha", [{| subscriptionFilter := JObject 0 |}]);
   ("beta", [{| subscriptionFilter := JObject 0 |}])].

(** ** The first revision of the plugin

    The file holds, before the revision embedded above, an earlier
    revision of the class (its lines 1 to 203).  That revision has no
    static and no dynamic check, its logical identifiers carry no
    position, it leaves the setting objects as they are, and it reports
    on the command line what it compiles and what it skips.  What the
    two revisions share is taken from above: [escapeDoubleQuote], the
    text of the permission template, [JSON.parse], [_.merge] and the
    [catch] at the end of the chain. *)

Module Rev1.

(** The tests are those of the second revision; [typeof x != 'string']
    compares two strings, on which [!=] is [!==]. *)
Definition validateSettings (h : gmap loc settingObj) (setting : jsval)
    : result bool :=
  if negb (truthy setting) then Return false
  else if badField (prop stage h setting)
  then Throw (ServerlessError (requiredMessage "stage"))
  else if badField (prop logGroupName h setting)
  then Throw (ServerlessError (requiredMessage "logGroupName"))
  else if badField (prop filterPattern h setting)
  then Throw (ServerlessError (requiredMessage "filterPattern"))
  else Return true.

Definition getSubscriptionFilterLogicalId (hst : host)
    (functionName lg : string) : string :=
  getNormalizedFunctionName hst functionName +:+ "SubscriptionFilter" +:+
  normalizeNameToAlphaNumericOnly hst lg.

Definition getLambdaPermissionLogicalId (hst : host)
    (functionName lg : string) : string :=
  getNormalizedFunctionName hst functionName +:+ "LambdaPermission" +:+
  normalizeNameToAlphaNumericOnly hst lg.

Definition subscriptionFilterTemplate
    (lambdaLogicalId filterPattern lg lambdaPermissionLogicalId : string)
    : string :=
  nl +:+
  "        {" +:+ nl +:+
  "          " +:+ q "Type" +:+ " : " +:+ q "AWS::Logs::SubscriptionFilter"
    +:+ "," +:+ nl +:+
  "          " +:+ q "Properties" +:+ " : {" +:+ nl +:+
  "            " +:+ q "DestinationArn" +:+ " : { " +:+ q "Fn::GetAtt" +:+
    ": [" +:+ q lambdaLogicalId +:+ ", " +:+ q "Arn" +:+ "] }," +:+ nl +:+
  "            " +:+ q "FilterPattern" +:+ " : " +:+ q filterPattern +:+ ","
    +:+ nl +:+
  "            " +:+ q "LogGroupName" +:+ " : " +:+ q lg +:+ nl +:+
  "          }," +:+ nl +:+
  "          " +:+ q "DependsOn" +:+ ": " +:+ q lambdaPermissionLogicalId
    +:+ nl +:+
  "        }" +:+ nl +:+
  "      ".

Definition compileSubscriptionFilter (hst : host) (setting : settingObj)
    (functionName : string) : outcome (string * json) :=
  let lambdaLogicalId := getLambdaLogicalId hst functionName in
  let lambdaPermissionLogicalId :=
    getLambdaPermissionLogicalId hst functionName
      (to_string (logGroupName setting)) in
  let pattern := escapeDoubleQuote (to_string (filterPattern setting)) in
  let lg := to_string (logGroupName setting) in
  let text :=
    subscriptionFilterTemplate lambdaLogicalId pattern lg
      lambdaPermissionLogicalId in
  let subscriptionFilterLogicalId :=
    getSubscriptionFilterLogicalId hst functionName
      (to_string (logGroupName setting)) in
  executor
    match parse (syntaxErrorMessage hst) text with
    | Return body => Return (subscriptionFilterLogicalId, body)
    | Throw e => Throw e
    end.

Definition compilePermission (hst : host) (setting : settingObj)
    (functionName logGroupArn : string) : outcome (string * json) :=
  let lambdaLogicalId := getLambdaLogicalId hst functionName in
  let region := getRegion hst in
  let text := permissionTemplate lambdaLogicalId region logGroupArn in
  let lambdaPermissionLogicalId :=
    getLambdaPermissionLogicalId hst functionName
      (to_string (logGroupName setting)) in
  executor
    match parse (syntaxErrorMessage hst) text with
    | Return body => Return (lambdaPermissionLogicalId, body)
    | Throw e => Throw e
    end.

(** [getLogGroupArn] of the first revision.  On an empty page it calls
    [reject] and goes on: [_.find] finds nothing, and the callback
    returns the promise of the next call.  The promise is settled by
    the first call of [resolve] or [reject]; later ones do nothing.

    The result holds the continuation tokens of the listing calls made
    within [fuel] calls, in order, and the outcome of the promise when
    these calls decide it ([None]: they do not). *)
Fixpoint getLogGroupArn (fuel : nat) (r : aws) (name : string)
    (token : option string)
    : list (option string) * option (outcome string) :=
  match fuel with
  | O => ([], None)
  | S fuel' =>
      match describeLogGroups r name token with
      | Rejected e => ([token], Some (Rejected e))
      | Pending => ([token], Some Pending)
      | Resolved data =>
          match findLogGroup name (logGroups data) with
          | Some g => ([token], Some (Resolved (arn g)))
          | None =>
              let '(calls, next) :=
                getLogGroupArn fuel' r name (nextToken data) in
              (token :: calls,
               match logGroups data with
               | [] => Some (Rejected (Error "LogGroup not found"))
               | _ :: _ =>
                   match next with
                   | Some (Rejected e) => Some (Rejected e)
                   | Some _ => Some Pending
                   | None => None
                   end
               end)
          end
      end
  end.

Inductive effect :=
| Log (message : string)
| CallDescribeLogGroups (prefix : string) (token : option string)
| MergeResource (fragment : string * json).

Definition compilingMessage (lg : string) : string :=
  "Compiling " +:+ lg +:+ " subscription filter object...".

Definition skippingMessage (lg : string) : string :=
  "Skipping to compile " +:+ lg +:+ " subscription filter object...".

(** The promise chain of [doCompile]: the effects of the pipeline
    within [fuel] listing calls, and the outcome of its promise when
    they decide it. *)
Definition doCompile (fuel : nat) (hst : host) (r : aws)
    (setting : settingObj) (functionName : string)
    : list effect * option (outcome unit) :=
  let lg := to_string (logGroupName setting) in
  let '(tokens, found) := getLogGroupArn fuel r lg None in
  let listed := Log (compilingMessage lg) :: map (CallDescribeLogGroups lg) tokens in
  match found with
  | None => (listed, None)
  | Some (Rejected e) => (listed, Some (rethrow e))
  | Some Pending => (listed, Some Pending)
  | Some (Resolved logGroupArn) =>
      match compilePermission hst setting functionName logGroupArn with
      | Rejected e => (listed, Some (rethrow e))
      | Pending => (listed, Some Pending)
      | Resolved newPermissionObject =>
          let granted := listed ++ [MergeResource newPermissionObject] in
          match compileSubscriptionFilter hst setting functionName with
          | Rejected e => (granted, Some (rethrow e))
          | Pending => (granted, Some Pending)
          | Resolved newSubscriptionFilterObject =>
              (granted ++ [MergeResource newSubscriptionFilterObject],
               Some (Resolved tt))
          end
      end
  end.

Record task := {
  t_function : string;
  t_setting : loc
}.

(** The state of the two loops: what has been written on the command
    line, and the pipelines started.  The first statement of
    [doCompile] writes its line within the loop. *)
Record loopState := {
  st_log : list string;
  st_tasks : list task
}.

(** The callback of the inner [forEach].  After [validateSettings] the
    stage is a string, and [!=] on two strings is [!==]. *)
Definition eachEvent (hst : host) (h : gmap loc settingObj)
    (functionName : string) (e : event) (st : loopState)
    : loopState * option jserror :=
  let sf := subscriptionFilter e in
  match validateSettings h sf with
  | Throw err => (st, Some err)
  | Return false => (st, None)
  | Return true =>
      let lg := to_string (prop logGroupName h sf) in
      if negb (strict_eq (prop stage h sf) (JString (getStage hst)))
      then ({| st_log := st_log st ++ [skippingMessage lg];
               st_tasks := st_tasks st |}, None)
      else ({| st_log := st_log st ++ [compilingMessage lg];
               st_tasks :=
                 st_tasks st ++
                 [{| t_function := functionName;
                     t_setting := settingLoc sf |}] |}, None)
  end.

Fixpoint eachEvents (hst : host) (h : gmap loc settingObj)
    (functionName : string) (es : list event) (st : loopState)
    : loopState * option jserror :=
  match es with
  | [] => (st, None)
  | e :: es' =>
      match eachEvent hst h functionName e st with
      | (st', Some err) => (st', Some err)
      | (st', None) => eachEvents hst h functionName es' st'
      end
  end.

Fixpoint eachFunction (hst : host) (h : gmap loc settingObj)
    (svc : service) (st : loopState) : loopState * option jserror :=
  match svc with
  | [] => (st, None)
  | (functionName, es) :: svc' =>
      match eachEvents hst h functionName es st with
      | (st', Some err) => (st', Some err)
      | (st', None) => eachFunction hst h svc' st'
      end
  end.

(** The synchronous part of the hook. *)
Definition startPipelines (hst : host) (h : gmap loc settingObj)
    (svc : service) : loopState * option jserror :=
  eachFunction hst h svc {| st_log := []; st_tasks := [] |}.

(** The hook: the command line, the pipelines started, and either the
    error thrown or the outcome of [Promise.all], when the pipelines
    decide it within [fuel] listing calls each. *)
Definition compileSubscriptionFilterEvents (fuel : nat) (hst : host)
    (r : aws) (h : gmap loc settingObj) (svc : service)
    : list string * list (task * (list effect * option (outcome unit)))
      * result (option (outcome unit)) :=
  let '(st, thrown) := startPipelines hst h svc in
  let ps :=
    map (fun t => (t, doCompile fuel hst r (getObj h (t_setting t))
                        (t_function t))) (st_tasks st) in
  (st_log st, ps,
   match thrown with
   | Some err => Throw err
   | None =>
       Return
         (if forallb (fun p => match snd (snd p) with Some _ => true | None => false end) ps
          then Some (allSettled
                       (flat_map (fun p => match snd (snd p) with
                                           | Some o => [o]
                                           | None => []
                                           end) ps))
          else None)
   end).

End Rev1.

(** The subscription filter template of the first revision, as tokens,
    and the resource it spells out. *)
Definition subscriptionFilterProperties1 (L P G r : string) : string :=
  tok " " "{"
    (str W12 "DestinationArn" (tok " " ":" (getAttText " " L (tok "" ","
    (str W12 "FilterPattern" (tok " " ":" (str " " P (tok "" ","
    (str W12 "LogGroupName" (tok " " ":" (str " " G
      (tok W10 "}" r)))))))))))).

Definition subscriptionFilterTokens1 (L P G ID : string) : string :=
  tok W8 "{"
    (str W10 "Type" (tok " " ":" (str " " "AWS::Logs::SubscriptionFilter"
      (tok "" ","
    (str W10 "Properties" (tok " " ":"
      (subscriptionFilterProperties1 L P G (afterProperties ID)))))))).

Definition subscriptionFilterResource1 (L P G ID : string) : json :=
  JsObj
    [("Type", JsStr "AWS::Logs::SubscriptionFilter");
     ("Properties",
      JsObj
        [("DestinationArn",
          JsObj [("Fn::GetAtt", JsArr [JsStr L; JsStr "Arn"])]);
         ("FilterPattern", JsStr P);
         ("LogGroupName", JsStr G)]);
     ("DependsOn", JsStr ID)].

(** ** Vocabulary of the further properties *)

(** The number of double quotes of a text. *)
Fixpoint countQuotes (s : string) : nat :=
  match s with
  | EmptyString => 0
  | String c s' => (if Ascii.eqb c dq then 1 else 0) + countQuotes s'
  end.

(** A state that the loops can be in when they began with the store
    [h]: an object is as in [h], or it was declared for the stage of the
    deployment, a pipeline has been started on it, and its stage now
    carries the text of one of the draws made. *)
Definition reached (hst : host) (random : nat -> string)
    (h : gmap loc settingObj) (st : loopState) : Prop :=
  forall l,
    getObj (st_store st) l = getObj h l \/
    (stage (getObj h l) = JString (getStage hst) /\
     getStage hst <> "" /\
     exists n t,
       n < st_draws st /\
       getObj (st_store st) l =
         {| stage := JString (getStage hst +:+ "-" +:+ random n);
            logGroupName := logGroupName (getObj h l);
            filterPattern := filterPattern (getObj h l) |} /\
       In t (st_tasks st) /\ t_setting t = l).

(** The function and the position of a started pipeline. *)
Definition taskKey (p : task * (list effect * outcome unit)) : string * nat :=
  (t_function (fst p), t_index (fst p)).

(** The triggers of the stage of the deployment, as the first revision
    starts them: one pipeline for each, on the function and the setting
    object of the trigger. *)
Definition currentTasks (hst : host) (h : gmap loc settingObj)
    (ts : list (string * nat * event)) : list Rev1.task :=
  flat_map (fun t =>
              match subscriptionFilter (snd t) with
              | JObject l =>
                  if strict_eq (stage (getObj h l)) (JString (getStage hst))
                  then [{| Rev1.t_function := fst (fst t); Rev1.t_setting := l |}]
                  else []
              | _ => []
              end) ts.

(** What the first revision writes on the command line for the
    triggers: a line for every valid one, that it compiles it or that
    it skips it. *)
Definition reportLines (hst : host) (h : gmap loc settingObj)
    (ts : list (string * nat * event)) : list string :=
  flat_map (fun t =>
              match subscriptionFilter (snd t) with
              | JObject l =>
                  let lg := to_string (logGroupName (getObj h l)) in
                  if strict_eq (stage (getObj h l)) (JString (getStage hst))
                  then [Rev1.compilingMessage lg]
                  else [Rev1.skippingMessage lg]
              | _ => []
              end) ts.

(** * Properties *)

(** [simpl] computes the concatenation of a literal with a string. *)
#[local] Arguments String.append !_ _ /.

Lemma badField_false (v : jsval) : badField v = false <-> nonEmptyString v.
Proof.
  unfold badField, nonEmptyString. split.
  - destruct v as [| |b|n|s|l]; simpl; try discriminate.
    + destruct b; discriminate.
    + destruct (Z.eqb n 0); discriminate.
    + intros H. exists s. split; [reflexivity|].
      intros ->. simpl in H. discriminate.
  - intros (s & -> & Hs). simpl.
    destruct (String.eqb_spec s ""); [contradiction|reflexivity].
Qed.

Lemma badField_true (v : jsval) : badField v = true <-> ~ nonEmptyString v.
Proof.
  rewrite <- badField_false. destruct (badField v); split; congruence.
Qed.

Lemma fieldError_names_field :
  includes (err_message (fieldError "stage")) "stage" = true /\
  includes (err_message (fieldError "logGroupName")) "logGroupName" = true /\
  includes (err_message (fieldError "filterPattern")) "filterPattern" = true.
Proof. repeat split; vm_compute; reflexivity. Qed.

(** C3. [validateSettings] returns [false], without an error, on a falsy
    setting.  On a truthy one it checks [stage], [logGroupName] and
    [filterPattern] in that order, and throws the error of the first of
    them that is not a non-empty string; the message of that error
    contains the name of the field.  It returns [true] exactly when the
    setting is truthy and all three properties are non-empty strings. *)
Theorem validateSettings_spec (h : gmap loc settingObj) (setting : jsval) :
  (truthy setting = false -> validateSettings h setting = Return false) /\
  (truthy setting = true ->
     (~ nonEmptyString (stageOf h setting) ->
        validateSettings h setting = Throw (fieldError "stage")) /\
     (nonEmptyString (stageOf h setting) ->
      ~ nonEmptyString (logGroupNameOf h setting) ->
        validateSettings h setting = Throw (fieldError "logGroupName")) /\
     (nonEmptyString (stageOf h setting) ->
      nonEmptyString (logGroupNameOf h setting) ->
      ~ nonEmptyString (filterPatternOf h setting) ->
        validateSettings h setting = Throw (fieldError "filterPattern"))) /\
  (validateSettings h setting = Return true <->
     truthy setting = true /\
     nonEmptyString (stageOf h setting) /\
     nonEmptyString (logGroupNameOf h setting) /\
     nonEmptyString (filterPatternOf h setting)) /\
  (includes (err_message (fieldError "stage")) "stage" = true /\
   includes (err_message (fieldError "logGroupName")) "logGroupName" = true /\
   includes (err_message (fieldError "filterPattern")) "filterPattern" = true).
Proof.
  split; [|split; [|split; [|exact fieldError_names_field]]];
    unfold validateSettings, stageOf, logGroupNameOf, filterPatternOf,
      fieldError;
    destruct (truthy setting) eqn:Ht; simpl; try discriminate;
    try (intros _; reflexivity).
  - intros _.
    destruct (badField (prop stage h setting)) eqn:Hs;
      [apply badField_true in Hs | apply badField_false in Hs];
    destruct (badField (prop logGroupName h setting)) eqn:Hl;
      [apply badField_true in Hl | apply badField_false in Hl
      |apply badField_true in Hl | apply badField_false in Hl];
    destruct (badField (prop filterPattern h setting)) eqn:Hf;
      [apply badField_true in Hf | apply badField_false in Hf
      |apply badField_true in Hf | apply badField_false in Hf
      |apply badField_true in Hf | apply badField_false in Hf
      |apply badField_true in Hf | apply badField_false in Hf];
    repeat split; intros; try reflexivity; try contradiction.
  - destruct (badField (prop stage h setting)) eqn:Hs.
    { apply badField_true in Hs. split; [discriminate | tauto]. }
    destruct (badField (prop logGroupName h setting)) eqn:Hl.
    { apply badField_true in Hl. split; [discriminate | tauto]. }
    destruct (badField (prop filterPattern h setting)) eqn:Hf.
    { apply badField_true in Hf. split; [discriminate | tauto]. }
    apply badField_false in Hs, Hl, Hf. tauto.
  - split; [discriminate | intros [? _]; discriminate].
Qed.

(** ** Strings and strict equality *)

Lemma strict_eq_true (a b : jsval) : strict_eq a b = true <-> a = b.
Proof.
  destruct a, b; simpl; split; try discriminate; try reflexivity; intros H.
  - apply Bool.eqb_prop in H. congruence.
  - injection H as ->. apply Bool.eqb_reflx.
  - apply Z.eqb_eq in H. congruence.
  - injection H as ->. apply Z.eqb_refl.
  - apply String.eqb_eq in H. congruence.
  - injection H as ->. apply String.eqb_refl.
  - apply Nat.eqb_eq in H. congruence.
  - injection H as ->. apply Nat.eqb_refl.
Qed.

Lemma strict_eq_false (a b : jsval) : strict_eq a b = false <-> a <> b.
Proof.
  rewrite <- strict_eq_true. destruct (strict_eq a b); split; congruence.
Qed.

Lemma prefix_append (t r : string) : String.prefix t (t +:+ r) = true.
Proof.
  induction t as [|c t IH]; simpl.
  - destruct r; reflexivity.
  - destruct (ascii_dec c c); [exact IH | contradiction].
Qed.

Lemma includes_prefix (s t : string) :
  String.prefix t s = true -> includes s t = true.
Proof. intros H. destruct s; simpl in *; rewrite H; reflexivity. Qed.

Lemma includes_append (p t r : string) : includes (p +:+ t +:+ r) t = true.
Proof.
  induction p as [|c p IH].
  - change (includes (t +:+ r) t = true). apply includes_prefix. apply prefix_append.
  - change (includes (String c (p +:+ t +:+ r)) t = true).
    cbn [includes].
    destruct (String.prefix t (String c (p +:+ t +:+ r))); [reflexivity|].
    exact IH.
Qed.

Lemma limitMessage_names (indent key : string) :
  includes (limitMessage indent key) key = true.
Proof.
  unfold limitMessage.
  change (nl +:+ "  Subscription filters of " +:+ key +:+ limitMessageTail indent)
    with ((nl +:+ "  Subscription filters of ") +:+ key +:+ limitMessageTail indent).
  apply includes_append.
Qed.

(** ** The dynamic check *)

Lemma compareDestinations_absent (lg : string) (d e : jsval) :
  truthy d = false -> compareDestinations lg d e = Resolved tt.
Proof. intros H. unfold compareDestinations. rewrite H. reflexivity. Qed.





(** ** The reconstruction of the expected destination *)

Lemma stackMissing_spec (e : jserror) :
  stackMissing e = true <->
  err_code e = Some "ValidationError" /\
  includes (err_message e) "does not exist" = true.
Proof.
  unfold stackMissing. rewrite andb_true_iff.
  destruct (err_code e) as [c|]; simpl.
  - rewrite String.eqb_eq. split; intros [H1 H2]; split; congruence.
  - split; intros [H _]; discriminate.
Qed.

Lemma findOutput_first (key : string) (pre post : list output) (o : output) :
  (forall o', In o' pre -> OutputKey o' <> key) ->
  OutputKey o = key ->
  findOutput key (pre ++ o :: post) = Some o.
Proof.
  intros Hpre Ho. unfold findOutput.
  induction pre as [|p pre IH]; simpl.
  - rewrite (proj2 (String.eqb_eq _ _) Ho). reflexivity.
  - destruct (String.eqb_spec (OutputKey p) key) as [Heq|_].
    + exfalso. apply (Hpre p); [left; reflexivity | exact Heq].
    + apply IH. intros o' Hin. apply Hpre. right. exact Hin.
Qed.

Lemma findOutput_none (key : string) (outs : list output) :
  (forall o, In o outs -> OutputKey o <> key) ->
  findOutput key outs = None.
Proof.
  intros H. unfold findOutput.
  induction outs as [|p outs IH]; simpl; [reflexivity|].
  destruct (String.eqb_spec (OutputKey p) key) as [Heq|_].
  - exfalso. apply (H p); [left; reflexivity | exact Heq].
  - apply IH. intros o Hin. apply H. right. exact Hin.
Qed.

(** C4. [guessSubscriptionFilterDestinationArn] resolves to the value of
    the first output of the stack whose key is the log group name
    followed by the qualified function name; it resolves to [null] when
    no output has that key, and when the lookup is rejected with code
    [ValidationError] and a message that contains [does not exist]; any
    other rejection of the lookup rejects the promise with the same
    error. *)
Theorem guessSubscriptionFilterDestinationArn_spec (hst : host) (r : aws)
    (lg lambdaFunctionName : string) :
  (forall stacks pre o post,
     describeStacks r (getStackName hst) = Resolved stacks ->
     flat_map Outputs stacks = pre ++ o :: post ->
     (forall o', In o' pre -> OutputKey o' <> lg +:+ lambdaFunctionName) ->
     OutputKey o = lg +:+ lambdaFunctionName ->
     guessSubscriptionFilterDestinationArn hst r lg lambdaFunctionName
       = Resolved (OutputValue o)) /\
  (forall stacks,
     describeStacks r (getStackName hst) = Resolved stacks ->
     (forall o, In o (flat_map Outputs stacks) ->
        OutputKey o <> lg +:+ lambdaFunctionName) ->
     guessSubscriptionFilterDestinationArn hst r lg lambdaFunctionName
       = Resolved JNull) /\
  (forall e,
     describeStacks r (getStackName hst) = Rejected e ->
     err_code e = Some "ValidationError" ->
     includes (err_message e) "does not exist" = true ->
     guessSubscriptionFilterDestinationArn hst r lg lambdaFunctionName
       = Resolved JNull) /\
  (forall e,
     describeStacks r (getStackName hst) = Rejected e ->
     ~ (err_code e = Some "ValidationError" /\
        includes (err_message e) "does not exist" = true) ->
     guessSubscriptionFilterDestinationArn hst r lg lambdaFunctionName
       = Rejected e).
Proof.
  unfold guessSubscriptionFilterDestinationArn. repeat split.
  - intros stacks pre o post -> -> Hpre Ho.
    rewrite (findOutput_first _ pre post o Hpre Ho). reflexivity.
  - intros stacks -> Hnone. rewrite (findOutput_none _ _ Hnone). reflexivity.
  - intros e -> Hc Hm.
    rewrite (proj2 (stackMissing_spec e) (conj Hc Hm)). reflexivity.
  - intros e -> Hn. destruct (stackMissing e) eqn:Hs; [|reflexivity].
    exfalso. apply Hn. apply stackMissing_spec. exact Hs.
Qed.

Lemma guessSubscriptionFilterDestinationArn_spec_witness :
  guessSubscriptionFilterDestinationArn devHost
    (deployed "arn:dest:1" "arn:dest:2") "/app/a" "svc-dev-hello"
    = Resolved (JString "arn:dest:2") /\
  guessSubscriptionFilterDestinationArn devHost
    (deployed "arn:dest:1" "arn:dest:2") "/app/b" "svc-dev-hello"
    = Resolved JNull /\
  guessSubscriptionFilterDestinationArn devHost firstDeployment
    "/app/a" "svc-dev-hello" = Resolved JNull /\
  guessSubscriptionFilterDestinationArn devHost refusedLookup
    "/app/a" "svc-dev-hello"
    = Rejected (AwsError "AccessDenied" "User is not authorized").
Proof.
  split; [|split; [|split]].
  - refine (proj1 (guessSubscriptionFilterDestinationArn_spec devHost
                     (deployed "arn:dest:1" "arn:dest:2")
                     "/app/a" "svc-dev-hello")
              _ [{| OutputKey := "ServerlessDeploymentBucketName";
                    OutputValue := JString "bucket" |}]
              {| OutputKey := "/app/asvc-dev-hello";
                 OutputValue := JString "arn:dest:2" |} []
              eq_refl eq_refl _ eq_refl).
    intros o' [<-|[]]. discriminate.
  - refine (proj1 (proj2 (guessSubscriptionFilterDestinationArn_spec devHost
                     (deployed "arn:dest:1" "arn:dest:2")
                     "/app/b" "svc-dev-hello")) _ eq_refl _).
    intros o [<-|[<-|[]]]; discriminate.
  - refine (proj1 (proj2 (proj2 (guessSubscriptionFilterDestinationArn_spec
                     devHost firstDeployment "/app/a" "svc-dev-hello")))
              _ eq_refl eq_refl eq_refl).
  - refine (proj2 (proj2 (proj2 (guessSubscriptionFilterDestinationArn_spec
                     devHost refusedLookup "/app/a" "svc-dev-hello")))
              _ eq_refl _).
    intros [Hc _]. discriminate.
Defined.

(** ** The static check *)

Lemma count_of_bump (k k' : string) (o : list (string * nat)) :
  count_of k (bump k' o) =
  if String.eqb k k' then S (count_of k o) else count_of k o.
Proof.
  induction o as [|[k0 n] o IH]; simpl.
  - destruct (String.eqb k k'); reflexivity.
  - destruct (String.eqb_spec k' k0) as [->|Hne]; simpl.
    + destruct (String.eqb k k0); reflexivity.
    + destruct (String.eqb_spec k k0) as [->|Hne'].
      * destruct (String.eqb_spec k0 k'); [congruence | reflexivity].
      * exact IH.
Qed.

Lemma occurrences_cons (k : string) (v : jsval) (vs : list jsval) :
  occurrences k (v :: vs) =
  if String.eqb k (to_string v) then S (occurrences k vs) else occurrences k vs.
Proof.
  unfold occurrences. rewrite filter_cons.
  destruct (decide (to_string v = k)) as [<-|Hne].
  - rewrite String.eqb_refl. reflexivity.
  - destruct (String.eqb_spec k (to_string v)); [congruence | reflexivity].
Qed.

Lemma count_of_fold (k : string) (vs : list jsval) (o : list (string * nat)) :
  count_of k (fold_left (fun o v => bump (to_string v) o) vs o) =
  count_of k o + occurrences k vs.
Proof.
  revert o. induction vs as [|v vs IH]; intros o; simpl.
  - unfold occurrences. simpl. lia.
  - rewrite IH, count_of_bump, occurrences_cons.
    destruct (String.eqb k (to_string v)); lia.
Qed.

Lemma count_of_countBy (k : string) (vs : list jsval) :
  count_of k (countBy vs) = occurrences k vs.
Proof. unfold countBy. rewrite count_of_fold. reflexivity. Qed.

Lemma keys_bump (k : string) (o : list (string * nat)) :
  List.NoDup (map fst o) -> List.NoDup (map fst (bump k o)) /\
  (forall k', In k' (map fst (bump k o)) <-> k' = k \/ In k' (map fst o)).
Proof.
  induction o as [|[k0 n] o IH]; simpl; intros Hnd.
  - split; [apply List.NoDup_cons; [simpl; tauto | apply List.NoDup_nil] | intros k'; intuition congruence].
  - apply List.NoDup_cons_iff in Hnd as [Hnotin Hnd].
    destruct (IH Hnd) as [IH1 IH2].
    destruct (String.eqb_spec k k0) as [->|Hne]; simpl.
    + split; [apply List.NoDup_cons_iff; split; assumption | intros k'; intuition congruence].
    + split.
      * apply List.NoDup_cons_iff. split; [|exact IH1].
        rewrite IH2. intros [Heq|Hin]; [congruence | contradiction].
      * intros k'. rewrite IH2. intuition congruence.
Qed.

Lemma keys_countBy (vs : list jsval) : List.NoDup (map fst (countBy vs)).
Proof.
  unfold countBy.
  assert (H : forall o, List.NoDup (map fst o) ->
    List.NoDup (map fst (fold_left (fun o v => bump (to_string v) o) vs o))).
  { induction vs as [|v vs IH]; intros o Ho; simpl; [exact Ho|].
    apply IH. apply keys_bump. exact Ho. }
  apply H. apply List.NoDup_nil.
Qed.

Lemma count_of_In (k : string) (n : nat) (o : list (string * nat)) :
  List.NoDup (map fst o) -> In (k, n) o -> count_of k o = n.
Proof.
  induction o as [|[k0 n0] o IH]; simpl; intros Hnd Hin; [contradiction|].
  apply List.NoDup_cons_iff in Hnd as [Hnotin Hnd].
  destruct Hin as [Heq|Hin].
  - injection Heq as -> ->. rewrite String.eqb_refl. reflexivity.
  - destruct (String.eqb_spec k k0) as [->|_].
    + exfalso. apply Hnotin. apply (List.in_map fst) in Hin. exact Hin.
    + apply IH; assumption.
Qed.

Lemma In_count_of (k : string) (o : list (string * nat)) :
  0 < count_of k o -> In (k, count_of k o) o.
Proof.
  induction o as [|[k0 n0] o IH]; simpl; intros H; [lia|].
  destruct (String.eqb_spec k k0) as [->|_]; [left; reflexivity|].
  right. apply IH. exact H.
Qed.

Lemma In_insert_index {A} (n : N) (x y : A) (l : list (N * A)) :
  In x (map snd (insert_index n y l)) <-> x = y \/ In x (map snd l).
Proof.
  induction l as [|[m z] l IH]; simpl.
  - intuition congruence.
  - destruct (n <=? m)%N; simpl; [intuition congruence|].
    rewrite IH. intuition congruence.
Qed.

Lemma In_index_entries {A} (kv : string * A) (o : list (string * A)) :
  In kv (map snd (index_entries o)) <->
  In kv o /\ array_index (fst kv) <> None.
Proof.
  induction o as [|[k v] o IH]; simpl; [tauto|].
  destruct (array_index k) as [n|] eqn:Hk.
  - rewrite In_insert_index, IH. split.
    + intros [->|[Hin Hidx]]; [|tauto]. simpl. rewrite Hk. split; [tauto|discriminate].
    + intros [[<-|Hin] Hidx]; [left; reflexivity | right; tauto].
  - rewrite IH. split; [tauto|].
    intros [[<-|Hin] Hidx]; [|tauto]. simpl in Hidx. contradiction.
Qed.

Lemma In_ownEntries {A} (kv : string * A) (o : list (string * A)) :
  In kv (ownEntries o) <-> In kv o.
Proof.
  unfold ownEntries, named_entries.
  rewrite List.in_app_iff, In_index_entries, <- !list_elem_of_In,
    list_elem_of_filter.
  destruct (array_index (fst kv)); intuition (try discriminate; congruence).
Qed.

Lemma checkCounts_throw (o : list (string * nat)) (e : jserror) :
  checkCounts o = Throw e ->
  exists k n, In (k, n) o /\ LIMIT_CLOUDWATCH_FILTER_COUNT < n /\
              e = ServerlessError (preCheckMessage k).
Proof.
  induction o as [|[k n] o IH]; simpl; [discriminate|].
  destruct (Nat.ltb_spec LIMIT_CLOUDWATCH_FILTER_COUNT n) as [Hlt|Hge].
  - intros H. injection H as <-. exists k, n. tauto.
  - intros H. destruct (IH H) as (k' & n' & Hin & Hlt & He).
    exists k', n'. tauto.
Qed.

Lemma checkCounts_return (o : list (string * nat)) :
  checkCounts o = Return tt <->
  forall k n, In (k, n) o -> n <= LIMIT_CLOUDWATCH_FILTER_COUNT.
Proof.
  induction o as [|[k n] o IH]; simpl.
  - split; [intros _ k n [] | reflexivity].
  - destruct (Nat.ltb_spec LIMIT_CLOUDWATCH_FILTER_COUNT n) as [Hlt|Hge].
    + split; [discriminate|]. intros H. specialize (H k n (or_introl eq_refl)).
      unfold LIMIT_CLOUDWATCH_FILTER_COUNT in *. lia.
    + rewrite IH. split.
      * intros H k' n' [Heq|Hin]; [injection Heq as <- <-; exact Hge|].
        apply (H k'). exact Hin.
      * intros H k' n' Hin. apply (H k'). right. exact Hin.
Qed.

Lemma preCheck_entries (h : gmap loc settingObj) (svc : service)
    (k : string) (n : nat) :
  In (k, n) (ownEntries (countBy (declaredLogGroupNames h svc))) ->
  n = occurrences k (declaredLogGroupNames h svc).
Proof.
  rewrite In_ownEntries. intros Hin.
  rewrite <- count_of_countBy. symmetry.
  apply count_of_In; [apply keys_countBy | exact Hin].
Qed.

Lemma preCheck_over (h : gmap loc settingObj) (svc : service) (k : string) :
  0 < occurrences k (declaredLogGroupNames h svc) ->
  In (k, occurrences k (declaredLogGroupNames h svc))
     (ownEntries (countBy (declaredLogGroupNames h svc))).
Proof.
  intros H. rewrite In_ownEntries, <- count_of_countBy.
  apply In_count_of. rewrite count_of_countBy. exact H.
Qed.

Lemma preCheck_throws (h : gmap loc settingObj) (svc : service) (e : jserror) :
  preCheckResourceLimitExceeded h svc = Throw e ->
  exists k, LIMIT_CLOUDWATCH_FILTER_COUNT
              < occurrences k (declaredLogGroupNames h svc) /\
            e = ServerlessError (preCheckMessage k).
Proof.
  unfold preCheckResourceLimitExceeded. intros H.
  apply checkCounts_throw in H as (k & n & Hin & Hlt & He).
  apply preCheck_entries in Hin. subst n. exists k. tauto.
Qed.

Lemma preCheck_returns (h : gmap loc settingObj) (svc : service) :
  preCheckResourceLimitExceeded h svc = Return tt <->
  forall k, occurrences k (declaredLogGroupNames h svc)
              <= LIMIT_CLOUDWATCH_FILTER_COUNT.
Proof.
  unfold preCheckResourceLimitExceeded. rewrite checkCounts_return. split.
  - intros H k.
    destruct (Nat.eq_dec (occurrences k (declaredLogGroupNames h svc)) 0)
      as [->|Hpos]; [unfold LIMIT_CLOUDWATCH_FILTER_COUNT; lia|].
    apply (H k). apply preCheck_over. lia.
  - intros H k n Hin. apply preCheck_entries in Hin. subst n. apply H.
Qed.

Lemma In_indexed (f f' : string) (i j : nat) (e : event) (es : list event) :
  In (f', j, e) (indexed f i es) <->
  f' = f /\ exists k, j = i + k /\ nth_error es k = Some e.
Proof.
  revert i. induction es as [|e0 es IH]; intros i; simpl.
  - split; [intros [] | intros (_ & k & _ & H)]. destruct k; discriminate.
  - rewrite IH. split.
    + intros [H|(Hf & k & Hj & Hk)].
      * injection H as <- <- <-. split; [reflexivity|]. exists 0.
        split; [lia | reflexivity].
      * split; [exact Hf|]. exists (S k). split; [lia | exact Hk].
    + intros (Hf & [|k] & Hj & Hk).
      * left. simpl in Hk. injection Hk as <-. subst. f_equal. f_equal. lia.
      * right. split; [exact Hf|]. exists k. split; [lia | exact Hk].
Qed.

Lemma In_triggers (svc : service) (f : string) (i : nat) (e : event) :
  In (f, i, e) (triggers svc) <->
  exists es, In (f, es) svc /\ nth_error es i = Some e.
Proof.
  unfold triggers. rewrite List.in_flat_map. split.
  - intros ([f' es] & Hin & Hidx). simpl in Hidx.
    apply In_indexed in Hidx as (-> & k & -> & Hk). exists es. tauto.
  - intros (es & Hin & Hk). exists (f, es). split; [exact Hin|].
    simpl. apply In_indexed. split; [reflexivity|]. exists i. tauto.
Qed.

Lemma events_indexed (f : string) (i : nat) (es : list event) :
  map snd (indexed f i es) = es.
Proof.
  revert i. induction es as [|e es IH]; intros i; simpl; [reflexivity|].
  rewrite IH. reflexivity.
Qed.

Lemma events_triggers (svc : service) :
  map snd (triggers svc) = flat_map snd svc.
Proof.
  induction svc as [|[f es] svc IH]; simpl; [reflexivity|].
  change (triggers ((f, es) :: svc)) with (indexed f 0 es ++ triggers svc).
  rewrite List.map_app, events_indexed, IH. reflexivity.
Qed.

(** The names that the check collects are those of the declared
    triggers, one for each, and the count of a key is the number of
    declared triggers whose log group name reads as the key. *)
Lemma occurrences_triggersOn (h : gmap loc settingObj) (svc : service)
    (k : string) :
  occurrences k (declaredLogGroupNames h svc) = length (triggersOn h svc k).
Proof.
  unfold declaredLogGroupNames, triggersOn, declaredTriggers.
  rewrite <- events_triggers.
  induction (triggers svc) as [|[[f i] e] ts IH]; [reflexivity|].
  cbn [map List.filter snd]. rewrite filter_cons.
  destruct (truthy (subscriptionFilter e)) eqn:Ht.
  - destruct (decide (true = true)) as [_|Hn]; [|contradiction].
    cbn [map List.filter snd]. rewrite occurrences_cons, IH.
    unfold logGroupNameOf. rewrite String.eqb_sym.
    destruct (String.eqb _ k); reflexivity.
  - destruct (decide (false = true)) as [Hn|_]; [discriminate|]. exact IH.
Qed.

(** C2. [preCheckResourceLimitExceeded] groups the declared triggers of
    the service, all of them, by the log group they name.  It throws
    exactly when some log group is named by more than 2 of them (3 or
    more); the error it throws is the quota error of a log group that
    is over that threshold, and its message contains the name of that
    log group.  It returns exactly when every log group is named by at
    most 2 declared triggers.  The hook runs it before its loops: when
    it throws, the hook throws that error and starts no pipeline.

    The declared triggers are the events with a [subscriptionFilter],
    at their function and position.  A trigger whose log group name is
    a string belongs to the group of that name and to no other; a name
    that is not a string is grouped under the text it reads as. *)
Theorem preCheckResourceLimitExceeded_spec (h : gmap loc settingObj)
    (svc : service) :
  LIMIT_CLOUDWATCH_FILTER_COUNT = 2 /\
  ((exists k, 3 <= length (triggersOn h svc k)) <->
   (exists e, preCheckResourceLimitExceeded h svc = Throw e)) /\
  (forall e, preCheckResourceLimitExceeded h svc = Throw e ->
     exists k, 3 <= length (triggersOn h svc k) /\
               e = ServerlessError (preCheckMessage k) /\
               includes (err_message e) k = true) /\
  ((forall k, length (triggersOn h svc k) <= 2) <->
   preCheckResourceLimitExceeded h svc = Return tt) /\
  (forall e fuel hst r random,
     preCheckResourceLimitExceeded h svc = Throw e ->
     compileSubscriptionFilterEvents fuel hst r random h svc
       = Some ([], Throw e)) /\
  (forall f i e,
     In (f, i, e) (declaredTriggers svc) <->
     (exists es, In (f, es) svc /\ nth_error es i = Some e) /\
     truthy (subscriptionFilter e) = true) /\
  (forall t s,
     In t (declaredTriggers svc) ->
     logGroupNameOf h (subscriptionFilter (snd t)) = JString s ->
     forall k, In t (triggersOn h svc k) <-> k = s).
Proof.
  split; [reflexivity|].
  split; [|split; [|split; [|split; [|split]]]].
  - setoid_rewrite <- occurrences_triggersOn. split.
    + intros [k Hk].
      destruct (preCheckResourceLimitExceeded h svc) as [[]|e] eqn:Hr.
      * pose proof (proj1 (preCheck_returns h svc) Hr k) as Hle.
        unfold LIMIT_CLOUDWATCH_FILTER_COUNT in Hle. lia.
      * exists e. reflexivity.
    + intros [e He]. apply preCheck_throws in He as (k & Hk & _).
      exists k. exact Hk.
  - intros e He. apply preCheck_throws in He as (k & Hk & ->).
    rewrite occurrences_triggersOn in Hk.
    exists k. split; [exact Hk|]. split; [reflexivity|].
    apply limitMessage_names.
  - setoid_rewrite <- occurrences_triggersOn.
    rewrite preCheck_returns. reflexivity.
  - intros e fuel hst r random He.
    unfold compileSubscriptionFilterEvents, startPipelines.
    rewrite He. reflexivity.
  - intros f i e. unfold declaredTriggers.
    rewrite List.filter_In, In_triggers. reflexivity.
  - intros t s Hin Hs k. unfold triggersOn.
    rewrite List.filter_In, Hs. simpl. rewrite String.eqb_eq.
    split; [intros [_ <-]; reflexivity | intros ->; tauto].
Qed.

Lemma preCheckResourceLimitExceeded_spec_witness :
  map fst (triggersOn threeOnOne helloThree "/app/a")
    = [("hello", 0); ("hello", 1); ("hello", 2)] /\
  preCheckResourceLimitExceeded threeOnOne helloThree
    = Throw (ServerlessError (preCheckMessage "/app/a")) /\
  (exists e, preCheckResourceLimitExceeded threeOnOne helloThree = Throw e) /\
  map fst (triggersOn oneSetting alphaBeta "/app/a")
    = [("alpha", 0); ("beta", 0)] /\
  preCheckResourceLimitExceeded oneSetting alphaBeta = Return tt.
Proof.
  split; [reflexivity|]. split; [reflexivity|].
  split; [|split; [reflexivity|]].
  - apply (proj1 (proj1 (proj2 (preCheckResourceLimitExceeded_spec
                                  threeOnOne helloThree)))).
    exists "/app/a". vm_compute. lia.
  - apply (proj1 (proj1 (proj2 (proj2 (proj2
             (preCheckResourceLimitExceeded_spec oneSetting alphaBeta)))))).
    intros k. unfold triggersOn.
    etransitivity; [apply List.filter_length_le|]. vm_compute. lia.
Defined.

Lemma declaredLogGroupNames_ext (h h' : gmap loc settingObj) (svc : service) :
  (forall l, logGroupName (getObj h' l) = logGroupName (getObj h l)) ->
  declaredLogGroupNames h' svc = declaredLogGroupNames h svc.
Proof.
  intros Hsame. unfold declaredLogGroupNames.
  apply List.map_ext. intros e.
  destruct (subscriptionFilter e); simpl; try reflexivity. apply Hsame.
Qed.

(** C10. The static check reads only the [logGroupName] of the events
    with a truthy [subscriptionFilter]: let [h'] be any store that
    agrees with [h] on the log group names (the stages and the filter
    patterns are arbitrary, valid or not).  When 3 or more declared
    triggers name one log group, the hook throws the quota error of
    such a log group and starts no pipeline, whatever the stage of the
    deployment. *)
Theorem preCheck_counts_every_declared_trigger (h h' : gmap loc settingObj)
    (svc : service) (k : string) (fuel : nat) (hst : host) (r : aws)
    (random : nat -> string)
    (Hsame : forall l, logGroupName (getObj h' l) = logGroupName (getObj h l))
    (Hover : 3 <= occurrences k (declaredLogGroupNames h svc)) :
  exists k',
    compileSubscriptionFilterEvents fuel hst r random h' svc
      = Some ([], Throw (ServerlessError (preCheckMessage k'))) /\
    3 <= occurrences k' (declaredLogGroupNames h svc).
Proof.
  unfold compileSubscriptionFilterEvents, startPipelines.
  destruct (preCheckResourceLimitExceeded h' svc) as [[]|e] eqn:Hr.
  - pose proof (proj1 (preCheck_returns h' svc) Hr k) as Hle.
    rewrite (declaredLogGroupNames_ext h h' svc Hsame) in Hle.
    unfold LIMIT_CLOUDWATCH_FILTER_COUNT in Hle. lia.
  - apply preCheck_throws in Hr as (k' & Hk' & ->).
    rewrite (declaredLogGroupNames_ext h h' svc Hsame) in Hk'.
    exists k'. split; [reflexivity | exact Hk'].
Qed.

Lemma preCheck_counts_every_declared_trigger_witness :
  exists k',
    compileSubscriptionFilterEvents 1 devHost firstDeployment noRandom
      threeOnOne helloThree
      = Some ([], Throw (ServerlessError (preCheckMessage k'))) /\
    3 <= occurrences k' (declaredLogGroupNames threeOnOne helloThree).
Proof.
  apply (preCheck_counts_every_declared_trigger threeOnOne threeOnOne
           helloThree "/app/a" 1 devHost firstDeployment noRandom).
  - intros l. reflexivity.
  - vm_compute. lia.
Defined.

(** ** The paginated lookup *)

Lemma getLogGroupArn_match (fuel : nat) (r : aws) (name : string)
    (token : option string) (data : logGroupsPage) (g : logGroup) :
  describeLogGroups r name token = Resolved data ->
  findLogGroup name (logGroups data) = Some g ->
  getLogGroupArn (S fuel) r name token = Some ([token], Resolved (arn g)).
Proof.
  intros Hd Hf. simpl. rewrite Hd.
  destruct (logGroups data) as [|g0 gs] eqn:Hl; [discriminate|].
  rewrite Hf. reflexivity.
Qed.

Lemma findLogGroup_exact (name : string) (gs : list logGroup) (g : logGroup) :
  findLogGroup name gs = Some g -> In g gs /\ lgName g = name.
Proof.
  unfold findLogGroup. intros H. apply List.find_some in H as [Hin Heq].
  apply String.eqb_eq in Heq. tauto.
Qed.

Lemma getLogGroupArn_empty (fuel : nat) (r : aws) (name : string)
    (token : option string) (data : logGroupsPage) :
  describeLogGroups r name token = Resolved data ->
  logGroups data = [] ->
  getLogGroupArn (S fuel) r name token
    = Some ([token], Rejected (Error "LogGroup not found")).
Proof. intros Hd Hl. simpl. rewrite Hd, Hl. reflexivity. Qed.

(** A page that is not empty and has no exact match: the promise is
    never resolved, whatever the later pages hold. *)
Lemma getLogGroupArn_no_match_never_resolves (fuel : nat) (r : aws)
    (name : string) (token : option string) (data : logGroupsPage)
    (calls : list (option string)) (a : string) :
  describeLogGroups r name token = Resolved data ->
  logGroups data <> [] ->
  findLogGroup name (logGroups data) = None ->
  getLogGroupArn fuel r name token <> Some (calls, Resolved a).
Proof.
  intros Hd Hl Hf. destruct fuel as [|fuel]; simpl; [discriminate|].
  rewrite Hd. destruct (logGroups data) as [|g0 gs] eqn:Hg; [contradiction|].
  rewrite Hf.
  destruct (getLogGroupArn fuel r name (nextToken data)) as [[cs [x|e|]]|];
    discriminate.
Qed.

(** A last page (no continuation token) that is not empty and has no
    exact match: the listing starts again from the first page, without
    end. *)
Lemma getLogGroupArn_restarts (fuel : nat) (r : aws) (name : string)
    (data : logGroupsPage) :
  describeLogGroups r name None = Resolved data ->
  logGroups data <> [] ->
  findLogGroup name (logGroups data) = None ->
  nextToken data = None ->
  getLogGroupArn fuel r name None = None.
Proof.
  intros Hd Hl Hf Hn. induction fuel as [|fuel IH]; simpl; [reflexivity|].
  rewrite Hd. destruct (logGroups data) as [|g0 gs] eqn:Hg; [contradiction|].
  rewrite Hf, Hn, IH. reflexivity.
Qed.

(** C5, at the two-page listing: the log group [/app/a] is on the second
    page.  [getLogGroupArn] fetches the first page, then the second with
    the continuation token [t1], and its promise stays pending: the ARN
    found on the second page is not delivered.  More fuel changes
    nothing. *)
Theorem getLogGroupArn_second_page_pending :
  getLogGroupArn 2 twoPages "/app/a" None
    = Some ([None; Some "t1"], Pending) /\
  getLogGroupArn 1 twoPages "/app/a" (Some "t1")
    = Some ([Some "t1"], Resolved "arn:lg:a") /\
  (forall fuel calls a,
     getLogGroupArn fuel twoPages "/app/a" None <> Some (calls, Resolved a)).
Proof.
  split; [reflexivity | split; [reflexivity|]].
  intros fuel calls a.
  apply (getLogGroupArn_no_match_never_resolves fuel twoPages "/app/a" None
           {| logGroups := [{| lgName := "/app/a-old"; arn := "arn:lg:a-old" |}];
              nextToken := Some "t1" |});
    [reflexivity | discriminate | reflexivity].
Qed.

(** What does hold of the lookup: on a page with an exact match it
    resolves to the ARN of the first entry whose name equals the
    requested one, and on an empty page it rejects with
    [LogGroup not found]. *)
Lemma getLogGroupArn_page (fuel : nat) (r : aws) (name : string)
    (token : option string) (data : logGroupsPage) :
  describeLogGroups r name token = Resolved data ->
  (forall g, findLogGroup name (logGroups data) = Some g ->
     getLogGroupArn (S fuel) r name token = Some ([token], Resolved (arn g)) /\
     In g (logGroups data) /\ lgName g = name) /\
  (logGroups data = [] ->
     getLogGroupArn (S fuel) r name token
       = Some ([token], Rejected (Error "LogGroup not found"))).
Proof.
  intros Hd. split.
  - intros g Hg. split; [apply (getLogGroupArn_match _ _ _ _ data); assumption|].
    apply findLogGroup_exact. exact Hg.
  - apply getLogGroupArn_empty. exact Hd.
Qed.

Lemma getLogGroupArn_prefixOnly (fuel : nat) :
  getLogGroupArn fuel prefixOnly "/app/a" None = None.
Proof.
  apply (getLogGroupArn_restarts fuel prefixOnly "/app/a"
           {| logGroups := [{| lgName := "/app/a-old"; arn := "arn:lg:a-old" |}];
              nextToken := None |});
    [reflexivity | discriminate | reflexivity | reflexivity].
Qed.

(** ** String literals *)

Lemma append_assoc (a b c : string) : (a +:+ b) +:+ c = a +:+ (b +:+ c).
Proof. induction a as [|x a IH]; simpl; [reflexivity | rewrite IH; reflexivity]. Qed.

Lemma q_append (s r : string) : q s +:+ r = String dq (s +:+ String dq r).
Proof.
  unfold q.
  change (String dq ((s +:+ String dq EmptyString) +:+ r)
          = String dq (s +:+ String dq r)).
  rewrite append_assoc. reflexivity.
Qed.

Lemma plain_app (a b : string) :
  plain (a +:+ b) = plain a && plain b.
Proof.
  induction a as [|x a IH]; simpl; [reflexivity|].
  rewrite IH, andb_assoc. reflexivity.
Qed.

Lemma parse_chars_plain (s rest : string) :
  plain s = true -> parse_chars (s +:+ String dq rest) = Some (s, rest).
Proof.
  induction s as [|c s IH]; cbn -[dq bs Nat.ltb].
  - intros _. rewrite Ascii.eqb_refl. reflexivity.
  - unfold plain_char. rewrite !andb_true_iff, !negb_true_iff.
    intros [[[Hq Hb] Hc] Hs]. rewrite Hq, Hb, Hc, (IH Hs). reflexivity.
Qed.

Lemma parse_chars_escaped (p rest : string) :
  quotable p = true ->
  parse_chars (escapeDoubleQuote p +:+ String dq rest) = Some (p, rest).
Proof.
  induction p as [|c p IH]; cbn -[dq bs Nat.ltb].
  - intros _. rewrite Ascii.eqb_refl. reflexivity.
  - rewrite !andb_true_iff, !negb_true_iff. intros [[Hb Hc] Hp].
    destruct (Ascii.eqb_spec c dq) as [->|Hq]; cbn -[dq bs Nat.ltb].
    + change (Ascii.eqb bs dq) with false. change (Ascii.eqb "u" dq) with false.
      rewrite Ascii.eqb_refl.
      change (Ascii.eqb dq "u") with false.
      change (simple_escape dq) with (Some dq).
      rewrite (IH Hp). reflexivity.
    + rewrite (proj2 (Ascii.eqb_neq _ _) Hq), Hb, Hc, (IH Hp).
      reflexivity.
Qed.

Lemma escapeDoubleQuote_escapes (prev : ascii) (s : string) :
  quotes_escaped prev (escapeDoubleQuote s) = true.
Proof.
  revert prev. induction s as [|c s IH]; intros prev; cbn -[dq bs Nat.ltb];
    [reflexivity|].
  destruct (Ascii.eqb_spec c dq) as [->|Hq]; cbn -[dq bs Nat.ltb].
  - change (Ascii.eqb bs dq) with false. rewrite !Ascii.eqb_refl, IH.
    reflexivity.
  - rewrite (proj2 (Ascii.eqb_neq _ _) Hq), IH. reflexivity.
Qed.

(** ** The fuel of [parse] is enough *)

Lemma skip_ws_length (s : string) : String.length (skip_ws s) <= String.length s.
Proof.
  induction s as [|c s IH]; simpl; [lia|].
  destruct (is_ws c); simpl; lia.
Qed.

Lemma next_char_length (s r : string) (c : ascii) :
  next_char s = Some (c, r) -> String.length r < String.length s.
Proof.
  unfold next_char. pose proof (skip_ws_length s) as H.
  destruct (skip_ws s) as [|c' r']; [discriminate|].
  intros E. injection E as _ <-. simpl in H. lia.
Qed.

Lemma parse_chars_length_n (n : nat) :
  forall s v r, String.length s <= n -> parse_chars s = Some (v, r) ->
                String.length r < String.length s.
Proof.
  induction n as [|n IH]; intros s v r Hn H.
  - destruct s; [discriminate | simpl in Hn; lia].
  - destruct s as [|c s]; [discriminate|]. simpl in Hn.
    cbn [parse_chars] in H.
    destruct (Ascii.eqb c dq); [injection H as _ <-; simpl; lia|].
    destruct (Ascii.eqb c bs).
    { destruct s as [|e s]; [discriminate|]. simpl in Hn.
      destruct (Ascii.eqb e "u").
      - destruct s as [|h1 [|h2 [|h3 [|h4 s]]]]; try discriminate.
        simpl in Hn.
        destruct (hex_value h1), (hex_value h2), (hex_value h3), (hex_value h4);
          try discriminate.
        destruct (parse_chars s) as [[v' r']|] eqn:E; [|discriminate].
        injection H as _ <-. apply IH in E; [simpl; lia | lia].
      - destruct (simple_escape e); [|discriminate].
        destruct (parse_chars s) as [[v' r']|] eqn:E; [|discriminate].
        injection H as _ <-. apply IH in E; [simpl; lia | lia]. }
    destruct (Nat.ltb (nat_of_ascii c) 32); [discriminate|].
    destruct (parse_chars s) as [[v' r']|] eqn:E; [|discriminate].
    injection H as _ <-. apply IH in E; [simpl; lia | lia].
Qed.

Lemma parse_chars_length (s v r : string) :
  parse_chars s = Some (v, r) -> String.length r < String.length s.
Proof. apply (parse_chars_length_n (String.length s)). lia. Qed.

Lemma strip_length (p s r : string) :
  strip p s = Some r -> String.length r <= String.length s.
Proof.
  revert s. induction p as [|a p IH]; intros s H.
  - destruct s; simpl in H; injection H as <-; lia.
  - destruct s as [|b s]; [discriminate|]. simpl in H.
    destruct (Ascii.eqb a b); [|discriminate]. apply IH in H. simpl. lia.
Qed.

Lemma span_digits_length (s d r : string) :
  span_digits s = (d, r) -> String.length r <= String.length s.
Proof.
  revert d. induction s as [|c s IH]; intros d H; simpl in H.
  - injection H as _ <-. simpl. lia.
  - destruct (is_digit c).
    + destruct (span_digits s) as [d' r'] eqn:E. injection H as _ <-.
      specialize (IH d' eq_refl). simpl. lia.
    + injection H as _ <-. lia.
Qed.

Lemma parse_sign_length (plus : bool) (s sign r : string) :
  parse_sign plus s = (sign, r) -> String.length r <= String.length s.
Proof.
  destruct s as [|c s]; simpl; intros H.
  - injection H as _ <-. simpl. lia.
  - destruct (Ascii.eqb c "-"); [injection H as _ <-; simpl; lia|].
    destruct (plus && Ascii.eqb c "+"); injection H as _ <-; simpl; lia.
Qed.

Lemma parse_number_length (s n r : string) :
  parse_number s = Some (n, r) -> String.length r < String.length s.
Proof.
  unfold parse_number.
  destruct (parse_sign false s) as [sign s1] eqn:E1.
  apply parse_sign_length in E1.
  destruct (parse_int s1) as [[i s2]|] eqn:E2; [|discriminate].
  assert (H2 : String.length s2 < String.length s1).
  { unfold parse_int in E2. destruct s1 as [|c s1]; [discriminate|].
    destruct (Ascii.eqb c "0"); [injection E2 as _ <-; simpl; lia|].
    destruct (is_digit c) eqn:Hc; [|discriminate].
    simpl in E2. rewrite Hc in E2.
    destruct (span_digits s1) as [d r'] eqn:E. injection E2 as _ <-.
    apply span_digits_length in E. simpl. lia. }
  destruct (parse_frac s2) as [[f s3]|] eqn:E3; [|discriminate].
  assert (H3 : String.length s3 <= String.length s2).
  { unfold parse_frac in E3. destruct s2 as [|c s2];
      [injection E3 as _ <-; lia|].
    destruct (Ascii.eqb c ".").
    - destruct (span_digits s2) as [[|d0 d] r'] eqn:E; [discriminate|].
      injection E3 as _ <-. apply span_digits_length in E. simpl. lia.
    - injection E3 as _ <-. lia. }
  destruct (parse_exp s3) as [[e s4]|] eqn:E4; [|discriminate].
  assert (H4 : String.length s4 <= String.length s3).
  { unfold parse_exp in E4. destruct s3 as [|c s3];
      [injection E4 as _ <-; lia|].
    destruct (Ascii.eqb c "e" || Ascii.eqb c "E").
    - destruct (parse_sign true s3) as [sg s3'] eqn:Es.
      apply parse_sign_length in Es.
      destruct (span_digits s3') as [[|d0 d] r'] eqn:E; [discriminate|].
      injection E4 as _ <-. apply span_digits_length in E. simpl. lia.
    - injection E4 as _ <-. lia. }
  intros H. injection H as _ <-. lia.
Qed.

(** A value that parses leaves less text than it was given. *)
Lemma parse_shrinks (fuel : nat) :
  (forall s v r, parse_value fuel s = POk v r ->
     String.length r < String.length s) /\
  (forall s acc v r, parse_members fuel s acc = POk v r ->
     String.length r < String.length s) /\
  (forall s acc v r, parse_elements fuel s acc = POk v r ->
     String.length r < String.length s).
Proof.
  induction fuel as [|fuel (IHv & IHm & IHe)];
    [repeat split; intros; discriminate|].
  repeat split.
  - intros s v r H. cbn [parse_value] in H.
    destruct (next_char s) as [[c s']|] eqn:En; [|discriminate].
    apply next_char_length in En.
    destruct (Ascii.eqb c dq).
    { destruct (parse_chars s') as [[sv sr]|] eqn:E; [|discriminate].
      injection H as _ <-. apply parse_chars_length in E. lia. }
    destruct (Ascii.eqb c "{").
    { destruct (next_char s') as [[c' r']|] eqn:En'.
      - apply next_char_length in En'. destruct (Ascii.eqb c' "}").
        + injection H as _ <-. lia.
        + apply IHm in H. lia.
      - apply IHm in H. lia. }
    destruct (Ascii.eqb c "[").
    { destruct (next_char s') as [[c' r']|] eqn:En'.
      - apply next_char_length in En'. destruct (Ascii.eqb c' "]").
        + injection H as _ <-. lia.
        + apply IHe in H. lia.
      - apply IHe in H. lia. }
    destruct (Ascii.eqb c "t").
    { destruct (strip "rue" s') as [r'|] eqn:E; [|discriminate].
      injection H as _ <-. apply strip_length in E. lia. }
    destruct (Ascii.eqb c "f").
    { destruct (strip "alse" s') as [r'|] eqn:E; [|discriminate].
      injection H as _ <-. apply strip_length in E. lia. }
    destruct (Ascii.eqb c "n").
    { destruct (strip "ull" s') as [r'|] eqn:E; [|discriminate].
      injection H as _ <-. apply strip_length in E. lia. }
    destruct (parse_number (String c s')) as [[n r']|] eqn:E; [|discriminate].
    injection H as _ <-. apply parse_number_length in E. simpl in E. lia.
  - intros s acc v r H. cbn [parse_members] in H.
    destruct (next_char s) as [[c s1]|] eqn:En; [|discriminate].
    apply next_char_length in En.
    destruct (Ascii.eqb c dq); [|discriminate].
    destruct (parse_chars s1) as [[k s2]|] eqn:Ek; [|discriminate].
    apply parse_chars_length in Ek.
    destruct (next_char s2) as [[c2 s3]|] eqn:En2; [|discriminate].
    apply next_char_length in En2.
    destruct (Ascii.eqb c2 ":"); [|discriminate].
    destruct (parse_value fuel s3) as [v' s4| |] eqn:Ev;
      [|discriminate|discriminate].
    apply IHv in Ev.
    destruct (next_char s4) as [[c4 s5]|] eqn:En4; [|discriminate].
    apply next_char_length in En4.
    destruct (Ascii.eqb c4 ","); [apply IHm in H; lia|].
    destruct (Ascii.eqb c4 "}"); [|discriminate].
    injection H as _ <-. lia.
  - intros s acc v r H. cbn [parse_elements] in H.
    destruct (parse_value fuel s) as [v' s1| |] eqn:Ev;
      [|discriminate|discriminate].
    apply IHv in Ev.
    destruct (next_char s1) as [[c1 s2]|] eqn:En1; [|discriminate].
    apply next_char_length in En1.
    destruct (Ascii.eqb c1 ","); [apply IHe in H; lia|].
    destruct (Ascii.eqb c1 "]"); [|discriminate].
    injection H as _ <-. lia.
Qed.

Lemma parse_fuel_suffices (fuel : nat) :
  (forall s, 2 * String.length s + 2 <= fuel -> parse_value fuel s <> PFuel) /\
  (forall s acc, 2 * String.length s + 1 <= fuel ->
     parse_members fuel s acc <> PFuel) /\
  (forall s acc, 2 * String.length s + 3 <= fuel ->
     parse_elements fuel s acc <> PFuel).
Proof.
  induction fuel as [|fuel (IHv & IHm & IHe)];
    [repeat split; intros; lia|].
  repeat split.
  - intros s Hf. cbn [parse_value].
    destruct (next_char s) as [[c s']|] eqn:En; [|discriminate].
    apply next_char_length in En.
    destruct (Ascii.eqb c dq); [destruct (parse_chars s') as [[? ?]|]; discriminate|].
    destruct (Ascii.eqb c "{").
    { destruct (next_char s') as [[c' r']|];
        [destruct (Ascii.eqb c' "}"); [discriminate|]|]; apply IHm; lia. }
    destruct (Ascii.eqb c "[").
    { destruct (next_char s') as [[c' r']|];
        [destruct (Ascii.eqb c' "]"); [discriminate|]|]; apply IHe; lia. }
    destruct (Ascii.eqb c "t"); [destruct (strip _ _); discriminate|].
    destruct (Ascii.eqb c "f"); [destruct (strip _ _); discriminate|].
    destruct (Ascii.eqb c "n"); [destruct (strip _ _); discriminate|].
    destruct (parse_number _) as [[? ?]|]; discriminate.
  - intros s acc Hf. cbn [parse_members].
    destruct (next_char s) as [[c s1]|] eqn:En; [|discriminate].
    apply next_char_length in En.
    destruct (Ascii.eqb c dq); [|discriminate].
    destruct (parse_chars s1) as [[k s2]|] eqn:Ek; [|discriminate].
    apply parse_chars_length in Ek.
    destruct (next_char s2) as [[c2 s3]|] eqn:En2; [|discriminate].
    apply next_char_length in En2.
    destruct (Ascii.eqb c2 ":"); [|discriminate].
    destruct (parse_value fuel s3) as [v' s4| |] eqn:Ev; [|discriminate|].
    + apply (proj1 (parse_shrinks fuel)) in Ev.
      destruct (next_char s4) as [[c4 s5]|] eqn:En4; [|discriminate].
      apply next_char_length in En4.
      destruct (Ascii.eqb c4 ","); [apply IHm; lia|].
      destruct (Ascii.eqb c4 "}"); discriminate.
    + exfalso. revert Ev. apply IHv. lia.
  - intros s acc Hf. cbn [parse_elements].
    destruct (parse_value fuel s) as [v' s1| |] eqn:Ev; [|discriminate|].
    + apply (proj1 (parse_shrinks fuel)) in Ev.
      destruct (next_char s1) as [[c1 s2]|] eqn:En1; [|discriminate].
      apply next_char_length in En1.
      destruct (Ascii.eqb c1 ","); [apply IHe; lia|].
      destruct (Ascii.eqb c1 "]"); discriminate.
    + exfalso. revert Ev. apply IHv. lia.
Qed.

(** [parse] never runs out of fuel: it throws only on a text that is
    not JSON. *)
Lemma parse_value_has_fuel (text : string) :
  parse_value (parse_fuel text) text <> PFuel.
Proof. apply (proj1 (parse_fuel_suffices _)). unfold parse_fuel. lia. Qed.

(** ** Parsing the two templates *)

Lemma length_append (a b : string) :
  String.length (a +:+ b) = String.length a + String.length b.
Proof. induction a as [|c a IH]; simpl; [reflexivity | rewrite IH; reflexivity]. Qed.

Ltac mono_case H :=
  match type of H with
  | context [match ?x with _ => _ end] =>
      lazymatch x with
      | context [parse_value] => fail
      | context [parse_members] => fail
      | context [parse_elements] => fail
      | _ => destruct x eqn:?; try discriminate H
      end
  end.

Lemma parse_mono (n : nat) :
  (forall m s v r, n <= m ->
     parse_value n s = POk v r -> parse_value m s = POk v r) /\
  (forall m s acc v r, n <= m ->
     parse_members n s acc = POk v r -> parse_members m s acc = POk v r) /\
  (forall m s acc v r, n <= m ->
     parse_elements n s acc = POk v r -> parse_elements m s acc = POk v r).
Proof.
  induction n as [|n (IHv & IHm & IHe)].
  - repeat split; intros; discriminate.
  - repeat split.
    + intros [|m] s v r Hle H; [lia|]. assert (Hle' : n <= m) by lia.
      cbn [parse_value] in H |- *.
      repeat mono_case H; try exact H; first [apply IHm | apply IHe]; assumption.
    + intros [|m] s acc v r Hle H; [lia|]. assert (Hle' : n <= m) by lia.
      cbn [parse_members] in H |- *.
      repeat mono_case H.
      all: destruct (parse_value n _) eqn:E in H; try discriminate H.
      all: rewrite (IHv _ _ _ _ Hle' E).
      all: repeat mono_case H; try exact H; apply IHm; assumption.
    + intros [|m] s acc v r Hle H; [lia|]. assert (Hle' : n <= m) by lia.
      cbn [parse_elements] in H |- *.
      destruct (parse_value n s) eqn:E in H; try discriminate H.
      rewrite (IHv _ _ _ _ Hle' E).
      repeat mono_case H; try exact H; apply IHe; assumption.
Qed.

Lemma parse_fuel_enough (a b : string) :
  5 <= String.length a -> 12 <= parse_fuel (a +:+ b).
Proof. intros H. unfold parse_fuel. rewrite length_append. lia. Qed.

Lemma parse_of_parse_value (msg text : string) (v : json) (rest : string) :
  12 <= parse_fuel text ->
  parse_value 12 text = POk v rest ->
  skip_ws rest = EmptyString ->
  parse msg text = Return v.
Proof.
  intros Hf Hv Hr. unfold parse.
  rewrite (proj1 (parse_mono 12) _ _ _ _ Hf Hv), Hr. reflexivity.
Qed.

(** *** The parser, token by token *)

Lemma skip_ws_app (w r : string) :
  all_ws w = true -> skip_ws (w +:+ r) = skip_ws r.
Proof.
  induction w as [|c w IH]; simpl; [reflexivity|].
  rewrite andb_true_iff. intros [Hc Hw]. rewrite Hc. exact (IH Hw).
Qed.

Lemma skip_ws_tok (w : string) (c : ascii) (r : string) :
  all_ws w = true -> is_ws c = false -> skip_ws (tok w c r) = String c r.
Proof.
  intros Hw Hc. unfold tok. rewrite (skip_ws_app _ _ Hw). simpl.
  rewrite Hc. reflexivity.
Qed.

Lemma next_char_tok (w : string) (c : ascii) (r : string) :
  all_ws w = true -> is_ws c = false -> next_char (tok w c r) = Some (c, r).
Proof.
  intros Hw Hc. unfold next_char. rewrite (skip_ws_tok w c r Hw Hc).
  reflexivity.
Qed.

Lemma next_char_str (w s r : string) :
  all_ws w = true ->
  next_char (str w s r) = Some (dq, s +:+ String dq r).
Proof. intros Hw. apply (next_char_tok w dq _ Hw). reflexivity. Qed.

Lemma parse_value_str (f : nat) (w s r : string) :
  all_ws w = true -> plain s = true ->
  parse_value (S f) (str w s r) = POk (JsStr s) r.
Proof.
  intros Hw Hs. cbn [parse_value]. rewrite (next_char_str w s r Hw).
  rewrite Ascii.eqb_refl, (parse_chars_plain s r Hs). reflexivity.
Qed.

Lemma parse_value_escaped (f : nat) (w p r : string) :
  all_ws w = true -> quotable p = true ->
  parse_value (S f) (str w (escapeDoubleQuote p) r) = POk (JsStr p) r.
Proof.
  intros Hw Hp. cbn [parse_value]. rewrite (next_char_str w _ r Hw).
  rewrite Ascii.eqb_refl, (parse_chars_escaped p r Hp). reflexivity.
Qed.

Lemma parse_value_object (f : nat) (w w1 k r : string) :
  all_ws w = true -> all_ws w1 = true ->
  parse_value (S f) (tok w "{" (str w1 k r)) = parse_members f (str w1 k r) [].
Proof.
  intros Hw Hw1. cbn [parse_value].
  rewrite (next_char_tok w "{" _ Hw eq_refl), (next_char_str w1 k r Hw1).
  reflexivity.
Qed.

Lemma parse_value_array (f : nat) (w w1 k r : string) :
  all_ws w = true -> all_ws w1 = true ->
  parse_value (S f) (tok w "[" (str w1 k r)) = parse_elements f (str w1 k r) [].
Proof.
  intros Hw Hw1. cbn [parse_value].
  rewrite (next_char_tok w "[" _ Hw eq_refl), (next_char_str w1 k r Hw1).
  reflexivity.
Qed.

Lemma parse_members_next (f : nat) (w1 k w2 s3 w4 s5 : string)
    (acc : list (string * json)) (v : json) :
  all_ws w1 = true -> plain k = true -> all_ws w2 = true ->
  parse_value f s3 = POk v (tok w4 "," s5) ->
  all_ws w4 = true ->
  parse_members (S f) (str w1 k (tok w2 ":" s3)) acc
  = parse_members f s5 (obj_set k v acc).
Proof.
  intros Hw1 Hk Hw2 Hv Hw4. cbn [parse_members].
  rewrite (next_char_str w1 k _ Hw1).
  rewrite Ascii.eqb_refl, (parse_chars_plain k _ Hk).
  rewrite (next_char_tok w2 ":" _ Hw2 eq_refl), Hv.
  rewrite (next_char_tok w4 "," _ Hw4 eq_refl). reflexivity.
Qed.

Lemma parse_members_last (f : nat) (w1 k w2 s3 w4 s5 : string)
    (acc : list (string * json)) (v : json) :
  all_ws w1 = true -> plain k = true -> all_ws w2 = true ->
  parse_value f s3 = POk v (tok w4 "}" s5) ->
  all_ws w4 = true ->
  parse_members (S f) (str w1 k (tok w2 ":" s3)) acc
  = POk (JsObj (obj_set k v acc)) s5.
Proof.
  intros Hw1 Hk Hw2 Hv Hw4. cbn [parse_members].
  rewrite (next_char_str w1 k _ Hw1).
  rewrite Ascii.eqb_refl, (parse_chars_plain k _ Hk).
  rewrite (next_char_tok w2 ":" _ Hw2 eq_refl), Hv.
  rewrite (next_char_tok w4 "}" _ Hw4 eq_refl). reflexivity.
Qed.

Lemma parse_elements_next (f : nat) (s w1 s2 : string) (acc : list json)
    (v : json) :
  parse_value f s = POk v (tok w1 "," s2) ->
  all_ws w1 = true ->
  parse_elements (S f) s acc = parse_elements f s2 (acc ++ [v]).
Proof.
  intros Hv Hw1. cbn [parse_elements].
  rewrite Hv, (next_char_tok w1 "," _ Hw1 eq_refl). reflexivity.
Qed.

Lemma parse_elements_last (f : nat) (s w1 s2 : string) (acc : list json)
    (v : json) :
  parse_value f s = POk v (tok w1 "]" s2) ->
  all_ws w1 = true ->
  parse_elements (S f) s acc = POk (JsArr (acc ++ [v])) s2.
Proof.
  intros Hv Hw1. cbn [parse_elements].
  rewrite Hv, (next_char_tok w1 "]" _ Hw1 eq_refl). reflexivity.
Qed.

Ltac side := first [assumption | reflexivity].

Lemma parse_value_getAttArray (f : nat) (id r : string) :
  plain id = true ->
  parse_value (S (S (S (S f)))) (getAttArray id r)
  = POk (JsArr [JsStr id; JsStr "Arn"]) r.
Proof.
  intros Hid. unfold getAttArray.
  rewrite parse_value_array by side.
  eapply eq_trans;
    [eapply parse_elements_next; [apply parse_value_str; side | side]|].
  eapply eq_trans;
    [eapply parse_elements_last; [apply parse_value_str; side | side]|].
  reflexivity.
Qed.

Lemma parse_value_getAtt (f : nat) (w id r : string) :
  all_ws w = true -> plain id = true ->
  parse_value (S (S (S (S (S (S f)))))) (getAttText w id r)
  = POk (JsObj [("Fn::GetAtt", JsArr [JsStr id; JsStr "Arn"])]) r.
Proof.
  intros Hw Hid. unfold getAttText.
  rewrite parse_value_object by side.
  eapply eq_trans;
    [eapply parse_members_last;
       [side | side | side | apply parse_value_getAttArray; side | side]|].
  reflexivity.
Qed.

Lemma subscriptionFilterTemplate_tokens (L P ID STG G : string) :
  subscriptionFilterTemplate L P ID STG G = subscriptionFilterTokens L P ID STG G.
Proof.
  unfold subscriptionFilterTemplate. rewrite !q_append. reflexivity.
Qed.

Lemma permissionTemplate_tokens (L region A : string) :
  permissionTemplate L region A = permissionTokens L region A.
Proof.
  unfold permissionTemplate. rewrite !q_append. reflexivity.
Qed.

Ltac next_member tac :=
  eapply eq_trans;
    [eapply parse_members_next; [side | side | side | tac | side]|].

Ltac last_member tac :=
  eapply eq_trans;
    [eapply parse_members_last; [side | side | side | tac | side]|].

Lemma parse_value_subscriptionFilterProperties (L P ID STG G r : string) :
  plain L = true -> plain ID = true -> plain STG = true -> plain G = true ->
  quotable P = true ->
  parse_value 9 (subscriptionFilterProperties L (escapeDoubleQuote P) ID STG G r)
  = POk (JsObj
           [("DestinationArn",
             JsObj [("Fn::GetAtt", JsArr [JsStr L; JsStr "Arn"])]);
            ("FilterPattern", JsStr P);
            ("FilterName", JsStr (ID +:+ "-" +:+ STG));
            ("LogGroupName", JsStr G)]) r.
Proof.
  intros HL HID HSTG HG HP.
  assert (HN : plain (ID +:+ "-" +:+ STG) = true).
  { rewrite !plain_app, HID, HSTG. reflexivity. }
  unfold subscriptionFilterProperties.
  rewrite parse_value_object by side.
  next_member ltac:(apply parse_value_getAtt; side).
  next_member ltac:(apply parse_value_escaped; side).
  next_member ltac:(apply parse_value_str; side).
  last_member ltac:(apply parse_value_str; side).
  reflexivity.
Qed.

Lemma parse_value_subscriptionFilterTemplate (L P ID STG G : string) :
  plain L = true -> plain ID = true -> plain STG = true -> plain G = true ->
  quotable P = true ->
  parse_value 12
    (subscriptionFilterTemplate L (escapeDoubleQuote P) ID STG G)
  = POk (subscriptionFilterResource L P ID STG G) (nl +:+ "      ").
Proof.
  intros HL HID HSTG HG HP.
  rewrite subscriptionFilterTemplate_tokens. unfold subscriptionFilterTokens.
  rewrite parse_value_object by side.
  next_member ltac:(apply parse_value_str; side).
  next_member ltac:(apply parse_value_subscriptionFilterProperties; side).
  last_member ltac:(apply parse_value_str; side).
  reflexivity.
Qed.

Lemma parse_value_permissionProperties (L principal A r : string) :
  plain L = true -> plain principal = true -> plain A = true ->
  parse_value 9 (permissionProperties L principal A r)
  = POk (JsObj
           [("FunctionName",
             JsObj [("Fn::GetAtt", JsArr [JsStr L; JsStr "Arn"])]);
            ("Action", JsStr "lambda:InvokeFunction");
            ("Principal", JsStr principal);
            ("SourceArn", JsStr A)]) r.
Proof.
  intros HL HN HA.
  unfold permissionProperties.
  rewrite parse_value_object by side.
  next_member ltac:(apply parse_value_getAtt; side).
  next_member ltac:(apply parse_value_str; side).
  next_member ltac:(apply parse_value_str; side).
  last_member ltac:(apply parse_value_str; side).
  reflexivity.
Qed.

Lemma parse_value_permissionTemplate (L region A : string) :
  plain L = true -> plain region = true -> plain A = true ->
  parse_value 12 (permissionTemplate L region A)
  = POk (permissionResource L region A) (nl +:+ "      ").
Proof.
  intros HL HR HA.
  assert (HN : plain ("logs." +:+ region +:+ ".amazonaws.com") = true).
  { rewrite !plain_app, HR. reflexivity. }
  rewrite permissionTemplate_tokens. unfold permissionTokens.
  rewrite parse_value_object by side.
  next_member ltac:(apply parse_value_str; side).
  last_member ltac:(apply parse_value_permissionProperties; side).
  reflexivity.
Qed.

Lemma parse_subscriptionFilterTemplate (msg L P ID STG G : string) :
  plain L = true -> plain ID = true -> plain STG = true -> plain G = true ->
  quotable P = true ->
  parse msg (subscriptionFilterTemplate L (escapeDoubleQuote P) ID STG G)
  = Return (subscriptionFilterResource L P ID STG G).
Proof.
  intros HL HID HSTG HG HP.
  apply (parse_of_parse_value _ _ _ (nl +:+ "      ")).
  - unfold subscriptionFilterTemplate.
    rewrite <- append_assoc. apply parse_fuel_enough. simpl. lia.
  - apply parse_value_subscriptionFilterTemplate; assumption.
  - reflexivity.
Qed.

Lemma parse_permissionTemplate (msg L region A : string) :
  plain L = true -> plain region = true -> plain A = true ->
  parse msg (permissionTemplate L region A)
  = Return (permissionResource L region A).
Proof.
  intros HL HR HA.
  apply (parse_of_parse_value _ _ _ (nl +:+ "      ")).
  - unfold permissionTemplate.
    rewrite <- append_assoc. apply parse_fuel_enough. simpl. lia.
  - apply parse_value_permissionTemplate; assumption.
  - reflexivity.
Qed.

(** ** The builders *)

Lemma compileSubscriptionFilter_key (hst : host) (setting : settingObj)
    (functionName : string) (index : nat) (fragment : string * json) :
  compileSubscriptionFilter hst setting functionName index = Resolved fragment ->
  fst fragment =
    getSubscriptionFilterLogicalId hst functionName
      (to_string (logGroupName setting)) index.
Proof.
  unfold compileSubscriptionFilter.
  destruct (parse _ _); simpl; intros H; [injection H as <-; reflexivity|].
  discriminate.
Qed.

Lemma compilePermission_key (hst : host) (setting : settingObj)
    (functionName logGroupArn : string) (index : nat)
    (fragment : string * json) :
  compilePermission hst setting functionName logGroupArn index
    = Resolved fragment ->
  fst fragment =
    getLambdaPermissionLogicalId hst functionName
      (to_string (logGroupName setting)) index.
Proof.
  unfold compilePermission.
  destruct (parse _ _); simpl; intros H; [injection H as <-; reflexivity|].
  discriminate.
Qed.

Lemma compileSubscriptionFilter_plain (hst : host) (setting : settingObj)
    (functionName : string) (index : nat) :
  plain (getLambdaLogicalId hst functionName) = true ->
  plain (getLambdaPermissionLogicalId hst functionName
           (to_string (logGroupName setting)) index) = true ->
  plain (to_string (stage setting)) = true ->
  plain (to_string (logGroupName setting)) = true ->
  quotable (to_string (filterPattern setting)) = true ->
  compileSubscriptionFilter hst setting functionName index =
  Resolved
    (getSubscriptionFilterLogicalId hst functionName
       (to_string (logGroupName setting)) index,
     subscriptionFilterResource (getLambdaLogicalId hst functionName)
       (to_string (filterPattern setting))
       (getLambdaPermissionLogicalId hst functionName
          (to_string (logGroupName setting)) index)
       (to_string (stage setting)) (to_string (logGroupName setting))).
Proof.
  intros HL HID HS HG HP. unfold compileSubscriptionFilter.
  rewrite parse_subscriptionFilterTemplate by assumption. reflexivity.
Qed.

Lemma compilePermission_plain (hst : host) (setting : settingObj)
    (functionName logGroupArn : string) (index : nat) :
  plain (getLambdaLogicalId hst functionName) = true ->
  plain (getRegion hst) = true ->
  plain logGroupArn = true ->
  compilePermission hst setting functionName logGroupArn index =
  Resolved
    (getLambdaPermissionLogicalId hst functionName
       (to_string (logGroupName setting)) index,
     permissionResource (getLambdaLogicalId hst functionName)
       (getRegion hst) logGroupArn).
Proof.
  intros HL HR HA. unfold compilePermission.
  rewrite parse_permissionTemplate by assumption. reflexivity.
Qed.

(** ** The end of the template decides [DependsOn]

    Whatever is interpolated before it, a text that ends with
    [closing id] and parses is an object whose [DependsOn] is [id]. *)

Lemma before_refl (t : string) : before t t.
Proof. exists EmptyString. reflexivity. Qed.

Lemma before_cons (t s : string) (c : ascii) :
  before t s -> before t (String c s).
Proof. intros [x ->]. exists (String c x). reflexivity. Qed.

Lemma before_append (t s w : string) : before t s -> before t (w +:+ s).
Proof.
  intros H. induction w as [|c w IH]; simpl; [exact H|].
  apply before_cons. exact IH.
Qed.

Lemma before_tok (t w r : string) (c : ascii) :
  before t r -> before t (tok w c r).
Proof. intros H. unfold tok. apply before_append, before_cons. exact H. Qed.

Lemma before_str (t w s r : string) : before t r -> before t (str w s r).
Proof.
  intros H. unfold str.
  apply before_append, before_cons, before_append, before_cons. exact H.
Qed.

Lemma before_inv (t s : string) :
  before t s -> s = t \/ exists c s', s = String c s' /\ before t s'.
Proof.
  intros [[|c x] ->]; [left; reflexivity | right].
  exists c, (x +:+ t). split; [reflexivity|]. exists x. reflexivity.
Qed.

Lemma next_char_before (id s : string) :
  before (closing id) s ->
  next_char s = Some (dq, afterLogGroup id) \/
  exists c s', next_char s = Some (c, s') /\ before (closing id) s'.
Proof.
  intros [x ->]. unfold next_char.
  induction x as [|c x IH]; [left; reflexivity|].
  simpl. destruct (is_ws c); [exact IH|].
  right. exists c, (x +:+ closing id). split; [reflexivity|].
  exists x. reflexivity.
Qed.

Lemma parse_chars_afterLogGroup (id : string) :
  parse_chars (afterLogGroup id) = None.
Proof. reflexivity. Qed.

Lemma parse_chars_before_n (id : string) (n : nat) :
  forall x v r,
    String.length x <= n ->
    parse_chars (x +:+ closing id) = Some (v, r) ->
    before (closing id) r \/ r = afterLogGroup id.
Proof.
  induction n as [|n IH]; intros x v r Hlen H.
  - destruct x; [|simpl in Hlen; lia]. simpl in H. injection H as _ <-.
    right. reflexivity.
  - destruct x as [|c x]; [simpl in H; injection H as _ <-; right; reflexivity|].
    simpl in Hlen.
    change (String c x +:+ closing id) with (String c (x +:+ closing id)) in H.
    cbn [parse_chars] in H.
    destruct (Ascii.eqb c dq).
    { injection H as _ <-. left. exists x. reflexivity. }
    destruct (Ascii.eqb c bs).
    { destruct x as [|e x]; [simpl in H; discriminate|].
      simpl in Hlen.
      change (String e x +:+ closing id) with (String e (x +:+ closing id)) in H.
      cbn iota in H.
      destruct (Ascii.eqb e "u").
      - destruct x as [|h1 [|h2 [|h3 [|h4 x]]]];
          try (simpl in H; repeat (destruct (hex_value _) in H);
               discriminate H).
        simpl in Hlen.
        change (String h1 (String h2 (String h3 (String h4 x))) +:+ closing id)
          with (String h1 (String h2 (String h3 (String h4 (x +:+ closing id)))))
          in H.
        cbn iota in H.
        destruct (hex_value h1), (hex_value h2), (hex_value h3), (hex_value h4);
          try discriminate H.
        destruct (parse_chars (x +:+ closing id)) as [[v' r']|] eqn:E;
          [|discriminate H].
        injection H as _ <-. apply (IH x v' r'); [lia | exact E].
      - destruct (simple_escape e); [|discriminate H].
        destruct (parse_chars (x +:+ closing id)) as [[v' r']|] eqn:E;
          [|discriminate H].
        injection H as _ <-. apply (IH x v' r'); [lia | exact E]. }
    destruct (Nat.ltb (nat_of_ascii c) 32); [discriminate H|].
    destruct (parse_chars (x +:+ closing id)) as [[v' r']|] eqn:E;
      [|discriminate H].
    injection H as _ <-. apply (IH x v' r'); [lia | exact E].
Qed.

Lemma parse_chars_before (id s v r : string) :
  before (closing id) s ->
  parse_chars s = Some (v, r) ->
  before (closing id) r \/ r = afterLogGroup id.
Proof.
  intros [x ->]. apply (parse_chars_before_n id (String.length x) x). lia.
Qed.

Lemma plain_char_not_quote (a : ascii) :
  plain_char a = true -> Ascii.eqb a dq = false.
Proof.
  unfold plain_char. rewrite !andb_true_iff, !negb_true_iff. tauto.
Qed.

Lemma strip_before (id p : string) :
  plain p = true ->
  forall s r, before (closing id) s -> strip p s = Some r ->
              before (closing id) r.
Proof.
  induction p as [|a p IH]; intros Hp s r Hs H.
  - destruct s; simpl in H; injection H as <-; exact Hs.
  - simpl in Hp. apply andb_true_iff in Hp as [Ha Hp].
    apply before_inv in Hs as [->|(c & s' & -> & Hs')].
    + simpl in H. rewrite (plain_char_not_quote a Ha) in H. discriminate.
    + simpl in H. destruct (Ascii.eqb a c); [|discriminate].
      exact (IH Hp s' r Hs' H).
Qed.

Lemma span_digits_before (id s d r : string) :
  before (closing id) s -> span_digits s = (d, r) -> before (closing id) r.
Proof.
  intros [x ->]. revert d.
  induction x as [|c x IH]; intros d H.
  - simpl in H. injection H as _ <-. apply before_refl.
  - change (String c x +:+ closing id) with (String c (x +:+ closing id)) in H.
    cbn [span_digits] in H. destruct (is_digit c).
    + destruct (span_digits (x +:+ closing id)) as [d' r'] eqn:E.
      injection H as _ <-. exact (IH d' eq_refl).
    + injection H as _ <-. apply before_cons. exists x. reflexivity.
Qed.

Lemma parse_sign_before (id : string) (plus : bool) (s sign r : string) :
  before (closing id) s -> parse_sign plus s = (sign, r) ->
  before (closing id) r.
Proof.
  intros Hs H. pose proof Hs as Hs0.
  apply before_inv in Hs as [->|(c & s' & -> & Hs')].
  - simpl in H. rewrite andb_false_r in H. injection H as _ <-. exact Hs0.
  - simpl in H. destruct (Ascii.eqb c "-"); [injection H as _ <-; exact Hs'|].
    destruct (plus && Ascii.eqb c "+"); injection H as _ <-; assumption.
Qed.

Lemma parse_int_before (id s i r : string) :
  before (closing id) s -> parse_int s = Some (i, r) -> before (closing id) r.
Proof.
  intros Hs H. pose proof Hs as Hs0.
  apply before_inv in Hs as [->|(c & s' & -> & Hs')]; [discriminate H|].
  unfold parse_int in H. destruct (Ascii.eqb c "0").
  - injection H as _ <-. exact Hs'.
  - destruct (is_digit c); [|discriminate H].
    destruct (span_digits (String c s')) as [d r'] eqn:E.
    injection H as _ <-. exact (span_digits_before _ _ _ _ Hs0 E).
Qed.

Lemma parse_frac_before (id s f r : string) :
  before (closing id) s -> parse_frac s = Some (f, r) -> before (closing id) r.
Proof.
  intros Hs H. pose proof Hs as Hs0.
  apply before_inv in Hs as [->|(c & s' & -> & Hs')].
  - simpl in H. injection H as _ <-. exact Hs0.
  - unfold parse_frac in H. destruct (Ascii.eqb c ".").
    + destruct (span_digits s') as [[|d0 d] r'] eqn:E; [discriminate H|].
      injection H as _ <-. exact (span_digits_before _ _ _ _ Hs' E).
    + injection H as _ <-. exact Hs0.
Qed.

Lemma parse_exp_before (id s e r : string) :
  before (closing id) s -> parse_exp s = Some (e, r) -> before (closing id) r.
Proof.
  intros Hs H. pose proof Hs as Hs0.
  apply before_inv in Hs as [->|(c & s' & -> & Hs')].
  - simpl in H. injection H as _ <-. exact Hs0.
  - unfold parse_exp in H. destruct (Ascii.eqb c "e" || Ascii.eqb c "E").
    + destruct (parse_sign true s') as [sign s''] eqn:Es.
      pose proof (parse_sign_before _ _ _ _ _ Hs' Es) as Hs''.
      destruct (span_digits s'') as [[|d0 d] r'] eqn:E; [discriminate H|].
      injection H as _ <-. exact (span_digits_before _ _ _ _ Hs'' E).
    + injection H as _ <-. exact Hs0.
Qed.

Lemma parse_number_before (id s n r : string) :
  before (closing id) s -> parse_number s = Some (n, r) ->
  before (closing id) r.
Proof.
  intros Hs H. unfold parse_number in H.
  destruct (parse_sign false s) as [sign s1] eqn:E1.
  pose proof (parse_sign_before _ _ _ _ _ Hs E1) as H1.
  destruct (parse_int s1) as [[i s2]|] eqn:E2; [|discriminate H].
  pose proof (parse_int_before _ _ _ _ H1 E2) as H2.
  destruct (parse_frac s2) as [[f s3]|] eqn:E3; [|discriminate H].
  pose proof (parse_frac_before _ _ _ _ H2 E3) as H3.
  destruct (parse_exp s3) as [[e s4]|] eqn:E4; [|discriminate H].
  injection H as _ <-. exact (parse_exp_before _ _ _ _ H3 E4).
Qed.

Lemma next_char_afterLogGroup (id : string) :
  next_char (afterLogGroup id) = Some ("}"%char, afterProperties id).
Proof. reflexivity. Qed.

Lemma next_char_afterProperties (id : string) :
  next_char (afterProperties id) = Some (","%char, dependsOnMember id).
Proof. reflexivity. Qed.

Lemma next_char_templateEnd : next_char templateEnd = None.
Proof. reflexivity. Qed.

Lemma obj_get_set (k : string) (v : json) (o : list (string * json)) :
  obj_get k (obj_set k v o) = Some v.
Proof.
  induction o as [|[k' v'] o IH]; simpl.
  - rewrite String.eqb_refl. reflexivity.
  - destruct (String.eqb k k') eqn:E; simpl; rewrite E; [reflexivity | exact IH].
Qed.

Lemma parse_members_dependsOn (f : nat) (id : string)
    (acc : list (string * json)) :
  plain id = true ->
  parse_members (S (S f)) (dependsOnMember id) acc
  = POk (JsObj (obj_set "DependsOn" (JsStr id) acc)) templateEnd.
Proof.
  intros Hid. unfold dependsOnMember.
  eapply parse_members_last;
    [side | side | side | apply parse_value_str; side | side].
Qed.

Lemma parse_members_dependsOn_ends (fuel : nat) (id : string)
    (acc : list (string * json)) (v : json) (r : string) :
  plain id = true ->
  parse_members fuel (dependsOnMember id) acc = POk v r ->
  ends id v r.
Proof.
  intros Hid H. destruct fuel as [|[|f]]; [discriminate H | discriminate H |].
  rewrite (parse_members_dependsOn f id acc Hid) in H.
  injection H as <- <-. right. right. right. split; [reflexivity|].
  simpl. apply obj_get_set.
Qed.

Lemma parse_elements_dependsOn (fuel : nat) (id : string) (acc : list json)
    (v : json) (r : string) :
  parse_elements fuel (dependsOnMember id) acc <> POk v r.
Proof.
  destruct fuel as [|[|f]]; [discriminate | discriminate |].
  cbn [parse_elements]. unfold dependsOnMember.
  rewrite (parse_value_str f W10 "DependsOn" _ eq_refl eq_refl).
  rewrite (next_char_tok "" ":" _ eq_refl eq_refl). discriminate.
Qed.

Lemma parse_ends (id : string) (Hid : plain id = true) (fuel : nat) :
  (forall s v r, before (closing id) s ->
     parse_value fuel s = POk v r -> ends id v r) /\
  (forall s acc v r, before (closing id) s ->
     parse_members fuel s acc = POk v r -> ends id v r) /\
  (forall s acc v r, before (closing id) s ->
     parse_elements fuel s acc = POk v r -> before (closing id) r).
Proof.
  induction fuel as [|fuel (IHv & IHm & IHe)];
    [repeat split; intros; discriminate|].
  repeat split.
  - (* a value *)
    intros s v r Hs H. cbn [parse_value] in H.
    destruct (next_char_before id s Hs) as [Hn|(c & s' & Hn & Hs')];
      rewrite Hn in H.
    { rewrite Ascii.eqb_refl, parse_chars_afterLogGroup in H. discriminate. }
    destruct (Ascii.eqb c dq).
    { destruct (parse_chars s') as [[sv sr]|] eqn:E; [|discriminate].
      injection H as <- <-.
      destruct (parse_chars_before _ _ _ _ Hs' E) as [Hb| ->];
        [left; exact Hb | right; left; reflexivity]. }
    destruct (Ascii.eqb c "{").
    { destruct (next_char_before id s' Hs') as [Hn'|(c' & r' & Hn' & Hr')];
        rewrite Hn' in H.
      - change (Ascii.eqb dq "}") with false in H. exact (IHm _ _ _ _ Hs' H).
      - destruct (Ascii.eqb c' "}"); [|exact (IHm _ _ _ _ Hs' H)].
        injection H as <- <-. left. exact Hr'. }
    destruct (Ascii.eqb c "[").
    { destruct (next_char_before id s' Hs') as [Hn'|(c' & r' & Hn' & Hr')];
        rewrite Hn' in H.
      - change (Ascii.eqb dq "]") with false in H.
        left. exact (IHe _ _ _ _ Hs' H).
      - destruct (Ascii.eqb c' "]"); [|left; exact (IHe _ _ _ _ Hs' H)].
        injection H as <- <-. left. exact Hr'. }
    destruct (Ascii.eqb c "t").
    { destruct (strip "rue" s') as [r'|] eqn:E; [|discriminate].
      injection H as <- <-. left.
      exact (strip_before id "rue" eq_refl _ _ Hs' E). }
    destruct (Ascii.eqb c "f").
    { destruct (strip "alse" s') as [r'|] eqn:E; [|discriminate].
      injection H as <- <-. left.
      exact (strip_before id "alse" eq_refl _ _ Hs' E). }
    destruct (Ascii.eqb c "n").
    { destruct (strip "ull" s') as [r'|] eqn:E; [|discriminate].
      injection H as <- <-. left.
      exact (strip_before id "ull" eq_refl _ _ Hs' E). }
    destruct (parse_number (String c s')) as [[n r']|] eqn:E; [|discriminate].
    injection H as <- <-. left.
    exact (parse_number_before id _ _ _ (before_cons _ _ c Hs') E).
  - (* the members of an object *)
    intros s acc v r Hs H. cbn [parse_members] in H.
    destruct (next_char_before id s Hs) as [Hn|(c & s1 & Hn & Hs1)];
      rewrite Hn in H.
    { rewrite Ascii.eqb_refl, parse_chars_afterLogGroup in H. discriminate. }
    destruct (Ascii.eqb c dq); [|discriminate].
    destruct (parse_chars s1) as [[k s2]|] eqn:Ek; [|discriminate].
    destruct (parse_chars_before _ _ _ _ Hs1 Ek) as [Hs2| ->];
      [|rewrite next_char_afterLogGroup in H; discriminate].
    destruct (next_char_before id s2 Hs2) as [Hn2|(c2 & s3 & Hn2 & Hs3)];
      rewrite Hn2 in H; [discriminate|].
    destruct (Ascii.eqb c2 ":"); [|discriminate].
    destruct (parse_value fuel s3) as [v' s4| |] eqn:Ev;
      [|discriminate|discriminate].
    destruct (IHv _ _ _ Hs3 Ev) as [Hs4|[->|[->|[-> _]]]].
    + destruct (next_char_before id s4 Hs4) as [Hn4|(c4 & s5 & Hn4 & Hs5)];
        rewrite Hn4 in H; [discriminate|].
      destruct (Ascii.eqb c4 ","); [exact (IHm _ _ _ _ Hs5 H)|].
      destruct (Ascii.eqb c4 "}"); [|discriminate].
      injection H as <- <-. left. exact Hs5.
    + rewrite next_char_afterLogGroup in H.
      change (Ascii.eqb "}" ",") with false in H.
      change (Ascii.eqb "}" "}") with true in H.
      injection H as <- <-. right. right. left. reflexivity.
    + rewrite next_char_afterProperties in H.
      change (Ascii.eqb "," ",") with true in H.
      exact (parse_members_dependsOn_ends _ _ _ _ _ Hid H).
    + rewrite next_char_templateEnd in H. discriminate.
  - (* the elements of an array *)
    intros s acc v r Hs H. cbn [parse_elements] in H.
    destruct (parse_value fuel s) as [v' s1| |] eqn:Ev;
      [|discriminate|discriminate].
    destruct (IHv _ _ _ Hs Ev) as [Hs1|[->|[->|[-> _]]]].
    + destruct (next_char_before id s1 Hs1) as [Hn1|(c1 & s2 & Hn1 & Hs2)];
        rewrite Hn1 in H; [discriminate|].
      destruct (Ascii.eqb c1 ","); [exact (IHe _ _ _ _ Hs2 H)|].
      destruct (Ascii.eqb c1 "]"); [|discriminate].
      injection H as <- <-. exact Hs2.
    + rewrite next_char_afterLogGroup in H. discriminate.
    + rewrite next_char_afterProperties in H.
      change (Ascii.eqb "," ",") with true in H.
      exfalso. exact (parse_elements_dependsOn _ _ _ _ _ H).
    + rewrite next_char_templateEnd in H. discriminate.
Qed.

Lemma before_subscriptionFilterTemplate (L P ID STG G : string) :
  before (closing ID) (subscriptionFilterTemplate L P ID STG G).
Proof.
  rewrite subscriptionFilterTemplate_tokens.
  unfold subscriptionFilterTokens, subscriptionFilterProperties, getAttText,
    getAttArray.
  repeat lazymatch goal with
         | |- before _ (str " " G _) => fail
         | |- before _ (str _ _ _) => apply before_str
         | |- before _ (tok _ _ _) => apply before_tok
         end.
  exists (" " +:+ String dq G). reflexivity.
Qed.

Lemma parse_closing (msg id text : string) (v : json) :
  plain id = true ->
  before (closing id) text ->
  parse msg text = Return v ->
  get "DependsOn" v = Some (JsStr id).
Proof.
  intros Hid Hb H. unfold parse in H.
  destruct (parse_value (parse_fuel text) text) as [v' rest| |] eqn:Ev;
    [|discriminate|discriminate].
  destruct (skip_ws rest) eqn:Er; [|discriminate]. injection H as <-.
  assert (Hn : next_char rest = None) by (unfold next_char; rewrite Er; reflexivity).
  destruct (proj1 (parse_ends id Hid _) _ _ _ Hb Ev) as [Hr|[->|[->|[_ Hd]]]].
  - destruct (next_char_before id rest Hr) as [Hc|(c & s' & Hc & _)];
      rewrite Hc in Hn; discriminate.
  - discriminate Hn.
  - discriminate Hn.
  - exact Hd.
Qed.

(** The [DependsOn] of a subscription filter fragment, for any function,
    pattern, stage and log group: the permission identifier, when that
    identifier is fit for a string literal. *)
Lemma compileSubscriptionFilter_dependsOn (hst : host) (setting : settingObj)
    (functionName : string) (index : nat) (fragment : string * json) :
  plain (getLambdaPermissionLogicalId hst functionName
           (to_string (logGroupName setting)) index) = true ->
  compileSubscriptionFilter hst setting functionName index = Resolved fragment ->
  get "DependsOn" (snd fragment) =
  Some (JsStr (getLambdaPermissionLogicalId hst functionName
                 (to_string (logGroupName setting)) index)).
Proof.
  intros Hid. unfold compileSubscriptionFilter.
  destruct (parse _ _) as [body|e] eqn:Hp; simpl; [|discriminate].
  intros H. injection H as <-. simpl.
  exact (parse_closing _ _ _ _ Hid (before_subscriptionFilterTemplate _ _ _ _ _) Hp).
Qed.

(** ** The promise chain *)

Lemma doCompile_resolved (fuel : nat) (hst : host) (r : aws)
    (setting : settingObj) (functionName : string) (index : nat)
    (trace : list effect) :
  doCompile fuel hst r setting functionName index = Some (trace, Resolved tt) ->
  exists tokens logGroupArn permission filter,
    getLogGroupArn fuel r (to_string (logGroupName setting)) None
      = Some (tokens, Resolved logGroupArn) /\
    compilePermission hst setting functionName logGroupArn index
      = Resolved permission /\
    compileSubscriptionFilter hst setting functionName index
      = Resolved filter /\
    trace =
      ([CallDescribeSubscriptionFilters (to_string (logGroupName setting));
        CallDescribeStacks (getStackName hst)] ++
       map (CallDescribeLogGroups (to_string (logGroupName setting))) tokens)
      ++ [MergeResource permission; MergeResource filter].
Proof.
  unfold doCompile, rethrow.
  destruct (checkResourceLimitExceeded _ _ _ _) as [u|e0|]; try discriminate.
  destruct (getLogGroupArn _ _ _ _) as [[tokens [found|e1|]]|];
    try discriminate.
  destruct (compilePermission _ _ _ _ _) as [p|e2|] eqn:Hp; try discriminate.
  destruct (compileSubscriptionFilter _ _ _ _) as [s|e3|] eqn:Hs;
    try discriminate.
  intros H. injection H as <-.
  exists tokens, found, p, s. repeat split; try assumption.
  simpl. rewrite <- !List.app_assoc. reflexivity.
Qed.

Lemma apply_effects_calls (resources : gmap string json) (calls : list effect) :
  forallb (fun e => negb (isMerge e)) calls = true ->
  apply_effects resources calls = resources.
Proof.
  unfold apply_effects. revert resources.
  induction calls as [|e calls IH]; intros resources; simpl; [reflexivity|].
  rewrite andb_true_iff. intros [He Hc].
  destruct e; try discriminate He; simpl; exact (IH _ Hc).
Qed.

(** The template after a completed pipeline: the two fragments merged
    into it, the Permission first. *)
Lemma apply_effects_completed (resources : gmap string json)
    (calls : list effect) (permission filter : string * json) :
  forallb (fun e => negb (isMerge e)) calls = true ->
  apply_effects resources
    (calls ++ [MergeResource permission; MergeResource filter])
  = merge (merge resources permission) filter.
Proof.
  intros Hc. unfold apply_effects. rewrite List.fold_left_app.
  fold (apply_effects resources calls).
  rewrite (apply_effects_calls _ _ Hc). reflexivity.
Qed.

(** C7. A pipeline that completes merges exactly two fragments, after
    all its remote calls: first the Permission fragment, then the
    SubscriptionFilter fragment, both built from the same function
    name, log group name and occurrence index.  The [DependsOn] of the
    SubscriptionFilter fragment is the logical identifier under which
    the Permission fragment was merged, whatever the pattern, the stage
    and the log group name are, when the naming service gives an
    identifier that a JSON string literal holds as it is (no double
    quote, no backslash, no control character). *)
Theorem doCompile_permission_before_filter (fuel : nat) (hst : host)
    (r : aws) (setting : settingObj) (functionName : string) (index : nat)
    (trace : list effect)
    (Hrun : doCompile fuel hst r setting functionName index
              = Some (trace, Resolved tt))
    (Hid : plain (getLambdaPermissionLogicalId hst functionName
                    (to_string (logGroupName setting)) index) = true) :
  let lg := to_string (logGroupName setting) in
  let permissionId := getLambdaPermissionLogicalId hst functionName lg index in
  let filterId := getSubscriptionFilterLogicalId hst functionName lg index in
  exists calls logGroupArn permissionBody filterBody,
    trace = calls ++ [MergeResource (permissionId, permissionBody);
                      MergeResource (filterId, filterBody)] /\
    forallb (fun e => negb (isMerge e)) calls = true /\
    compilePermission hst setting functionName logGroupArn index
      = Resolved (permissionId, permissionBody) /\
    compileSubscriptionFilter hst setting functionName index
      = Resolved (filterId, filterBody) /\
    get "DependsOn" filterBody = Some (JsStr permissionId).
Proof.
  intros lg permissionId filterId.
  apply doCompile_resolved in Hrun
    as (tokens & logGroupArn & [pk pb] & [fk fb] & _ & Hp & Hf & ->).
  pose proof (compilePermission_key _ _ _ _ _ _ Hp) as Hpk.
  pose proof (compileSubscriptionFilter_key _ _ _ _ _ Hf) as Hfk.
  pose proof (compileSubscriptionFilter_dependsOn _ _ _ _ _ Hid Hf) as Hd.
  simpl in Hpk, Hfk, Hd. subst pk fk.
  eexists _, logGroupArn, pb, fb. split; [reflexivity|].
  split; [|split; [exact Hp | split; [exact Hf | exact Hd]]].
  simpl. clear. induction tokens as [|t ts IH]; [reflexivity | exact IH].
Qed.

Lemma doCompile_permission_before_filter_witness :
  exists calls logGroupArn permissionBody filterBody,
    doCompile 1 devHost firstDeployment errorsOfA "hello" 0
      = Some (calls ++ [MergeResource ("HelloLambdaPermissionAppa0", permissionBody);
                        MergeResource ("HelloSubscriptionFilterAppa0", filterBody)],
              Resolved tt) /\
    forallb (fun e => negb (isMerge e)) calls = true /\
    compilePermission devHost errorsOfA "hello" logGroupArn 0
      = Resolved ("HelloLambdaPermissionAppa0", permissionBody) /\
    get "DependsOn" filterBody = Some (JsStr "HelloLambdaPermissionAppa0").
Proof.
  destruct (doCompile_permission_before_filter 1 devHost firstDeployment
              errorsOfA "hello" 0 _ eq_refl eq_refl)
    as (calls & a & pb & fb & Ht & Hc & Hp & Hf & Hd).
  exists calls, a, pb, fb. split; [|split; [exact Hc | split; [exact Hp|]]].
  - exact (eq_trans eq_refl (f_equal (fun t => Some (t, Resolved tt)) Ht)).
  - exact Hd.
Defined.

(** ** Logical identifiers and the template *)

Lemma append_inv_head (a b c : string) : a +:+ b = a +:+ c -> b = c.
Proof.
  induction a as [|x a IH]; simpl; intros H; [exact H|].
  injection H as H. exact (IH H).
Qed.

Lemma append_last_differs (a b : string) (x y : ascii) :
  x <> y ->
  a +:+ String x EmptyString <> b +:+ String y EmptyString.
Proof.
  intros Hxy. revert b. induction a as [|c a IH]; intros [|d b]; simpl; intros H.
  - injection H as H. contradiction.
  - injection H as _ H. destruct b; discriminate.
  - injection H as _ H. destruct a; discriminate.
  - injection H as _ H. exact (IH b H).
Qed.

Lemma permission_filter_differ (hst : host) (f lg lg' : string) (i j : nat) :
  getLambdaPermissionLogicalId hst f lg i
    <> getSubscriptionFilterLogicalId hst f lg' j.
Proof.
  unfold getLambdaPermissionLogicalId, getSubscriptionFilterLogicalId.
  intros H. apply append_inv_head in H. discriminate.
Qed.

Lemma permission_ids_differ (hst : host) (f lg lg' : string) :
  getLambdaPermissionLogicalId hst f lg 0
    <> getLambdaPermissionLogicalId hst f lg' 1.
Proof.
  unfold getLambdaPermissionLogicalId.
  intros H. apply append_inv_head in H.
  apply (append_inv_head "LambdaPermission") in H.
  change (pretty 0) with "0" in H. change (pretty 1) with "1" in H.
  revert H. apply append_last_differs. discriminate.
Qed.

Lemma filter_ids_differ (hst : host) (f lg lg' : string) :
  getSubscriptionFilterLogicalId hst f lg 0
    <> getSubscriptionFilterLogicalId hst f lg' 1.
Proof.
  unfold getSubscriptionFilterLogicalId.
  intros H. apply append_inv_head in H.
  apply (append_inv_head "SubscriptionFilter") in H.
  change (pretty 0) with "0" in H. change (pretty 1) with "1" in H.
  revert H. apply append_last_differs. discriminate.
Qed.

Lemma merge_lookup_ne (resources : gmap string json) (p : string * json)
    (k : string) :
  k <> fst p -> merge resources p !! k = resources !! k.
Proof. intros H. unfold merge. apply lookup_insert_ne. congruence. Qed.

Lemma merge_size_fresh (resources : gmap string json) (p : string * json) :
  resources !! fst p = None -> size (merge resources p) = S (size resources).
Proof. intros H. unfold merge. apply map_size_insert_None. exact H. Qed.

Lemma merge_all_size (l : list (string * json)) (resources : gmap string json) :
  List.NoDup (map fst l) ->
  (forall p, In p l -> resources !! fst p = None) ->
  size (fold_left merge l resources) = size resources + length l.
Proof.
  revert resources. induction l as [|p l IH]; intros resources Hnd Hfresh; simpl.
  - lia.
  - apply List.NoDup_cons_iff in Hnd as [Hp Hnd].
    rewrite IH; [|exact Hnd|].
    + rewrite merge_size_fresh; [lia|]. apply Hfresh. left. reflexivity.
    + intros p' Hin. rewrite merge_lookup_ne.
      * apply Hfresh. right. exact Hin.
      * intros Heq. apply Hp. rewrite <- Heq. apply List.in_map. exact Hin.
Qed.

(** C6. Two triggers of one function, on the log groups [A] and [B], at
    the occurrence indexes 0 and 1: the identifiers of the four
    fragments built for them are pairwise distinct, and merging the four
    fragments into an empty template, in the order of the pipelines or
    in any other order, gives a template of exactly four entries. *)
Theorem two_triggers_four_entries (hst : host) (f arnA arnB : string)
    (sA sB : settingObj) (pA qA pB qB : string * json)
    (HA : logGroupName sA = JString "A")
    (HB : logGroupName sB = JString "B")
    (HpA : compilePermission hst sA f arnA 0 = Resolved pA)
    (HqA : compileSubscriptionFilter hst sA f 0 = Resolved qA)
    (HpB : compilePermission hst sB f arnB 1 = Resolved pB)
    (HqB : compileSubscriptionFilter hst sB f 1 = Resolved qB) :
  fst pA = getLambdaPermissionLogicalId hst f "A" 0 /\
  fst qA = getSubscriptionFilterLogicalId hst f "A" 0 /\
  fst pB = getLambdaPermissionLogicalId hst f "B" 1 /\
  fst qB = getSubscriptionFilterLogicalId hst f "B" 1 /\
  List.NoDup [fst pA; fst qA; fst pB; fst qB] /\
  size (merge (merge (merge (merge ∅ pA) qA) pB) qB) = 4 /\
  (forall l, Permutation l [pA; qA; pB; qB] ->
     size (fold_left merge l ∅) = 4).
Proof.
  apply compilePermission_key in HpA, HpB.
  apply compileSubscriptionFilter_key in HqA, HqB.
  rewrite HA in HpA, HqA. rewrite HB in HpB, HqB. simpl in HpA, HqA, HpB, HqB.
  assert (Hnd : List.NoDup [fst pA; fst qA; fst pB; fst qB]).
  { rewrite HpA, HqA, HpB, HqB.
    pose proof (permission_filter_differ hst f "A" "A" 0 0) as H1.
    pose proof (permission_ids_differ hst f "A" "B") as H2.
    pose proof (permission_filter_differ hst f "A" "B" 0 1) as H3.
    pose proof (permission_filter_differ hst f "B" "A" 1 0) as H4.
    pose proof (filter_ids_differ hst f "A" "B") as H5.
    pose proof (permission_filter_differ hst f "B" "B" 1 1) as H6.
    repeat (apply List.NoDup_cons; [simpl; intuition congruence|]).
    apply List.NoDup_nil. }
  repeat split; try assumption.
  - change (size (fold_left merge [pA; qA; pB; qB] ∅) = 4).
    rewrite merge_all_size; [reflexivity | exact Hnd |].
    intros p _. apply lookup_empty.
  - intros l Hl. rewrite merge_all_size.
    + rewrite (Permutation_length Hl). reflexivity.
    + apply (Permutation_NoDup (l := map fst [pA; qA; pB; qB]));
        [symmetry; apply Permutation_map; exact Hl | exact Hnd].
    + intros p _. apply lookup_empty.
Qed.

Lemma two_triggers_four_entries_witness :
  exists pA qA pB qB,
    compilePermission devHost (settingOn "A") "hello" "arn:lg:A" 0 = Resolved pA /\
    compileSubscriptionFilter devHost (settingOn "A") "hello" 0 = Resolved qA /\
    compilePermission devHost (settingOn "B") "hello" "arn:lg:B" 1 = Resolved pB /\
    compileSubscriptionFilter devHost (settingOn "B") "hello" 1 = Resolved qB /\
    [fst pA; fst qA; fst pB; fst qB]
      = ["HelloLambdaPermissionA0"; "HelloSubscriptionFilterA0";
         "HelloLambdaPermissionB1"; "HelloSubscriptionFilterB1"] /\
    List.NoDup [fst pA; fst qA; fst pB; fst qB] /\
    size (merge (merge (merge (merge ∅ pA) qA) pB) qB) = 4.
Proof.
  eexists _, _, _, _.
  split; [vm_compute; reflexivity|].
  split; [vm_compute; reflexivity|].
  split; [vm_compute; reflexivity|].
  split; [vm_compute; reflexivity|].
  split; [reflexivity|].
  refine (let H := two_triggers_four_entries devHost "hello" "arn:lg:A"
                     "arn:lg:B" (settingOn "A") (settingOn "B") _ _ _ _
                     eq_refl eq_refl eq_refl eq_refl eq_refl eq_refl in
          conj (proj1 (proj2 (proj2 (proj2 (proj2 H)))))
               (proj1 (proj2 (proj2 (proj2 (proj2 (proj2 H))))))).
Defined.

(** ** Filter patterns *)

(** What holds of the escaping: in the text that is interpolated, every
    double quote stands after a backslash; and a pattern without
    backslash and control character comes back unchanged as the
    [FilterPattern] of the fragment. *)
Lemma compileSubscriptionFilter_quotable (hst : host) (setting : settingObj)
    (functionName : string) (index : nat) :
  plain (getLambdaLogicalId hst functionName) = true ->
  plain (getLambdaPermissionLogicalId hst functionName
           (to_string (logGroupName setting)) index) = true ->
  plain (to_string (stage setting)) = true ->
  plain (to_string (logGroupName setting)) = true ->
  quotable (to_string (filterPattern setting)) = true ->
  quotes_escaped dq (escapeDoubleQuote (to_string (filterPattern setting)))
    = true /\
  exists id body properties,
    compileSubscriptionFilter hst setting functionName index
      = Resolved (id, body) /\
    get "Properties" body = Some properties /\
    get "FilterPattern" properties
      = Some (JsStr (to_string (filterPattern setting))).
Proof.
  intros HL HID HS HG HP. split; [apply escapeDoubleQuote_escapes|].
  rewrite (compileSubscriptionFilter_plain _ _ _ _ HL HID HS HG HP).
  eexists _, _, _. split; [reflexivity|]. split; reflexivity.
Qed.

(** C8, at the pattern [{ $.id = "\d+" }] (a quoted regular expression
    with a backslash) and at a pattern that ends with a line break (a
    YAML block scalar): the quotes of the interpolated pattern are
    escaped, but the text is not JSON.  [JSON.parse] throws (the fuel
    is not the cause), the promise of [compileSubscriptionFilter] is
    rejected, and the pipeline fails after it has merged the Permission
    fragment. *)
Theorem compileSubscriptionFilter_backslash_rejected :
  quotes_escaped dq (escapeDoubleQuote digitsPattern) = true /\
  parse_value
    (parse_fuel
       (subscriptionFilterTemplate "HelloLambdaFunction"
          (escapeDoubleQuote digitsPattern) "HelloLambdaPermissionAppa0"
          "dev-k3x9q" "/app/a"))
    (subscriptionFilterTemplate "HelloLambdaFunction"
       (escapeDoubleQuote digitsPattern) "HelloLambdaPermissionAppa0"
       "dev-k3x9q" "/app/a") = PSyntax /\
  compileSubscriptionFilter devHost digitsOfA "hello" 0
    = Rejected (SyntaxError "Unexpected token in JSON") /\
  compileSubscriptionFilter devHost blockOfA "hello" 0
    = Rejected (SyntaxError "Unexpected token in JSON") /\
  doCompile 1 devHost firstDeployment digitsOfA "hello" 0
    = Some ([CallDescribeSubscriptionFilters "/app/a";
             CallDescribeStacks "svc-dev";
             CallDescribeLogGroups "/app/a" None;
             MergeResource
               ("HelloLambdaPermissionAppa0",
                permissionResource "HelloLambdaFunction" "us-east-1"
                  "arn:lg:a")],
            Rejected (ServerlessError "Unexpected token in JSON")).
Proof.
  repeat split; vm_compute; reflexivity.
Qed.

(** ** The loops of the hook *)

Lemma eachEvents_indexed (hst : host) (random : nat -> string) (f : string)
    (i : nat) (es : list event) (st : loopState) :
  eachEvents hst random f i es st = eachTrigger hst random (indexed f i es) st.
Proof.
  revert i st. induction es as [|e es IH]; intros i st; simpl; [reflexivity|].
  destruct (eachEvent hst random f i e st) as [st' [err|]];
    [reflexivity | apply IH].
Qed.

Lemma eachTrigger_app (hst : host) (random : nat -> string)
    (a b : list (string * nat * event)) (st : loopState) :
  eachTrigger hst random (a ++ b) st =
  match eachTrigger hst random a st with
  | (st', Some err) => (st', Some err)
  | (st', None) => eachTrigger hst random b st'
  end.
Proof.
  revert st. induction a as [|[[f i] e] a IH]; intros st; simpl; [reflexivity|].
  destruct (eachEvent hst random f i e st) as [st' [err|]];
    [reflexivity | apply IH].
Qed.

Lemma eachFunction_triggers (hst : host) (random : nat -> string)
    (svc : service) (st : loopState) :
  eachFunction hst random svc st = eachTrigger hst random (triggers svc) st.
Proof.
  revert st. induction svc as [|[f es] svc IH]; intros st; simpl; [reflexivity|].
  rewrite eachTrigger_app, eachEvents_indexed.
  destruct (eachTrigger hst random (indexed f 0 es) st) as [st' [err|]];
    [reflexivity | apply IH].
Qed.

Lemma triggers_functional (svc : service) (f : string) (i : nat)
    (e e' : event) :
  List.NoDup (map fst svc) ->
  In (f, i, e) (triggers svc) -> In (f, i, e') (triggers svc) -> e = e'.
Proof.
  intros Hnd H H'.
  apply In_triggers in H as (es & Hin & Hk).
  apply In_triggers in H' as (es' & Hin' & Hk').
  assert (es = es') as <-; [|congruence].
  clear Hk Hk'. induction svc as [|[g gs] svc IH]; [contradiction|].
  simpl in Hnd. apply List.NoDup_cons_iff in Hnd as [Hg Hnd].
  destruct Hin as [Heq|Hin], Hin' as [Heq'|Hin'].
  - congruence.
  - injection Heq as -> ->. exfalso. apply Hg.
    apply (List.in_map fst) in Hin'. exact Hin'.
  - injection Heq' as -> ->. exfalso. apply Hg.
    apply (List.in_map fst) in Hin. exact Hin.
  - apply IH; assumption.
Qed.

Lemma getObj_insert (s : gmap loc settingObj) (l l' : loc) (o : settingObj) :
  getObj (<[l := o]> s) l' = if decide (l = l') then o else getObj s l'.
Proof.
  unfold getObj. destruct (decide (l = l')) as [->|Hne].
  - rewrite lookup_insert_eq. reflexivity.
  - rewrite lookup_insert_ne by exact Hne. reflexivity.
Qed.

Lemma suffixed_differs (s x : string) : s +:+ "-" +:+ x <> s.
Proof.
  intros H. apply (f_equal String.length) in H.
  rewrite !length_append in H. simpl in H. lia.
Qed.

(** What one event does to the state of the loops: nothing (it throws,
    it is no trigger, or its stage is not the current one), or it
    starts a pipeline and assigns the suffixed stage. *)
Lemma eachEvent_cases (hst : host) (random : nat -> string) (f : string)
    (i : nat) (e : event) (st st' : loopState) (thrown : option jserror) :
  eachEvent hst random f i e st = (st', thrown) ->
  (st' = st /\
   (thrown <> None \/
    truthy (subscriptionFilter e) = false \/
    prop stage (st_store st) (subscriptionFilter e) <> JString (getStage hst)))
  \/
  (thrown = None /\
   exists l,
     subscriptionFilter e = JObject l /\
     stage (getObj (st_store st) l) = JString (getStage hst) /\
     st' =
       {| st_store :=
            <[l := {| stage := JString (getStage hst +:+ "-" +:+
                                        random (st_draws st));
                      logGroupName := logGroupName (getObj (st_store st) l);
                      filterPattern := filterPattern (getObj (st_store st) l) |}]>
              (st_store st);
          st_tasks :=
            st_tasks st ++
            [{| t_function := f; t_index := i; t_setting := l |}];
          st_draws := S (st_draws st) |}).
Proof.
  unfold eachEvent.
  destruct (validateSettings (st_store st) (subscriptionFilter e))
    as [[|]|err] eqn:Hv.
  - destruct (strict_eq _ _) eqn:Heq; simpl.
    + apply strict_eq_true in Heq. intros H. injection H as <- <-. right.
      split; [reflexivity|].
      destruct (subscriptionFilter e) as [| |b|n|s|l]; try discriminate Heq.
      exists l. simpl in Heq. repeat split; [exact Heq].
    + apply strict_eq_false in Heq. intros H. injection H as <- <-. left.
      split; [reflexivity | right; right; exact Heq].
  - intros H. injection H as <- <-. left. split; [reflexivity|]. right. left.
    unfold validateSettings in Hv.
    destruct (truthy (subscriptionFilter e)); [|reflexivity].
    simpl in Hv.
    destruct (badField (prop stage _ _)); [discriminate|].
    destruct (badField (prop logGroupName _ _)); [discriminate|].
    destruct (badField (prop filterPattern _ _)); discriminate.
  - intros H. injection H as <- <-. left. split; [reflexivity|]. left.
    discriminate.
Qed.

Lemma eachEvent_evolved (hst : host) (random : nat -> string)
    (h : gmap loc settingObj) (f : string) (i : nat) (e : event)
    (st st' : loopState) (thrown : option jserror) :
  evolved hst h (st_store st) ->
  eachEvent hst random f i e st = (st', thrown) ->
  evolved hst h (st_store st').
Proof.
  intros Hev H.
  apply eachEvent_cases in H as [[-> _]|(_ & l & _ & _ & ->)]; [exact Hev|].
  intros l'. simpl. rewrite getObj_insert.
  destruct (decide (l = l')) as [<-|_]; [|apply Hev].
  destruct (Hev l) as (Hlg & Hfp & _). simpl.
  split; [exact Hlg | split; [exact Hfp|]]. right. eexists. reflexivity.
Qed.

(** An object whose stage is not the current stage is left as it is. *)
Lemma eachEvent_keeps (hst : host) (random : nat -> string) (f : string)
    (i : nat) (e : event) (st st' : loopState) (thrown : option jserror)
    (l : loc) :
  eachEvent hst random f i e st = (st', thrown) ->
  stage (getObj (st_store st) l) <> JString (getStage hst) \/
  subscriptionFilter e <> JObject l ->
  getObj (st_store st') l = getObj (st_store st) l.
Proof.
  intros H Hl.
  apply eachEvent_cases in H as [[-> _]|(_ & l' & Hsf & Hst & ->)];
    [reflexivity|].
  simpl. rewrite getObj_insert.
  destruct (decide (l' = l)) as [->|_]; [|reflexivity].
  destruct Hl as [Hl|Hl]; [contradiction | congruence].
Qed.

Lemma eachEvent_tasks (hst : host) (random : nat -> string) (f : string)
    (i : nat) (e : event) (st st' : loopState) (thrown : option jserror) :
  eachEvent hst random f i e st = (st', thrown) ->
  exists new, st_tasks st' = st_tasks st ++ new /\
    forall t, In t new ->
      t_function t = f /\ t_index t = i /\
      subscriptionFilter e = JObject (t_setting t) /\
      stage (getObj (st_store st) (t_setting t)) = JString (getStage hst).
Proof.
  intros H.
  apply eachEvent_cases in H as [[-> _]|(_ & l & Hsf & Hst & ->)].
  - exists []. rewrite List.app_nil_r. split; [reflexivity | intros t []].
  - eexists. split; [reflexivity|]. intros t [<-|[]]. simpl. tauto.
Qed.

Lemma eachTrigger_evolved (hst : host) (random : nat -> string)
    (h : gmap loc settingObj) (ts : list (string * nat * event))
    (st st' : loopState) (thrown : option jserror) :
  evolved hst h (st_store st) ->
  eachTrigger hst random ts st = (st', thrown) ->
  evolved hst h (st_store st').
Proof.
  revert st. induction ts as [|[[f i] e] ts IH]; intros st Hev; simpl.
  - intros H. injection H as <- _. exact Hev.
  - destruct (eachEvent hst random f i e st) as [st1 [err|]] eqn:H1.
    + intros H. injection H as <- _.
      exact (eachEvent_evolved _ _ _ _ _ _ _ _ _ Hev H1).
    + apply IH. exact (eachEvent_evolved _ _ _ _ _ _ _ _ _ Hev H1).
Qed.

Lemma eachTrigger_keeps (hst : host) (random : nat -> string)
    (ts : list (string * nat * event)) (st st' : loopState)
    (thrown : option jserror) (l : loc) :
  eachTrigger hst random ts st = (st', thrown) ->
  stage (getObj (st_store st) l) <> JString (getStage hst) \/
  (forall f i e, In (f, i, e) ts -> subscriptionFilter e <> JObject l) ->
  getObj (st_store st') l = getObj (st_store st) l.
Proof.
  revert st. induction ts as [|[[f i] e] ts IH]; intros st; simpl.
  - intros H _. injection H as <- _. reflexivity.
  - destruct (eachEvent hst random f i e st) as [st1 thrown1] eqn:H1.
    intros H Hl.
    assert (H1l : getObj (st_store st1) l = getObj (st_store st) l).
    { apply (eachEvent_keeps _ _ _ _ _ _ _ _ _ H1).
      destruct Hl as [Hl|Hl]; [left; exact Hl | right].
      apply (Hl f i). left. reflexivity. }
    destruct thrown1 as [err|]; [injection H as <- _; exact H1l|].
    rewrite <- H1l. apply (IH _ H).
    destruct Hl as [Hl|Hl]; [left; rewrite H1l; exact Hl | right].
    intros f' i' e' Hin. apply (Hl f' i'). right. exact Hin.
Qed.

Lemma evolved_current (hst : host) (h s : gmap loc settingObj) (l : loc) :
  evolved hst h s ->
  stage (getObj s l) = JString (getStage hst) ->
  getObj s l = getObj h l.
Proof.
  intros Hev Hst. destruct (Hev l) as (_ & _ & [Hsame|[x Hx]]); [exact Hsame|].
  rewrite Hx in Hst. injection Hst as Hst.
  exfalso. exact (suffixed_differs _ _ Hst).
Qed.

(** Every pipeline that the loops start belongs to a trigger whose
    declared stage (its stage in the store [h] the loops began with) is
    the current stage. *)
Lemma eachTrigger_tasks (hst : host) (random : nat -> string)
    (h : gmap loc settingObj) (ts : list (string * nat * event))
    (st st' : loopState) (thrown : option jserror) :
  evolved hst h (st_store st) ->
  eachTrigger hst random ts st = (st', thrown) ->
  exists new, st_tasks st' = st_tasks st ++ new /\
    forall t, In t new ->
      exists e, In (t_function t, t_index t, e) ts /\
                subscriptionFilter e = JObject (t_setting t) /\
                stage (getObj h (t_setting t)) = JString (getStage hst).
Proof.
  revert st. induction ts as [|[[f i] e] ts IH]; intros st Hev; simpl.
  - intros H. injection H as <- _. exists []. rewrite List.app_nil_r.
    split; [reflexivity | intros t []].
  - destruct (eachEvent hst random f i e st) as [st1 thrown1] eqn:H1.
    intros H.
    destruct (eachEvent_tasks _ _ _ _ _ _ _ _ H1) as (new1 & Ht1 & Hnew1).
    assert (Hhead : forall t, In t new1 ->
      exists e0, In (t_function t, t_index t, e0) ((f, i, e) :: ts) /\
                 subscriptionFilter e0 = JObject (t_setting t) /\
                 stage (getObj h (t_setting t)) = JString (getStage hst)).
    { intros t Hin. destruct (Hnew1 t Hin) as (<- & <- & Hsf & Hst).
      exists e. split; [left; reflexivity|]. split; [exact Hsf|].
      rewrite <- (evolved_current _ _ _ _ Hev Hst). exact Hst. }
    destruct thrown1 as [err|].
    + injection H as <- _. exists new1. split; [exact Ht1 | exact Hhead].
    + destruct (IH st1 (eachEvent_evolved _ _ _ _ _ _ _ _ _ Hev H1) H)
        as (new2 & Ht2 & Hnew2).
      exists (new1 ++ new2). split.
      * rewrite Ht2, Ht1, List.app_assoc. reflexivity.
      * intros t Hin. apply List.in_app_or in Hin as [Hin|Hin];
          [exact (Hhead t Hin)|].
        destruct (Hnew2 t Hin) as (e' & Hin' & Hrest). exists e'.
        split; [right; exact Hin' | exact Hrest].
Qed.

Lemma eachTrigger_grows (hst : host) (random : nat -> string)
    (ts : list (string * nat * event)) (st st' : loopState)
    (thrown : option jserror) (t : task) :
  eachTrigger hst random ts st = (st', thrown) ->
  In t (st_tasks st) -> In t (st_tasks st').
Proof.
  revert st. induction ts as [|[[f i] e] ts IH]; intros st; simpl.
  - intros H. injection H as <- _. tauto.
  - destruct (eachEvent hst random f i e st) as [st1 thrown1] eqn:H1.
    intros H Hin.
    destruct (eachEvent_tasks _ _ _ _ _ _ _ _ H1) as (new1 & Ht1 & _).
    assert (Hin1 : In t (st_tasks st1)).
    { rewrite Ht1. apply List.in_or_app. left. exact Hin. }
    destruct thrown1 as [err|]; [injection H as <- _; exact Hin1|].
    exact (IH _ H Hin1).
Qed.

(** In loops that do not throw, a trigger of the current stage whose
    setting object no earlier trigger refers to starts its pipeline,
    and its object keeps the suffixed stage to the end. *)
Lemma eachTrigger_starts (hst : host) (random : nat -> string)
    (pre post : list (string * nat * event)) (f : string) (i : nat)
    (e : event) (l : loc) (st st' : loopState) :
  eachTrigger hst random (pre ++ (f, i, e) :: post) st = (st', None) ->
  subscriptionFilter e = JObject l ->
  stage (getObj (st_store st) l) = JString (getStage hst) ->
  (forall f' i' e', In (f', i', e') pre -> subscriptionFilter e' <> JObject l) ->
  In {| t_function := f; t_index := i; t_setting := l |} (st_tasks st') /\
  exists n,
    getObj (st_store st') l =
      {| stage := JString (getStage hst +:+ "-" +:+ random n);
         logGroupName := logGroupName (getObj (st_store st) l);
         filterPattern := filterPattern (getObj (st_store st) l) |}.
Proof.
  intros H Hsf Hst Hpre. rewrite eachTrigger_app in H.
  destruct (eachTrigger hst random pre st) as [st1 [err|]] eqn:H1;
    [discriminate|].
  simpl in H.
  destruct (eachEvent hst random f i e st1) as [st2 [err|]] eqn:H2;
    [discriminate|].
  pose proof (eachTrigger_keeps _ _ _ _ _ _ l H1 (or_intror Hpre)) as Hl1.
  apply eachEvent_cases in H2
    as [[_ [Hthrown|[Ht|Hne]]]|(_ & l' & Hsf' & _ & ->)].
  - contradiction.
  - rewrite Hsf in Ht. discriminate.
  - exfalso. apply Hne. rewrite Hsf. simpl. rewrite Hl1. exact Hst.
  - assert (l' = l) as -> by congruence. split.
    + apply (eachTrigger_grows _ _ _ _ _ _ _ H). simpl.
      apply List.in_or_app. right. left. reflexivity.
    + exists (st_draws st1).
      rewrite (eachTrigger_keeps _ _ _ _ _ _ l H).
      * simpl. rewrite getObj_insert.
        destruct (decide (l = l)); [|contradiction].
        rewrite Hl1. reflexivity.
      * left. simpl. rewrite getObj_insert.
        destruct (decide (l = l)); [|contradiction]. simpl.
        intros Heq. injection Heq as Heq. exact (suffixed_differs _ _ Heq).
Qed.

Lemma evolved_refl (hst : host) (h : gmap loc settingObj) : evolved hst h h.
Proof. intros l. repeat split. left. reflexivity. Qed.

Lemma pipelines_spec (fuel : nat) (hst : host) (r : aws)
    (h : gmap loc settingObj) (ts : list task)
    (ps : list (task * (list effect * outcome unit))) :
  pipelines fuel hst r h ts = Some ps ->
  map fst ps = ts /\
  (forall t p, In (t, p) ps ->
     doCompile fuel hst r (getObj h (t_setting t)) (t_function t) (t_index t)
       = Some p) /\
  (forall t, In t ts -> exists p, In (t, p) ps).
Proof.
  revert ps. induction ts as [|t ts IH]; intros ps; simpl.
  - intros H. injection H as <-. repeat split; [intros t p [] | intros t []].
  - destruct (doCompile _ _ _ _ _ _) as [p|] eqn:Hp; [|discriminate].
    destruct (pipelines fuel hst r h ts) as [ps'|]; [|discriminate].
    intros H. injection H as <-.
    destruct (IH ps' eq_refl) as (Hm & Hd & He). simpl. repeat split.
    + rewrite Hm. reflexivity.
    + intros t' p' [Heq|Hin]; [injection Heq as <- <-; exact Hp|].
      apply Hd. exact Hin.
    + intros t' [<-|Hin]; [exists p; left; reflexivity|].
      destruct (He t' Hin) as [p' Hp']. exists p'. right. exact Hp'.
Qed.

Lemma settingLocs_fresh (pre post : list (string * nat * event))
    (x : string * nat * event) (l : loc) :
  List.NoDup (settingLocs (pre ++ x :: post)) ->
  subscriptionFilter (snd x) = JObject l ->
  forall f i e, In (f, i, e) pre -> subscriptionFilter e <> JObject l.
Proof.
  unfold settingLocs. rewrite List.flat_map_app. simpl. intros Hnd Hx.
  rewrite Hx in Hnd. simpl in Hnd.
  apply List.NoDup_remove_2 in Hnd.
  intros f i e Hin He. apply Hnd. apply List.in_or_app. left.
  apply List.in_flat_map. exists (f, i, e). split; [exact Hin|].
  simpl. rewrite He. left. reflexivity.
Qed.

(** The hook, as the loop over the triggers and the pipelines of the
    tasks it leaves. *)
Lemma hook_run (fuel : nat) (hst : host) (r : aws) (random : nat -> string)
    (h : gmap loc settingObj) (svc : service)
    (ps : list (task * (list effect * outcome unit)))
    (res : result (outcome unit)) :
  compileSubscriptionFilterEvents fuel hst r random h svc = Some (ps, res) ->
  (ps = [] /\ exists err, res = Throw err) \/
  exists st thrown,
    eachTrigger hst random (triggers svc)
      {| st_store := h; st_tasks := []; st_draws := 0 |} = (st, thrown) /\
    pipelines fuel hst r (st_store st) (st_tasks st) = Some ps /\
    (thrown = None <-> exists o, res = Return o).
Proof.
  unfold compileSubscriptionFilterEvents, startPipelines.
  destruct (preCheckResourceLimitExceeded h svc) as [u|err].
  - rewrite eachFunction_triggers.
    destruct (eachTrigger hst random (triggers svc) _) as [st thrown] eqn:Hloop.
    destruct (pipelines fuel hst r (st_store st) (st_tasks st)) as [ps'|] eqn:Hps;
      [|discriminate].
    intros H. injection H as <- <-. right. exists st, thrown.
    split; [reflexivity|]. split; [exact Hps|].
    destruct thrown as [err|]; split.
    + discriminate.
    + intros [o Ho]. discriminate.
    + intros _. eexists. reflexivity.
    + reflexivity.
  - simpl. intros H. injection H as <- <-. left.
    split; [reflexivity | exists err; reflexivity].
Qed.

(** What holds of the stage test in every run of the loops, thrown or
    not: a trigger whose declared stage is not the stage of the
    deployment starts no pipeline, so no remote call is made and no
    fragment is merged for it. *)
Lemma other_stage_starts_no_pipeline (hst : host) (random : nat -> string)
    (h : gmap loc settingObj) (svc : service) (st : loopState)
    (thrown : option jserror) (f : string) (i : nat) (e : event) :
  List.NoDup (map fst svc) ->
  startPipelines hst random h svc = (st, thrown) ->
  In (f, i, e) (triggers svc) ->
  stageOf h (subscriptionFilter e) <> JString (getStage hst) ->
  forall t, In t (st_tasks st) -> ~ (t_function t = f /\ t_index t = i).
Proof.
  intros Hnames Hrun Hin Hne t Ht [Hf Hi]. revert Hrun. unfold startPipelines.
  destruct (preCheckResourceLimitExceeded h svc) as [u|err];
    [|intros H; injection H as <- _; contradiction].
  rewrite eachFunction_triggers. intros Hloop.
  destruct (eachTrigger_tasks hst random h _
              {| st_store := h; st_tasks := []; st_draws := 0 |} _ _
              (evolved_refl hst h) Hloop)
    as (new & Hnew & Hall).
  simpl in Hnew. rewrite Hnew in Ht.
  destruct (Hall t Ht) as (e' & Hin' & Hsf' & Hst').
  rewrite Hf, Hi in Hin'.
  rewrite (triggers_functional _ _ _ _ _ Hnames Hin Hin') in Hne.
  apply Hne. unfold stageOf. rewrite Hsf'. exact Hst'.
Qed.

(** And in loops that do not throw, a trigger declared for the stage
    of the deployment starts its pipeline when no trigger before it
    refers to its setting object; the object then carries the suffixed
    stage. *)
Lemma first_use_of_setting_starts_pipeline (hst : host)
    (random : nat -> string) (h : gmap loc settingObj) (svc : service)
    (st : loopState) (pre post : list (string * nat * event)) (f : string)
    (i : nat) (e : event) (l : loc) :
  startPipelines hst random h svc = (st, None) ->
  triggers svc = pre ++ (f, i, e) :: post ->
  subscriptionFilter e = JObject l ->
  stage (getObj h l) = JString (getStage hst) ->
  (forall f' i' e', In (f', i', e') pre -> subscriptionFilter e' <> JObject l) ->
  In {| t_function := f; t_index := i; t_setting := l |} (st_tasks st) /\
  exists n,
    getObj (st_store st) l =
      {| stage := JString (getStage hst +:+ "-" +:+ random n);
         logGroupName := logGroupName (getObj h l);
         filterPattern := filterPattern (getObj h l) |}.
Proof.
  intros Hrun Hsplit Hsf Hst Hpre. revert Hrun. unfold startPipelines.
  destruct (preCheckResourceLimitExceeded h svc) as [u|err]; [|discriminate].
  rewrite eachFunction_triggers, Hsplit. intros Hloop.
  exact (eachTrigger_starts _ _ _ _ _ _ _ l _ _ Hloop Hsf Hst Hpre).
Qed.

(** C9, at a service whose functions [alpha] and [beta] are triggered
    by one and the same setting object (a YAML anchor and its alias),
    declared for the stage [dev] of the deployment and valid.  The
    trigger of [beta] is declared for the stage of the deployment, and
    it is not processed: at the trigger of [alpha] the loop writes the
    suffixed stage into the object, and at the trigger of [beta] it
    compares that stage with the stage of the deployment and skips.
    Whatever the draws are, the loops do not throw and start the
    pipeline of [alpha] only; on a first deployment the hook returns a
    promise that resolves, with no pipeline for [beta]. *)
Theorem shared_setting_second_trigger_skipped :
  In ("beta", 0, {| subscriptionFilter := JObject 0 |}) (triggers alphaBeta) /\
  stageOf oneSetting (JObject 0) = JString (getStage devHost) /\
  validateSettings oneSetting (JObject 0) = Return true /\
  (forall random : nat -> string,
     exists st,
       startPipelines devHost random oneSetting alphaBeta = (st, None) /\
       st_tasks st
         = [{| t_function := "alpha"; t_index := 0; t_setting := 0 |}] /\
       stageOf (st_store st) (JObject 0) = JString ("dev-" +:+ random 0)) /\
  exists ps o,
    compileSubscriptionFilterEvents 1 devHost firstDeployment noRandom
      oneSetting alphaBeta = Some (ps, Return o) /\
    map fst ps = [{| t_function := "alpha"; t_index := 0; t_setting := 0 |}] /\
    (forall t p, In (t, p) ps -> t_function t <> "beta") /\
    o = Resolved tt.
Proof.
  split; [simpl; tauto|]. split; [reflexivity|]. split; [reflexivity|].
  split.
  - intros random. eexists. split; [vm_compute; reflexivity|].
    split; reflexivity.
  - eexists _, _. split; [vm_compute; reflexivity|]. split; [reflexivity|].
    split; [|reflexivity].
    intros t p [H|[]]. injection H as <- _. discriminate.
Qed.

(** * Further properties of the code *)

(** ** escapeDoubleQuote *)

Lemma countQuotes_length (s : string) :
  String.length (escapeDoubleQuote s) = String.length s + countQuotes s.
Proof.
  induction s as [|c s IH]; simpl; [reflexivity|].
  destruct (Ascii.eqb c dq); simpl; rewrite IH; lia.
Qed.

(** X1. A text without backslash and control character survives the
    escaping: the string literal made of the escaped text between double
    quotes is JSON, and [JSON.parse] gives the text back, double quotes
    included. *)
Theorem escapeDoubleQuote_round_trip (msg s : string)
    (Hs : quotable s = true) :
  parse msg (q (escapeDoubleQuote s)) = Return (JsStr s).
Proof.
  unfold parse, parse_fuel.
  change (q (escapeDoubleQuote s)) with (str "" (escapeDoubleQuote s) "").
  rewrite Nat.add_comm. cbn [Nat.add].
  rewrite (parse_value_escaped _ "" s "" eq_refl Hs). reflexivity.
Qed.

Lemma escapeDoubleQuote_round_trip_witness :
  quotable ("say " +:+ q "hi") = true /\
  escapeDoubleQuote ("say " +:+ q "hi")
    = "say " +:+ String bs (String dq ("hi" +:+ String bs (String dq ""))) /\
  parse "bad" (q (escapeDoubleQuote ("say " +:+ q "hi")))
    = Return (JsStr ("say " +:+ q "hi")).
Proof.
  split; [reflexivity|]. split; [reflexivity|].
  apply (escapeDoubleQuote_round_trip "bad" ("say " +:+ q "hi")). reflexivity.
Defined.

(** X2. The escaping adds one character for every double quote of the
    text and nothing else: the length grows by the number of double
    quotes, and the text is returned unchanged exactly when it has no
    double quote. *)
Theorem escapeDoubleQuote_grows_by_quotes (s : string) :
  String.length (escapeDoubleQuote s) = String.length s + countQuotes s /\
  (escapeDoubleQuote s = s <-> countQuotes s = 0).
Proof.
  split; [apply countQuotes_length|]. split.
  - intros H. apply (f_equal String.length) in H.
    rewrite countQuotes_length in H. lia.
  - induction s as [|c s IH]; simpl; [reflexivity|].
    destruct (Ascii.eqb c dq); simpl; [discriminate|].
    intros H. rewrite (IH H). reflexivity.
Qed.

(** ** Logical identifiers *)

(** X3. For one function and one log group, the logical identifiers
    tell the kind of the resource and the position of the trigger: the
    identifier of a Permission is never the identifier of a
    SubscriptionFilter, and two positions give two different
    identifiers of either kind. *)
Theorem logical_ids_tell_kind_and_index (hst : host) (f lg : string)
    (i j : nat) :
  getLambdaPermissionLogicalId hst f lg i
    <> getSubscriptionFilterLogicalId hst f lg j /\
  (getLambdaPermissionLogicalId hst f lg i
     = getLambdaPermissionLogicalId hst f lg j -> i = j) /\
  (getSubscriptionFilterLogicalId hst f lg i
     = getSubscriptionFilterLogicalId hst f lg j -> i = j).
Proof.
  split; [apply permission_filter_differ|].
  unfold getLambdaPermissionLogicalId, getSubscriptionFilterLogicalId.
  split; intros H; repeat apply append_inv_head in H;
    exact (inj pretty i j H).
Qed.

(** X4. The position is appended to the normalized log group name
    without a separator, so the identifiers do not tell apart every
    pair of a log group and a position: when the normalized name of one
    log group is that of another followed by the digit 1, its trigger
    at position 0 has the identifiers of the other's trigger at
    position 10. *)
Theorem logical_ids_collide_across_log_groups (hst : host)
    (f lg lg' : string)
    (Hname : normalizeNameToAlphaNumericOnly hst lg'
               = normalizeNameToAlphaNumericOnly hst lg +:+ "1") :
  getLambdaPermissionLogicalId hst f lg' 0
    = getLambdaPermissionLogicalId hst f lg 10 /\
  getSubscriptionFilterLogicalId hst f lg' 0
    = getSubscriptionFilterLogicalId hst f lg 10.
Proof.
  unfold getLambdaPermissionLogicalId, getSubscriptionFilterLogicalId.
  rewrite Hname. change (pretty 0) with "0". change (pretty 10) with "10".
  rewrite !append_assoc. split; reflexivity.
Qed.

Lemma logical_ids_collide_across_log_groups_witness :
  "/app/a1" <> "/app/a" /\
  getLambdaPermissionLogicalId devHost "hello" "/app/a1" 0
    = getLambdaPermissionLogicalId devHost "hello" "/app/a" 10 /\
  getSubscriptionFilterLogicalId devHost "hello" "/app/a1" 0
    = getSubscriptionFilterLogicalId devHost "hello" "/app/a" 10.
Proof.
  split; [discriminate|].
  apply (logical_ids_collide_across_log_groups devHost "hello" "/app/a"
           "/app/a1").
  reflexivity.
Defined.

(** ** The dynamic check and its two lookups *)

Lemma truthy_not_null (d : jsval) : truthy d = true -> strict_eq d JNull = false.
Proof. destruct d; simpl; intros H; try reflexivity; discriminate. Qed.

(** X5. Of the subscription filters that the log group has, the dynamic
    check looks at the first one only: two deployed states that agree on
    the first filter of the log group and on the stacks give the same
    outcome, whatever other filters the log group has. *)
Theorem checkResourceLimitExceeded_first_filter_only (hst : host)
    (r r' : aws) (lg functionName : string) (first : subFilter)
    (rest rest' : list subFilter)
    (Hr : describeSubscriptionFilters r lg = Resolved (first :: rest))
    (Hr' : describeSubscriptionFilters r' lg = Resolved (first :: rest'))
    (Hs : describeStacks r' (getStackName hst)
            = describeStacks r (getStackName hst)) :
  checkResourceLimitExceeded hst r' lg functionName
    = checkResourceLimitExceeded hst r lg functionName.
Proof.
  unfold checkResourceLimitExceeded, getSubscriptionFilterDestinationArn,
    guessSubscriptionFilterDestinationArn.
  rewrite Hr, Hr', Hs. reflexivity.
Qed.

Lemma checkResourceLimitExceeded_first_filter_only_witness :
  checkResourceLimitExceeded devHost
    {| describeSubscriptionFilters := fun _ =>
         Resolved [{| destinationArn := JString "arn:fn:hello" |};
                   {| destinationArn := JString "arn:fn:other" |}];
       describeStacks := describeStacks (deployed "arn:fn:hello" "arn:fn:hello");
       describeLogGroups := fun _ _ => Pending |}
    "/app/a" "hello"
  = checkResourceLimitExceeded devHost (deployed "arn:fn:hello" "arn:fn:hello")
      "/app/a" "hello".
Proof.
  apply (checkResourceLimitExceeded_first_filter_only devHost _ _ "/app/a"
           "hello" {| destinationArn := JString "arn:fn:hello" |}
           [] [{| destinationArn := JString "arn:fn:other" |}]);
    reflexivity.
Defined.

(** X6. A first deployment onto a log group that already has a
    subscription filter: when the stack lookup fails with a
    [ValidationError] that says the stack does not exist, and the first
    filter of the log group has a destination, the dynamic check rejects
    with the quota error of that log group. *)
Theorem checkResourceLimitExceeded_first_deployment_occupied (hst : host)
    (r : aws) (lg functionName : string) (first : subFilter)
    (rest : list subFilter) (e : jserror)
    (Hfilters : describeSubscriptionFilters r lg = Resolved (first :: rest))
    (Hdest : truthy (destinationArn first) = true)
    (Hstack : describeStacks r (getStackName hst) = Rejected e)
    (Hmissing : stackMissing e = true) :
  checkResourceLimitExceeded hst r lg functionName
    = Rejected (ServerlessError (checkMessage lg)).
Proof.
  unfold checkResourceLimitExceeded, getSubscriptionFilterDestinationArn,
    guessSubscriptionFilterDestinationArn.
  rewrite Hfilters, Hstack, Hmissing. simpl.
  unfold compareDestinations. rewrite Hdest, (truthy_not_null _ Hdest).
  reflexivity.
Qed.

Lemma checkResourceLimitExceeded_first_deployment_occupied_witness :
  checkResourceLimitExceeded devHost
    {| describeSubscriptionFilters := fun _ =>
         Resolved [{| destinationArn := JString "arn:fn:other" |}];
       describeStacks := describeStacks firstDeployment;
       describeLogGroups := describeLogGroups firstDeployment |}
    "/app/a" "hello"
  = Rejected (ServerlessError (checkMessage "/app/a")).
Proof.
  apply (checkResourceLimitExceeded_first_deployment_occupied devHost _
           "/app/a" "hello" {| destinationArn := JString "arn:fn:other" |} []
           (AwsError "ValidationError" "Stack with id svc-dev does not exist"));
    reflexivity.
Defined.

(** X7. A lookup that fails fails the dynamic check with the same
    error, as it is: the error of [describeSubscriptionFilters] when the
    stack lookup does not fail as well, and the error of
    [describeStacks], unless it says that the stack does not exist, when
    the filter lookup does not fail. *)
Theorem checkResourceLimitExceeded_passes_lookup_errors (hst : host)
    (r : aws) (lg functionName : string) (e : jserror) :
  (describeSubscriptionFilters r lg = Rejected e ->
   (forall e', describeStacks r (getStackName hst) = Rejected e' ->
      stackMissing e' = true) ->
   checkResourceLimitExceeded hst r lg functionName = Rejected e) /\
  (describeStacks r (getStackName hst) = Rejected e ->
   stackMissing e = false ->
   (forall e', describeSubscriptionFilters r lg <> Rejected e') ->
   checkResourceLimitExceeded hst r lg functionName = Rejected e).
Proof.
  unfold checkResourceLimitExceeded, getSubscriptionFilterDestinationArn,
    guessSubscriptionFilterDestinationArn.
  split.
  - intros Hf _. rewrite Hf. reflexivity.
  - intros Hs Hm Hf. rewrite Hs, Hm.
    destruct (describeSubscriptionFilters r lg) as [[|f fs]|e'|];
      try reflexivity.
    exfalso. exact (Hf e' eq_refl).
Qed.

(** X8. A redeployment passes the dynamic check.  When the stack of
    the previous deployment has an output whose key is the log group
    name followed by the stack name, a dash and the function name, and
    the first of these outputs records the destination that the first
    filter of the log group has, the check resolves. *)
Theorem checkResourceLimitExceeded_redeployment_passes (hst : host) (r : aws)
    (lg functionName : string) (first : subFilter) (rest : list subFilter)
    (stacks : list stack) (recorded : output)
    (Hfilters : describeSubscriptionFilters r lg = Resolved (first :: rest))
    (Hstacks : describeStacks r (getStackName hst) = Resolved stacks)
    (Houtput : findOutput
                 (lg +:+ getStackName hst +:+ "-" +:+ functionName)
                 (flat_map Outputs stacks) = Some recorded)
    (Hsame : OutputValue recorded = destinationArn first) :
  checkResourceLimitExceeded hst r lg functionName = Resolved tt.
Proof.
  unfold checkResourceLimitExceeded, getSubscriptionFilterDestinationArn,
    guessSubscriptionFilterDestinationArn, buildLambdaFunctionName.
  rewrite Hfilters, Hstacks, Houtput, Hsame. simpl.
  unfold compareDestinations.
  rewrite (proj2 (strict_eq_true _ _) eq_refl).
  destruct (truthy (destinationArn first)); reflexivity.
Qed.

Lemma checkResourceLimitExceeded_redeployment_passes_witness :
  checkResourceLimitExceeded devHost (deployed "arn:fn:hello" "arn:fn:hello")
    "/app/a" "hello" = Resolved tt.
Proof.
  apply (checkResourceLimitExceeded_redeployment_passes devHost
           (deployed "arn:fn:hello" "arn:fn:hello") "/app/a" "hello"
           {| destinationArn := JString "arn:fn:hello" |} []
           [{| Outputs :=
                 [{| OutputKey := "ServerlessDeploymentBucketName";
                     OutputValue := JString "bucket" |};
                  {| OutputKey := "/app/asvc-dev-hello";
                     OutputValue := JString "arn:fn:hello" |}] |}]
           {| OutputKey := "/app/asvc-dev-hello";
              OutputValue := JString "arn:fn:hello" |});
    reflexivity.
Defined.

(** ** The paginated lookup, on every listing *)

(** X9. [getLogGroupArn] delivers an ARN only from the page of its own
    call: when its promise resolves, it has made one listing call, the
    page of that call holds a log group whose name is exactly the
    requested one, and the ARN is that of the first such log group. *)
Theorem getLogGroupArn_resolves_on_own_page (fuel : nat) (r : aws)
    (name : string) (token : option string) (calls : list (option string))
    (a : string)
    (Hrun : getLogGroupArn fuel r name token = Some (calls, Resolved a)) :
  calls = [token] /\
  exists data g,
    describeLogGroups r name token = Resolved data /\
    findLogGroup name (logGroups data) = Some g /\
    In g (logGroups data) /\ lgName g = name /\ arn g = a.
Proof.
  destruct fuel as [|fuel]; simpl in Hrun; [discriminate|].
  destruct (describeLogGroups r name token) as [data|e|] eqn:Hd;
    try discriminate.
  destruct (logGroups data) as [|g0 gs] eqn:Hl; [discriminate|].
  destruct (findLogGroup name (g0 :: gs)) as [g|] eqn:Hf.
  - injection Hrun as <- <-. split; [reflexivity|].
    exists data, g. rewrite Hl.
    destruct (findLogGroup_exact _ _ _ Hf) as [Hin Hn]. tauto.
  - destruct (getLogGroupArn fuel r name (nextToken data)) as [[cs [x|e|]]|];
      discriminate.
Qed.

Lemma getLogGroupArn_resolves_on_own_page_witness :
  getLogGroupArn 1 firstDeployment "/app/a" None
    = Some ([None], Resolved "arn:lg:a") /\
  exists data g,
    describeLogGroups firstDeployment "/app/a" None = Resolved data /\
    findLogGroup "/app/a" (logGroups data) = Some g /\
    In g (logGroups data) /\ lgName g = "/app/a" /\ arn g = "arn:lg:a".
Proof.
  split; [reflexivity|].
  exact (proj2 (getLogGroupArn_resolves_on_own_page 1 firstDeployment "/app/a"
                  None [None] "arn:lg:a" eq_refl)).
Defined.

Lemma last_cons_default {A} (c : A) (cs : list A) (d d' : A) :
  List.last (c :: cs) d = List.last (c :: cs) d'.
Proof.
  revert c. induction cs as [|x cs IH]; intros c; [reflexivity|].
  exact (IH x).
Qed.

(** X10. A rejection of [getLogGroupArn] comes from the last listing
    call it has made, on whatever page: either the remote call was
    rejected, and the error is passed on as it is, or the page was
    empty, and the error is [LogGroup not found]. *)
Theorem getLogGroupArn_rejects_from_last_call (fuel : nat) (r : aws)
    (name : string) (token : option string) (calls : list (option string))
    (e : jserror)
    (Hrun : getLogGroupArn fuel r name token = Some (calls, Rejected e)) :
  describeLogGroups r name (List.last calls token) = Rejected e \/
  exists data,
    describeLogGroups r name (List.last calls token) = Resolved data /\
    logGroups data = [] /\ e = Error "LogGroup not found".
Proof.
  revert token calls Hrun.
  induction fuel as [|fuel IH]; intros token calls Hrun; simpl in Hrun;
    [discriminate|].
  destruct (describeLogGroups r name token) as [data|e0|] eqn:Hd.
  - destruct (logGroups data) as [|g0 gs] eqn:Hl.
    + injection Hrun as <- <-. right. exists data. simpl. tauto.
    + destruct (findLogGroup name (g0 :: gs)); [discriminate|].
      destruct (getLogGroupArn fuel r name (nextToken data))
        as [[cs [x|e1|]]|] eqn:Hrec; try discriminate.
      injection Hrun as <- <-.
      pose proof (IH _ _ Hrec) as Hlast.
      destruct cs as [|c cs];
        [|rewrite (last_cons_default c cs _ token) in Hlast; exact Hlast].
      destruct fuel; simpl in Hrec; [discriminate|].
      destruct (describeLogGroups r name (nextToken data)) as [d|?|];
        [|discriminate..].
      destruct (logGroups d); [discriminate|].
      destruct (findLogGroup name _); [discriminate|].
      destruct (getLogGroupArn fuel r name (nextToken d)) as [[? [?|?|]]|];
        discriminate.
  - injection Hrun as <- <-. left. exact Hd.
  - discriminate.
Qed.

Lemma getLogGroupArn_rejects_from_last_call_witness :
  getLogGroupArn 1 refusedLookup "/app/a" None
    = Some ([None], Rejected (Error "LogGroup not found")) /\
  (describeLogGroups refusedLookup "/app/a" None
     = Rejected (Error "LogGroup not found") \/
   exists data,
     describeLogGroups refusedLookup "/app/a" None = Resolved data /\
     logGroups data = [] /\
     Error "LogGroup not found" = Error "LogGroup not found").
Proof.
  split; [reflexivity|].
  exact (getLogGroupArn_rejects_from_last_call 1 refusedLookup "/app/a" None
           [None] (Error "LogGroup not found") eq_refl).
Defined.

(** X11. A listing whose pages are never empty and never hold the
    requested name is listed without end: whatever the depth allowed,
    [getLogGroupArn] is still calling.  A last page has no continuation
    token, and the call after it starts again from the first page. *)
Theorem getLogGroupArn_lists_without_end (r : aws) (name : string)
    (Hpages : forall token, exists data,
       describeLogGroups r name token = Resolved data /\
       logGroups data <> [] /\
       findLogGroup name (logGroups data) = None)
    (fuel : nat) (token : option string) :
  getLogGroupArn fuel r name token = None.
Proof.
  revert token. induction fuel as [|fuel IH]; intros token; simpl;
    [reflexivity|].
  destruct (Hpages token) as (data & Hd & Hl & Hf). rewrite Hd.
  destruct (logGroups data) as [|g0 gs]; [contradiction|].
  rewrite Hf, IH. reflexivity.
Qed.

Lemma getLogGroupArn_lists_without_end_witness :
  getLogGroupArn 7 prefixOnly "/app/a" None = None /\
  getLogGroupArn 7 prefixOnly "/app/a" (Some "t1") = None.
Proof.
  split; apply (getLogGroupArn_lists_without_end prefixOnly "/app/a");
    intros token; eexists; (split; [reflexivity|]);
    (split; [discriminate | reflexivity]).
Defined.

(** ** The two fragments *)

(** X12. The Permission fragment.  When the logical identifier of the
    function, the region and the ARN are fit for a string literal,
    [compilePermission] resolves with one entry: under the Permission
    identifier of the trigger, a resource of type
    [AWS::Lambda::Permission] that lets the principal
    [logs.<region>.amazonaws.com] invoke the function, referred to by
    the [Arn] attribute of its logical identifier, from the log group of
    the given ARN. *)
Theorem compilePermission_fragment (hst : host) (setting : settingObj)
    (functionName logGroupArn : string) (index : nat)
    (HL : plain (getLambdaLogicalId hst functionName) = true)
    (HR : plain (getRegion hst) = true)
    (HA : plain logGroupArn = true) :
  exists body properties,
    compilePermission hst setting functionName logGroupArn index
      = Resolved (getLambdaPermissionLogicalId hst functionName
                    (to_string (logGroupName setting)) index, body) /\
    get "Type" body = Some (JsStr "AWS::Lambda::Permission") /\
    get "Properties" body = Some properties /\
    get "FunctionName" properties
      = Some (JsObj [("Fn::GetAtt",
                      JsArr [JsStr (getLambdaLogicalId hst functionName);
                             JsStr "Arn"])]) /\
    get "Action" properties = Some (JsStr "lambda:InvokeFunction") /\
    get "Principal" properties
      = Some (JsStr ("logs." +:+ getRegion hst +:+ ".amazonaws.com")) /\
    get "SourceArn" properties = Some (JsStr logGroupArn).
Proof.
  rewrite (compilePermission_plain _ setting _ _ index HL HR HA).
  eexists _, _. repeat split.
Qed.

Lemma compilePermission_fragment_witness :
  exists body properties,
    compilePermission devHost errorsOfA "hello" "arn:lg:a" 0
      = Resolved ("HelloLambdaPermissionAppa0", body) /\
    get "Properties" body = Some properties /\
    get "Principal" properties = Some (JsStr "logs.us-east-1.amazonaws.com") /\
    get "SourceArn" properties = Some (JsStr "arn:lg:a").
Proof.
  destruct (compilePermission_fragment devHost errorsOfA "hello" "arn:lg:a" 0
              eq_refl eq_refl eq_refl)
    as (body & properties & Hc & _ & Hp & _ & _ & Hpr & Hs).
  exists body, properties. repeat split; assumption.
Defined.

(** X13. The SubscriptionFilter fragment.  When the identifiers, the
    stage and the log group name are fit for a string literal and the
    filter pattern has no backslash and no control character,
    [compileSubscriptionFilter] resolves with one entry: under the
    SubscriptionFilter identifier of the trigger, a resource of type
    [AWS::Logs::SubscriptionFilter] whose destination is the [Arn]
    attribute of the function, whose [FilterPattern] is the declared
    pattern, double quotes included, whose [FilterName] is the
    Permission identifier, a dash and the stage of the setting, and
    whose [LogGroupName] is the declared log group name. *)
Theorem compileSubscriptionFilter_fragment (hst : host) (setting : settingObj)
    (functionName : string) (index : nat)
    (HL : plain (getLambdaLogicalId hst functionName) = true)
    (HID : plain (getLambdaPermissionLogicalId hst functionName
                    (to_string (logGroupName setting)) index) = true)
    (HS : plain (to_string (stage setting)) = true)
    (HG : plain (to_string (logGroupName setting)) = true)
    (HP : quotable (to_string (filterPattern setting)) = true) :
  exists body properties,
    compileSubscriptionFilter hst setting functionName index
      = Resolved (getSubscriptionFilterLogicalId hst functionName
                    (to_string (logGroupName setting)) index, body) /\
    get "Type" body = Some (JsStr "AWS::Logs::SubscriptionFilter") /\
    get "Properties" body = Some properties /\
    get "DestinationArn" properties
      = Some (JsObj [("Fn::GetAtt",
                      JsArr [JsStr (getLambdaLogicalId hst functionName);
                             JsStr "Arn"])]) /\
    get "FilterPattern" properties
      = Some (JsStr (to_string (filterPattern setting))) /\
    get "FilterName" properties
      = Some (JsStr (getLambdaPermissionLogicalId hst functionName
                       (to_string (logGroupName setting)) index
                     +:+ "-" +:+ to_string (stage setting))) /\
    get "LogGroupName" properties
      = Some (JsStr (to_string (logGroupName setting))).
Proof.
  rewrite (compileSubscriptionFilter_plain _ _ _ _ HL HID HS HG HP).
  eexists _, _. repeat split.
Qed.

Lemma compileSubscriptionFilter_fragment_witness :
  exists body properties,
    compileSubscriptionFilter devHost errorsOfA "hello" 0
      = Resolved ("HelloSubscriptionFilterAppa0", body) /\
    get "Properties" body = Some properties /\
    get "FilterPattern" properties
      = Some (JsStr ("{ $.level = " +:+ q "error" +:+ " }")) /\
    get "FilterName" properties
      = Some (JsStr "HelloLambdaPermissionAppa0-dev-k3x9q") /\
    get "LogGroupName" properties = Some (JsStr "/app/a").
Proof.
  destruct (compileSubscriptionFilter_fragment devHost errorsOfA "hello" 0
              eq_refl eq_refl eq_refl eq_refl eq_refl)
    as (body & properties & Hc & _ & Hp & _ & Hfp & Hfn & Hlg).
  exists body, properties. repeat split; assumption.
Defined.

(** ** The pipeline of one trigger *)

(** X14. Whatever makes a pipeline fail, the promise of [doCompile]
    rejects with an error of the host's error class that carries the
    message of the cause: the cause is the rejection of the dynamic
    check, of the log group lookup, or of one of the two builders. *)
Theorem doCompile_rejects_with_host_error (fuel : nat) (hst : host)
    (r : aws) (setting : settingObj) (functionName : string) (index : nat)
    (trace : list effect) (e : jserror)
    (Hrun : doCompile fuel hst r setting functionName index
              = Some (trace, Rejected e)) :
  let lg := to_string (logGroupName setting) in
  exists cause,
    e = ServerlessError (err_message cause) /\
    (checkResourceLimitExceeded hst r lg functionName = Rejected cause \/
     (exists tokens,
        getLogGroupArn fuel r lg None = Some (tokens, Rejected cause)) \/
     (exists logGroupArn,
        compilePermission hst setting functionName logGroupArn index
          = Rejected cause) \/
     compileSubscriptionFilter hst setting functionName index
       = Rejected cause).
Proof.
  intros lg. revert Hrun. unfold doCompile, rethrow. fold lg.
  destruct (checkResourceLimitExceeded hst r lg functionName) as [u|e0|];
    [|intros H; injection H as _ <-; exists e0; tauto | discriminate].
  destruct (getLogGroupArn fuel r lg None) as [[tokens [a|e1|]]|];
    [|intros H; injection H as _ <-; exists e1; eauto
     |discriminate|discriminate].
  destruct (compilePermission hst setting functionName a index)
    as [p|e2|] eqn:Hp;
    [|intros H; injection H as _ <-; exists e2; eauto 6 | discriminate].
  destruct (compileSubscriptionFilter hst setting functionName index)
    as [s|e3|];
    [discriminate | intros H; injection H as _ <-; exists e3; tauto
    |discriminate].
Qed.

Lemma doCompile_rejects_with_host_error_witness :
  doCompile 1 devHost refusedLookup errorsOfA "hello" 0
    = Some ([CallDescribeSubscriptionFilters "/app/a";
             CallDescribeStacks "svc-dev"],
            Rejected (ServerlessError "User is not authorized")) /\
  exists cause,
    ServerlessError "User is not authorized"
      = ServerlessError (err_message cause) /\
    (checkResourceLimitExceeded devHost refusedLookup "/app/a" "hello"
       = Rejected cause \/
     (exists tokens,
        getLogGroupArn 1 refusedLookup "/app/a" None
          = Some (tokens, Rejected cause)) \/
     (exists logGroupArn,
        compilePermission devHost errorsOfA "hello" logGroupArn 0
          = Rejected cause) \/
     compileSubscriptionFilter devHost errorsOfA "hello" 0 = Rejected cause).
Proof.
  split; [reflexivity|].
  exact (doCompile_rejects_with_host_error 1 devHost refusedLookup errorsOfA
           "hello" 0 _ (ServerlessError "User is not authorized") eq_refl).
Defined.

(** X15. The order of a pipeline, whatever its end: the two lookups of
    the dynamic check, then the listing calls for the log group name,
    the first of them without a continuation token, then the merges.
    The template is touched only after the last remote call. *)
Theorem doCompile_calls_then_merges (fuel : nat) (hst : host) (r : aws)
    (setting : settingObj) (functionName : string) (index : nat)
    (trace : list effect) (o : outcome unit)
    (Hrun : doCompile fuel hst r setting functionName index = Some (trace, o)) :
  let lg := to_string (logGroupName setting) in
  exists tokens merges,
    trace = [CallDescribeSubscriptionFilters lg;
             CallDescribeStacks (getStackName hst)] ++
            map (CallDescribeLogGroups lg) tokens ++
            map MergeResource merges /\
    (tokens = [] \/ exists later, tokens = None :: later) /\
    (tokens = [] -> merges = []).
Proof.
  intros lg. revert Hrun. unfold doCompile, rethrow. fold lg.
  assert (Hstart : forall tokens found,
            getLogGroupArn fuel r lg None = Some (tokens, found) ->
            exists later, tokens = None :: later).
  { intros tokens found H. destruct fuel as [|n]; simpl in H; [discriminate|].
    destruct (describeLogGroups r lg None) as [data|?|];
      [|injection H as <- _; eauto..].
    destruct (logGroups data); [injection H as <- _; eauto|].
    destruct (findLogGroup lg _); [injection H as <- _; eauto|].
    destruct (getLogGroupArn n r lg (nextToken data)) as [[cs [?|?|]]|];
      [injection H as <- _; eauto.. | discriminate]. }
  assert (Hne : forall later : list (option string),
            None :: later = [] -> forall m : list (string * json), m = [])
    by discriminate.
  destruct (checkResourceLimitExceeded hst r lg functionName) as [u|e0|];
    [|intros H; injection H as <- _; exists [], []; simpl; tauto..].
  destruct (getLogGroupArn fuel r lg None) as [[tokens found]|] eqn:Hg;
    [|discriminate].
  destruct (Hstart _ _ eq_refl) as [later ->].
  destruct found as [a|e1|];
    [|intros H; injection H as <- _; exists (None :: later), [];
      rewrite List.app_nil_r; eauto 6..].
  destruct (compilePermission hst setting functionName a index) as [p|e2|];
    [|intros H; injection H as <- _; exists (None :: later), [];
      rewrite List.app_nil_r; eauto 6..].
  destruct (compileSubscriptionFilter hst setting functionName index)
    as [s|e3|]; intros H; injection H as <- _.
  - exists (None :: later), [p; s]. split; [|eauto].
    simpl. do 3 f_equal. symmetry.
    exact (List.app_assoc _ [MergeResource p] [MergeResource s]).
  - exists (None :: later), [p]. split; [|eauto]. reflexivity.
  - exists (None :: later), [p]. split; [|eauto]. reflexivity.
Qed.

Lemma doCompile_calls_then_merges_witness :
  exists tokens merges,
    doCompile 1 devHost firstDeployment errorsOfA "hello" 0
      = Some ([CallDescribeSubscriptionFilters "/app/a";
               CallDescribeStacks "svc-dev"] ++
              map (CallDescribeLogGroups "/app/a") tokens ++
              map MergeResource merges, Resolved tt) /\
    (tokens = [] \/ exists later, tokens = None :: later).
Proof.
  destruct (doCompile_calls_then_merges 1 devHost firstDeployment errorsOfA
              "hello" 0 _ _ eq_refl)
    as (tokens & merges & Ht & Hs & _).
  exists tokens, merges. split; [|exact Hs].
  exact (eq_trans eq_refl (f_equal (fun t => Some (t, Resolved tt)) Ht)).
Defined.

Lemma apply_effects_app (resources : gmap string json) (a b : list effect) :
  apply_effects resources (a ++ b) = apply_effects (apply_effects resources a) b.
Proof. unfold apply_effects. apply List.fold_left_app. Qed.

Lemma apply_effects_listing (resources : gmap string json) (lg : string)
    (tokens : list (option string)) :
  apply_effects resources (map (CallDescribeLogGroups lg) tokens) = resources.
Proof.
  apply apply_effects_calls. induction tokens as [|t ts IH]; [reflexivity|].
  exact IH.
Qed.

(** X16. A pipeline changes the template at its own two identifiers
    and nowhere else; a pipeline that does not complete leaves also the
    entry of its SubscriptionFilter identifier as it was: what it may
    leave behind is the Permission fragment alone. *)
Theorem doCompile_touches_only_its_ids (fuel : nat) (hst : host) (r : aws)
    (setting : settingObj) (functionName : string) (index : nat)
    (trace : list effect) (o : outcome unit)
    (resources : gmap string json) (k : string)
    (Hrun : doCompile fuel hst r setting functionName index = Some (trace, o))
    (Hperm : k <> getLambdaPermissionLogicalId hst functionName
                    (to_string (logGroupName setting)) index)
    (Hfilter : k <> getSubscriptionFilterLogicalId hst functionName
                      (to_string (logGroupName setting)) index
               \/ o <> Resolved tt) :
  apply_effects resources trace !! k = resources !! k.
Proof.
  revert Hrun. unfold doCompile, rethrow.
  set (lg := to_string (logGroupName setting)) in *.
  destruct (checkResourceLimitExceeded hst r lg functionName) as [u|e0|];
    [|intros H; injection H as <- _; reflexivity..].
  destruct (getLogGroupArn fuel r lg None) as [[tokens found]|];
    [|discriminate].
  assert (Hcalls : forall rest,
            apply_effects resources
              (([CallDescribeSubscriptionFilters lg;
                 CallDescribeStacks (getStackName hst)] ++
                map (CallDescribeLogGroups lg) tokens) ++ rest)
            = apply_effects resources rest).
  { intros rest. rewrite !apply_effects_app, apply_effects_listing.
    reflexivity. }
  assert (Hnone : apply_effects resources
                    ([CallDescribeSubscriptionFilters lg;
                      CallDescribeStacks (getStackName hst)] ++
                     map (CallDescribeLogGroups lg) tokens) = resources).
  { rewrite <- (List.app_nil_r (_ ++ _)). apply Hcalls. }
  destruct found as [a|e1|];
    [|intros H; injection H as <- _;
      exact (f_equal (fun m => m !! k) Hnone)..].
  destruct (compilePermission hst setting functionName a index) as [p|e2|]
    eqn:Hp;
    [|intros H; injection H as <- _;
      exact (f_equal (fun m => m !! k) Hnone)..].
  apply compilePermission_key in Hp. fold lg in Hp.
  assert (Hone : apply_effects resources
                   (([CallDescribeSubscriptionFilters lg;
                      CallDescribeStacks (getStackName hst)] ++
                     map (CallDescribeLogGroups lg) tokens) ++
                    [MergeResource p]) !! k = resources !! k).
  { rewrite Hcalls. simpl. apply merge_lookup_ne. rewrite Hp. exact Hperm. }
  destruct (compileSubscriptionFilter hst setting functionName index)
    as [s|e3|] eqn:Hs;
    [|intros H; injection H as <- _; exact Hone..].
  apply compileSubscriptionFilter_key in Hs. fold lg in Hs.
  intros H. injection H as <- <-.
  destruct Hfilter as [Hfilter|Hfail]; [|contradiction].
  change (apply_effects resources
            ((([CallDescribeSubscriptionFilters lg;
                CallDescribeStacks (getStackName hst)] ++
               map (CallDescribeLogGroups lg) tokens) ++
              [MergeResource p]) ++ [MergeResource s]) !! k
          = resources !! k).
  rewrite apply_effects_app. simpl. rewrite merge_lookup_ne; [exact Hone|].
  rewrite Hs. exact Hfilter.
Qed.

Lemma doCompile_touches_only_its_ids_witness :
  apply_effects (∅ : gmap string json)
    [CallDescribeSubscriptionFilters "/app/a"; CallDescribeStacks "svc-dev";
     CallDescribeLogGroups "/app/a" None;
     MergeResource
       ("HelloLambdaPermissionAppa0",
        permissionResource "HelloLambdaFunction" "us-east-1" "arn:lg:a")]
    !! "HelloSubscriptionFilterAppa0"
  = (∅ : gmap string json) !! "HelloSubscriptionFilterAppa0".
Proof.
  apply (doCompile_touches_only_its_ids 1 devHost firstDeployment digitsOfA
           "hello" 0 _ (Rejected (ServerlessError "Unexpected token in JSON"))).
  - vm_compute. reflexivity.
  - vm_compute. discriminate.
  - right. discriminate.
Defined.

(** X17. A log group whose first subscription filter has a destination
    other than the one reconstructed for the function stops the
    pipeline at the dynamic check: it has made the two lookups, it lists
    no log group and merges nothing, and it rejects with the quota error
    of the log group in the host's error class. *)
Theorem doCompile_stops_at_occupied_log_group (fuel : nat) (hst : host)
    (r : aws) (setting : settingObj) (functionName : string) (index : nat)
    (d g : jsval)
    (Hd : getSubscriptionFilterDestinationArn r
            (to_string (logGroupName setting)) = Resolved d)
    (Hg : guessSubscriptionFilterDestinationArn hst r
            (to_string (logGroupName setting))
            (buildLambdaFunctionName hst functionName) = Resolved g)
    (Hset : truthy d = true)
    (Hother : d <> g) :
  doCompile fuel hst r setting functionName index
  = Some ([CallDescribeSubscriptionFilters (to_string (logGroupName setting));
           CallDescribeStacks (getStackName hst)],
          Rejected (ServerlessError
                      (checkMessage (to_string (logGroupName setting))))).
Proof.
  unfold doCompile, checkResourceLimitExceeded. rewrite Hd, Hg. simpl.
  unfold compareDestinations. rewrite Hset.
  rewrite (proj2 (strict_eq_false d g) Hother). reflexivity.
Qed.

Lemma doCompile_stops_at_occupied_log_group_witness :
  doCompile 0 devHost (deployed "arn:fn:other" "arn:fn:hello") errorsOfA
    "hello" 0
  = Some ([CallDescribeSubscriptionFilters "/app/a";
           CallDescribeStacks "svc-dev"],
          Rejected (ServerlessError (checkMessage "/app/a"))).
Proof.
  apply (doCompile_stops_at_occupied_log_group 0 devHost
           (deployed "arn:fn:other" "arn:fn:hello") errorsOfA "hello" 0
           (JString "arn:fn:other") (JString "arn:fn:hello"));
    [reflexivity | reflexivity | reflexivity | discriminate].
Defined.

(** ** The hook, on every service *)

Lemma validateSettings_true (h : gmap loc settingObj) (v : jsval) :
  validateSettings h v = Return true <->
  exists l, v = JObject l /\
    badField (stage (getObj h l)) = false /\
    badField (logGroupName (getObj h l)) = false /\
    badField (filterPattern (getObj h l)) = false.
Proof.
  unfold validateSettings. split.
  - destruct (truthy v) eqn:Ht; simpl; [|discriminate].
    destruct v as [| |b|n|s|l]; simpl; try discriminate.
    destruct (badField (stage (getObj h l))) eqn:H1; [discriminate|].
    destruct (badField (logGroupName (getObj h l))) eqn:H2; [discriminate|].
    destruct (badField (filterPattern (getObj h l))) eqn:H3; [discriminate|].
    intros _. exists l. tauto.
  - intros (l & -> & H1 & H2 & H3). simpl. rewrite H1, H2, H3. reflexivity.
Qed.

Lemma validateSettings_false (h : gmap loc settingObj) (v : jsval) :
  validateSettings h v = Return false <-> truthy v = false.
Proof.
  unfold validateSettings. destruct (truthy v); simpl.
  - split; [|discriminate].
    destruct (badField (prop stage h v)); [discriminate|].
    destruct (badField (prop logGroupName h v)); [discriminate|].
    destruct (badField (prop filterPattern h v)); discriminate.
  - tauto.
Qed.

Lemma badField_stage_nonempty (s : string) :
  badField (JString s) = false -> s <> "".
Proof. intros H ->. discriminate. Qed.

(** One event, in full: what the callback returns and why. *)
Lemma eachEvent_step (hst : host) (random : nat -> string) (f : string)
    (i : nat) (e : event) (st st' : loopState) (thrown : option jserror) :
  eachEvent hst random f i e st = (st', thrown) ->
  (st' = st /\ exists err, thrown = Some err /\
     validateSettings (st_store st) (subscriptionFilter e) = Throw err) \/
  (st' = st /\ thrown = None /\ truthy (subscriptionFilter e) = false) \/
  (st' = st /\ thrown = None /\
   validateSettings (st_store st) (subscriptionFilter e) = Return true /\
   prop stage (st_store st) (subscriptionFilter e) <> JString (getStage hst)) \/
  (thrown = None /\
   validateSettings (st_store st) (subscriptionFilter e) = Return true /\
   exists l,
     subscriptionFilter e = JObject l /\
     stage (getObj (st_store st) l) = JString (getStage hst) /\
     st' =
       {| st_store :=
            <[l := {| stage := JString (getStage hst +:+ "-" +:+
                                        random (st_draws st));
                      logGroupName := logGroupName (getObj (st_store st) l);
                      filterPattern := filterPattern (getObj (st_store st) l) |}]>
              (st_store st);
          st_tasks :=
            st_tasks st ++
            [{| t_function := f; t_index := i; t_setting := l |}];
          st_draws := S (st_draws st) |}).
Proof.
  unfold eachEvent.
  destruct (validateSettings (st_store st) (subscriptionFilter e))
    as [[|]|err] eqn:Hv.
  - destruct (strict_eq _ _) eqn:Heq; simpl; intros H; injection H as <- <-.
    + apply strict_eq_true in Heq. right. right. right.
      split; [reflexivity|]. split; [reflexivity|].
      destruct (subscriptionFilter e) as [| |b|n|s|l]; try discriminate Heq.
      exists l. simpl in Heq. tauto.
    + apply strict_eq_false in Heq. right. right. left. tauto.
  - intros H. injection H as <- <-. right. left.
    apply validateSettings_false in Hv. tauto.
  - intros H. injection H as <- <-. left. eauto.
Qed.

Lemma reached_initial (hst : host) (random : nat -> string)
    (h : gmap loc settingObj) :
  reached hst random h {| st_store := h; st_tasks := []; st_draws := 0 |}.
Proof. intros l. left. reflexivity. Qed.

Lemma eachEvent_reached (hst : host) (random : nat -> string)
    (h : gmap loc settingObj) (f : string) (i : nat) (e : event)
    (st st' : loopState) (thrown : option jserror) :
  reached hst random h st ->
  eachEvent hst random f i e st = (st', thrown) ->
  reached hst random h st'.
Proof.
  intros Hr H.
  apply eachEvent_step in H
    as [[-> _]|[[-> _]|[[-> _]|(_ & Hv & l0 & Hsf & Hst & ->)]]];
    try exact Hr.
  apply validateSettings_true in Hv as (l1 & Hl1 & Hb & _).
  assert (l1 = l0) as -> by congruence.
  rewrite Hst in Hb. apply badField_stage_nonempty in Hb.
  intros l. simpl. rewrite getObj_insert.
  destruct (decide (l0 = l)) as [<-|Hne].
  - right. destruct (Hr l0) as [Hsame|(_ & _ & n & t & _ & Hobj & _)].
    + rewrite Hsame in Hst |- *. split; [exact Hst|]. split; [exact Hb|].
      exists (st_draws st), {| t_function := f; t_index := i; t_setting := l0 |}.
      split; [lia|]. split; [reflexivity|]. split; [|reflexivity].
      apply List.in_or_app. right. left. reflexivity.
    + rewrite Hobj in Hst. simpl in Hst. injection Hst as Hst.
      exfalso. exact (suffixed_differs _ _ Hst).
  - destruct (Hr l) as [Hsame|(H1 & H2 & n & t & Hn & Hobj & Hin & Ht)];
      [left; exact Hsame|].
    right. split; [exact H1|]. split; [exact H2|]. exists n, t.
    split; [lia|]. split; [exact Hobj|]. split; [|exact Ht].
    apply List.in_or_app. left. exact Hin.
Qed.

Lemma eachTrigger_reached (hst : host) (random : nat -> string)
    (h : gmap loc settingObj) (ts : list (string * nat * event))
    (st st' : loopState) (thrown : option jserror) :
  reached hst random h st ->
  eachTrigger hst random ts st = (st', thrown) ->
  reached hst random h st'.
Proof.
  revert st. induction ts as [|[[f i] e] ts IH]; intros st Hr; simpl.
  - intros H. injection H as <- _. exact Hr.
  - destruct (eachEvent hst random f i e st) as [st1 [err|]] eqn:H1.
    + intros H. injection H as <- _.
      exact (eachEvent_reached _ _ _ _ _ _ _ _ _ Hr H1).
    + apply IH. exact (eachEvent_reached _ _ _ _ _ _ _ _ _ Hr H1).
Qed.

Lemma startPipelines_loops (hst : host) (random : nat -> string)
    (h : gmap loc settingObj) (svc : service) (st : loopState)
    (thrown : option jserror) :
  startPipelines hst random h svc = (st, thrown) ->
  (st = {| st_store := h; st_tasks := []; st_draws := 0 |} /\
   exists err, thrown = Some err /\
     preCheckResourceLimitExceeded h svc = Throw err) \/
  (preCheckResourceLimitExceeded h svc = Return tt /\
   eachTrigger hst random (triggers svc)
     {| st_store := h; st_tasks := []; st_draws := 0 |} = (st, thrown)).
Proof.
  unfold startPipelines.
  destruct (preCheckResourceLimitExceeded h svc) as [[]|err].
  - rewrite eachFunction_triggers. intros H. right. tauto.
  - intros H. injection H as <- <-. left. eauto.
Qed.

Lemma startPipelines_reached (hst : host) (random : nat -> string)
    (h : gmap loc settingObj) (svc : service) (st : loopState)
    (thrown : option jserror) :
  startPipelines hst random h svc = (st, thrown) ->
  reached hst random h st.
Proof.
  intros H. apply startPipelines_loops in H as [[-> _]|[_ H]].
  - apply reached_initial.
  - exact (eachTrigger_reached _ _ _ _ _ _ _ (reached_initial _ _ _) H).
Qed.

(** X18. The loops of the hook assign to the [stage] of setting
    objects and to nothing else.  After the synchronous part of the
    hook, thrown or not, every object has the log group name and the
    filter pattern it had; its stage is the one it had, or the object
    was declared for the stage of the deployment, a pipeline has been
    started on it, and its stage is that stage, a dash and the text of
    one of the draws. *)
Theorem loops_assign_only_stage (hst : host) (random : nat -> string)
    (h : gmap loc settingObj) (svc : service) (st : loopState)
    (thrown : option jserror) (l : loc)
    (Hrun : startPipelines hst random h svc = (st, thrown)) :
  logGroupName (getObj (st_store st) l) = logGroupName (getObj h l) /\
  filterPattern (getObj (st_store st) l) = filterPattern (getObj h l) /\
  (stage (getObj (st_store st) l) = stage (getObj h l) \/
   (stage (getObj h l) = JString (getStage hst) /\
    exists n t,
      n < st_draws st /\
      stage (getObj (st_store st) l)
        = JString (getStage hst +:+ "-" +:+ random n) /\
      In t (st_tasks st) /\ t_setting t = l)).
Proof.
  destruct (startPipelines_reached _ _ _ _ _ _ Hrun l)
    as [->|(Hst & _ & n & t & Hn & -> & Hin & Ht)].
  - tauto.
  - simpl. split; [reflexivity|]. split; [reflexivity|]. right.
    split; [exact Hst|]. exists n, t. tauto.
Qed.

Lemma loops_assign_only_stage_witness :
  exists st,
    startPipelines devHost noRandom devAndProd helloTwo = (st, None) /\
    getObj (st_store st) 0
      = {| stage := JString "dev-k3x9q"; logGroupName := JString "/app/a";
           filterPattern := JString "ERROR" |} /\
    getObj (st_store st) 1 = getObj devAndProd 1 /\
    logGroupName (getObj (st_store st) 0) = logGroupName (getObj devAndProd 0) /\
    filterPattern (getObj (st_store st) 0) = filterPattern (getObj devAndProd 0).
Proof.
  eexists. split; [vm_compute; reflexivity|].
  split; [reflexivity|]. split; [reflexivity|].
  destruct (loops_assign_only_stage devHost noRandom devAndProd helloTwo _ None
              0 eq_refl) as (Hlg & Hfp & _).
  split; [exact Hlg | exact Hfp].
Defined.

(** X19. A service without subscription filter events, an empty service
    included: the hook makes no remote call, starts no pipeline, and
    returns a promise that is resolved. *)
Theorem hook_without_triggers (fuel : nat) (hst : host) (r : aws)
    (random : nat -> string) (h : gmap loc settingObj) (svc : service)
    (Hnone : forall f es e, In (f, es) svc -> In e es ->
               truthy (subscriptionFilter e) = false) :
  compileSubscriptionFilterEvents fuel hst r random h svc
    = Some ([], Return (Resolved tt)).
Proof.
  assert (Hnames : declaredLogGroupNames h svc = []).
  { unfold declaredLogGroupNames.
    replace (filter _ (flat_map snd svc)) with (@nil event); [reflexivity|].
    symmetry. induction svc as [|[f es] svc IH]; [reflexivity|].
    simpl. rewrite filter_app, IH.
    - rewrite List.app_nil_r.
      assert (Hes : forall e, In e es -> truthy (subscriptionFilter e) = false).
      { intros e He. apply (Hnone f es e); [left; reflexivity | exact He]. }
      clear -Hes. induction es as [|e es IH]; [reflexivity|].
      rewrite filter_cons_False.
      + apply IH. intros e' He'. apply Hes. right. exact He'.
      + rewrite (Hes e); [discriminate | left; reflexivity].
    - intros f' es' e' Hin. apply (Hnone f' es' e'). right. exact Hin. }
  assert (Hloop : forall ts st,
            (forall f i e, In (f, i, e) ts ->
               truthy (subscriptionFilter e) = false) ->
            eachTrigger hst random ts st = (st, None)).
  { induction ts as [|[[f i] e] ts IH]; intros st Hts; [reflexivity|].
    simpl. unfold eachEvent.
    rewrite (proj2 (validateSettings_false _ _)
               (Hts f i e (or_introl eq_refl))).
    apply IH. intros f' i' e' Hin. apply (Hts f' i'). right. exact Hin. }
  unfold compileSubscriptionFilterEvents, startPipelines,
    preCheckResourceLimitExceeded.
  rewrite Hnames, eachFunction_triggers, Hloop; [reflexivity|].
  intros f i e Hin. apply In_triggers in Hin as (es & Hin & Hnth).
  apply (Hnone f es e Hin). exact (List.nth_error_In _ _ Hnth).
Qed.

Lemma hook_without_triggers_witness :
  compileSubscriptionFilterEvents 0 devHost refusedLookup noRandom ∅
    [("hello", [{| subscriptionFilter := JUndefined |}]); ("bye", [])]
  = Some ([], Return (Resolved tt)).
Proof.
  apply hook_without_triggers.
  intros f es e [H|[H|[]]]; injection H as <- <-; [|intros []].
  intros [<-|[]]. reflexivity.
Defined.

Lemma reached_valid (hst : host) (random : nat -> string)
    (h : gmap loc settingObj) (st : loopState) (v : jsval) :
  reached hst random h st ->
  validateSettings (st_store st) v = Return true ->
  validateSettings h v = Return true.
Proof.
  intros Hr Hv. apply validateSettings_true in Hv as (l & -> & H1 & H2 & H3).
  apply validateSettings_true. exists l. split; [reflexivity|].
  destruct (Hr l) as [Hsame|(Hst & Hne & n & t & _ & Hobj & _)].
  - rewrite <- Hsame. tauto.
  - rewrite Hobj in H2, H3. simpl in H2, H3. rewrite Hst.
    split; [|tauto]. destruct (getStage hst); [contradiction | reflexivity].
Qed.

Lemma eachTrigger_validated (hst : host) (random : nat -> string)
    (h : gmap loc settingObj) (ts : list (string * nat * event))
    (st st' : loopState) :
  reached hst random h st ->
  eachTrigger hst random ts st = (st', None) ->
  forall f i e, In (f, i, e) ts ->
    truthy (subscriptionFilter e) = true ->
    validateSettings h (subscriptionFilter e) = Return true.
Proof.
  revert st. induction ts as [|[[f0 i0] e0] ts IH]; intros st Hr H f i e Hin Ht;
    [contradiction|].
  simpl in H.
  destruct (eachEvent hst random f0 i0 e0 st) as [st1 [err|]] eqn:H1;
    [discriminate|].
  destruct Hin as [Heq|Hin].
  - injection Heq as -> -> ->.
    apply eachEvent_step in H1
      as [(_ & err & Herr & _)|[(_ & _ & Hf)|[(_ & _ & Hv & _)|(_ & Hv & _)]]].
    + discriminate.
    + rewrite Hf in Ht. discriminate.
    + exact (reached_valid _ _ _ _ _ Hr Hv).
    + exact (reached_valid _ _ _ _ _ Hr Hv).
  - exact (IH st1 (eachEvent_reached _ _ _ _ _ _ _ _ _ Hr H1) H f i e Hin Ht).
Qed.

Lemma hook_returns (fuel : nat) (hst : host) (r : aws)
    (random : nat -> string) (h : gmap loc settingObj) (svc : service)
    (ps : list (task * (list effect * outcome unit))) (o : outcome unit) :
  compileSubscriptionFilterEvents fuel hst r random h svc
    = Some (ps, Return o) ->
  exists st,
    startPipelines hst random h svc = (st, None) /\
    pipelines fuel hst r (st_store st) (st_tasks st) = Some ps /\
    o = allSettled (map (fun p => snd (snd p)) ps).
Proof.
  unfold compileSubscriptionFilterEvents.
  destruct (startPipelines hst random h svc) as [st thrown] eqn:Hs.
  destruct (pipelines fuel hst r (st_store st) (st_tasks st)) as [ps'|] eqn:Hp;
    [|discriminate].
  destruct thrown as [err|]; [discriminate|].
  intros H. injection H as <- <-. exists st. tauto.
Qed.

(** X20. The hook validates the triggers of every stage.  When it
    returns its promise, every event with a subscription filter, be it
    declared for the stage of the deployment or for another one, has a
    setting whose stage, log group name and filter pattern were
    non-empty strings when the hook began: a trigger of another stage
    that lacks a field makes the hook throw. *)
Theorem hook_validates_every_stage (fuel : nat) (hst : host) (r : aws)
    (random : nat -> string) (h : gmap loc settingObj) (svc : service)
    (ps : list (task * (list effect * outcome unit))) (o : outcome unit)
    (f : string) (i : nat) (e : event)
    (Hrun : compileSubscriptionFilterEvents fuel hst r random h svc
              = Some (ps, Return o))
    (Hin : In (f, i, e) (triggers svc))
    (Hdeclared : truthy (subscriptionFilter e) = true) :
  validateSettings h (subscriptionFilter e) = Return true /\
  nonEmptyString (stageOf h (subscriptionFilter e)) /\
  nonEmptyString (logGroupNameOf h (subscriptionFilter e)) /\
  nonEmptyString (filterPatternOf h (subscriptionFilter e)).
Proof.
  apply hook_returns in Hrun as (st & Hstart & _).
  apply startPipelines_loops in Hstart as [(_ & err & Herr & _)|[_ Hloop]];
    [discriminate|].
  pose proof (eachTrigger_validated _ _ _ _ _ _ (reached_initial _ _ _) Hloop
                f i e Hin Hdeclared) as Hv.
  split; [exact Hv|].
  apply validateSettings_true in Hv as (l & -> & H1 & H2 & H3).
  unfold stageOf, logGroupNameOf, filterPatternOf. simpl.
  rewrite <- !badField_false. tauto.
Qed.

Lemma hook_validates_every_stage_witness :
  exists ps o,
    compileSubscriptionFilterEvents 1 devHost firstDeployment noRandom
      devAndProd helloTwo = Some (ps, Return o) /\
    stageOf devAndProd (JObject 1) = JString "prod" /\
    validateSettings devAndProd (JObject 1) = Return true.
Proof.
  eexists _, _. split; [vm_compute; reflexivity|]. split; [reflexivity|].
  refine (proj1 (hook_validates_every_stage 1 devHost firstDeployment noRandom
                   devAndProd helloTwo _ _ "hello" 1
                   {| subscriptionFilter := JObject 1 |} _ _ eq_refl)).
  - vm_compute. reflexivity.
  - simpl. tauto.
Defined.

Lemma validateSettings_getObj (h h' : gmap loc settingObj) (l : loc) :
  getObj h' l = getObj h l ->
  validateSettings h' (JObject l) = validateSettings h (JObject l).
Proof. intros H. unfold validateSettings. simpl. rewrite H. reflexivity. Qed.

(** After loops that have not thrown, no trigger is left to start: the
    setting of every declared trigger is valid, and its stage is not
    the stage of the deployment. *)
Lemma eachTrigger_settled (hst : host) (random : nat -> string)
    (ts : list (string * nat * event)) (st st' : loopState) :
  eachTrigger hst random ts st = (st', None) ->
  forall f i e, In (f, i, e) ts ->
    truthy (subscriptionFilter e) = true ->
    validateSettings (st_store st') (subscriptionFilter e) = Return true /\
    prop stage (st_store st') (subscriptionFilter e) <> JString (getStage hst).
Proof.
  revert st. induction ts as [|[[f0 i0] e0] ts IH]; intros st H f i e Hin Ht;
    [contradiction|].
  simpl in H.
  destruct (eachEvent hst random f0 i0 e0 st) as [st1 [err|]] eqn:H1;
    [discriminate|].
  destruct Hin as [Heq|Hin]; [|exact (IH st1 H f i e Hin Ht)].
  injection Heq as -> -> ->.
  assert (Hnow : validateSettings (st_store st1) (subscriptionFilter e)
                   = Return true /\
                 prop stage (st_store st1) (subscriptionFilter e)
                   <> JString (getStage hst)).
  { apply eachEvent_step in H1
      as [(_ & err & Herr & _)|[(_ & _ & Hf)|[(-> & _ & Hv & Hne)
         |(_ & Hv & l & Hsf & Hst & ->)]]].
    - discriminate.
    - rewrite Hf in Ht. discriminate.
    - tauto.
    - rewrite Hsf in Hv |- *. simpl st_store.
      apply validateSettings_true in Hv as (l' & Hl' & Hb1 & Hb2 & Hb3).
      injection Hl' as <-. split.
      + apply validateSettings_true. exists l. split; [reflexivity|].
        rewrite getObj_insert. destruct (decide (l = l)); [|contradiction].
        simpl. split; [|tauto]. rewrite Hst in Hb1.
        destruct (getStage hst); [discriminate Hb1 | reflexivity].
      + simpl. rewrite getObj_insert.
        destruct (decide (l = l)); [|contradiction]. simpl.
        intros Heq. injection Heq as Heq. exact (suffixed_differs _ _ Heq). }
  destruct Hnow as [Hv Hne].
  pose proof Hv as Hl. apply validateSettings_true in Hl as (l & Hsf & _).
  rewrite Hsf in *. simpl in Hne.
  assert (Hkept : getObj (st_store st') l = getObj (st_store st1) l).
  { apply (eachTrigger_keeps _ _ _ _ _ _ l H). left. exact Hne. }
  split.
  - rewrite (validateSettings_getObj _ _ _ Hkept). exact Hv.
  - simpl. rewrite Hkept. exact Hne.
Qed.

Lemma eachTrigger_idle (hst : host) (random : nat -> string)
    (ts : list (string * nat * event)) (st : loopState) :
  (forall f i e, In (f, i, e) ts ->
     truthy (subscriptionFilter e) = true ->
     validateSettings (st_store st) (subscriptionFilter e) = Return true /\
     prop stage (st_store st) (subscriptionFilter e) <> JString (getStage hst)) ->
  eachTrigger hst random ts st = (st, None).
Proof.
  induction ts as [|[[f i] e] ts IH]; intros Hts; [reflexivity|].
  simpl.
  assert (H1 : eachEvent hst random f i e st = (st, None)).
  { unfold eachEvent.
    destruct (truthy (subscriptionFilter e)) eqn:Ht.
    - destruct (Hts f i e (or_introl eq_refl) Ht) as [Hv Hne].
      rewrite Hv. apply strict_eq_false in Hne. rewrite Hne. reflexivity.
    - rewrite (proj2 (validateSettings_false _ _) Ht). reflexivity. }
  rewrite H1. apply IH. intros f' i' e' Hin. apply (Hts f' i'). right.
  exact Hin.
Qed.

(** X21. The hook works once on a service.  The loops write the
    suffixed stage into the setting objects, so after a synchronous part
    that has not thrown, no setting carries the stage of the deployment
    any more: a second run of the hook on the same service, against any
    deployed state, starts no pipeline, makes no remote call, and
    returns a resolved promise. *)
Theorem hook_second_run_starts_nothing (hst : host) (random : nat -> string)
    (h : gmap loc settingObj) (svc : service) (st : loopState)
    (Hfirst : startPipelines hst random h svc = (st, None))
    (fuel : nat) (r : aws) (random' : nat -> string) :
  compileSubscriptionFilterEvents fuel hst r random' (st_store st) svc
    = Some ([], Return (Resolved tt)).
Proof.
  pose proof (startPipelines_reached _ _ _ _ _ _ Hfirst) as Hr.
  apply startPipelines_loops in Hfirst as [(_ & err & Herr & _)|[Hpre Hloop]];
    [discriminate|].
  assert (Hnames : declaredLogGroupNames (st_store st) svc
                   = declaredLogGroupNames h svc).
  { apply declaredLogGroupNames_ext. intros l.
    destruct (Hr l) as [->|(_ & _ & n & t & _ & -> & _)]; reflexivity. }
  unfold compileSubscriptionFilterEvents, startPipelines,
    preCheckResourceLimitExceeded.
  unfold preCheckResourceLimitExceeded in Hpre. rewrite Hnames, Hpre.
  rewrite eachFunction_triggers, eachTrigger_idle; [reflexivity|].
  intros f i e Hin Ht. exact (eachTrigger_settled _ _ _ _ _ Hloop f i e Hin Ht).
Qed.

Lemma hook_second_run_starts_nothing_witness :
  exists st,
    startPipelines devHost noRandom devAndProd helloTwo = (st, None) /\
    st_tasks st = [{| t_function := "hello"; t_index := 0; t_setting := 0 |}] /\
    compileSubscriptionFilterEvents 1 devHost firstDeployment noRandom
      (st_store st) helloTwo = Some ([], Return (Resolved tt)).
Proof.
  eexists. split; [vm_compute; reflexivity|]. split; [reflexivity|].
  apply (hook_second_run_starts_nothing devHost noRandom devAndProd helloTwo).
  vm_compute. reflexivity.
Defined.

Lemma eachTrigger_order (hst : host) (random : nat -> string)
    (ts : list (string * nat * event)) (st st' : loopState)
    (thrown : option jserror) :
  eachTrigger hst random ts st = (st', thrown) ->
  exists new,
    st_tasks st' = st_tasks st ++ new /\
    st_draws st' = st_draws st + length new /\
    sublist (map (fun t => (t_function t, t_index t)) new) (map fst ts).
Proof.
  revert st. induction ts as [|[[f i] e] ts IH]; intros st; simpl.
  - intros H. injection H as <- _. exists []. rewrite List.app_nil_r.
    split; [reflexivity|]. split; [simpl; lia | constructor].
  - destruct (eachEvent hst random f i e st) as [st1 thrown1] eqn:H1.
    assert (Hhead : exists new1,
              st_tasks st1 = st_tasks st ++ new1 /\
              st_draws st1 = st_draws st + length new1 /\
              sublist (map (fun t => (t_function t, t_index t)) new1) [(f, i)]).
    { apply eachEvent_step in H1
        as [[-> _]|[[-> _]|[[-> _]|(_ & _ & l & _ & _ & ->)]]].
      1-3: exists []; rewrite List.app_nil_r; simpl;
           split; [reflexivity | split; [lia | apply sublist_nil_l]].
      eexists. split; [reflexivity|]. simpl. split; [lia | reflexivity]. }
    destruct Hhead as (new1 & Ht1 & Hd1 & Hs1).
    destruct thrown1 as [err|].
    + intros H. injection H as <- _. exists new1.
      split; [exact Ht1|]. split; [exact Hd1|].
      rewrite <- (List.app_nil_r (map _ new1)).
      apply (sublist_app _ [(f, i)] [] (map fst ts) Hs1), sublist_nil_l.
    + intros H. destruct (IH st1 H) as (new2 & Ht2 & Hd2 & Hs2).
      exists (new1 ++ new2). split; [|split].
      * rewrite Ht2, Ht1, List.app_assoc. reflexivity.
      * rewrite Hd2, Hd1, List.length_app. lia.
      * rewrite List.map_app.
        exact (sublist_app _ [(f, i)] _ (map fst ts) Hs1 Hs2).
Qed.

(** X22. The pipelines are started in the order of the triggers, the
    functions in the order of the service and the events of a function
    in their order, and no trigger starts more than one: the functions
    and positions of the started pipelines, in the order they were
    started, are a subsequence of those of the triggers.  This holds
    also of the pipelines started before a throw. *)
Theorem hook_pipelines_follow_triggers (fuel : nat) (hst : host) (r : aws)
    (random : nat -> string) (h : gmap loc settingObj) (svc : service)
    (ps : list (task * (list effect * outcome unit)))
    (res : result (outcome unit))
    (Hrun : compileSubscriptionFilterEvents fuel hst r random h svc
              = Some (ps, res)) :
  sublist (map taskKey ps) (map fst (triggers svc)).
Proof.
  apply hook_run in Hrun as [[-> _]|(st & thrown & Hloop & Hps & _)];
    [apply sublist_nil_l|].
  destruct (pipelines_spec _ _ _ _ _ _ Hps) as (Hmap & _).
  destruct (eachTrigger_order _ _ _ _ _ _ Hloop) as (new & Hnew & _ & Hsub).
  simpl in Hnew. subst new.
  rewrite <- Hmap, List.map_map in Hsub. exact Hsub.
Qed.

Lemma hook_pipelines_follow_triggers_witness :
  exists ps res,
    compileSubscriptionFilterEvents 1 devHost firstDeployment noRandom
      oneSetting alphaBeta = Some (ps, res) /\
    map taskKey ps = [("alpha", 0)] /\
    map fst (triggers alphaBeta) = [("alpha", 0); ("beta", 0)] /\
    sublist (map taskKey ps) (map fst (triggers alphaBeta)).
Proof.
  eexists _, _. split; [vm_compute; reflexivity|].
  split; [reflexivity|]. split; [reflexivity|].
  eapply (hook_pipelines_follow_triggers 1 devHost firstDeployment noRandom
            oneSetting alphaBeta).
  vm_compute. reflexivity.
Defined.

(** X23. The loops draw a random text once for every pipeline they
    start and never for a trigger they skip: after the synchronous part
    of the hook, thrown or not, the number of draws is the number of
    pipelines started. *)
Theorem loops_draw_once_per_pipeline (hst : host) (random : nat -> string)
    (h : gmap loc settingObj) (svc : service) (st : loopState)
    (thrown : option jserror)
    (Hrun : startPipelines hst random h svc = (st, thrown)) :
  st_draws st = length (st_tasks st) /\
  length (st_tasks st) <= length (triggers svc).
Proof.
  apply startPipelines_loops in Hrun as [[-> _]|[_ Hloop]].
  - simpl. split; [reflexivity | lia].
  - destruct (eachTrigger_order _ _ _ _ _ _ Hloop) as (new & Hnew & Hd & Hsub).
    simpl in Hnew, Hd. rewrite Hnew, Hd. split; [reflexivity|].
    apply sublist_length in Hsub. rewrite !length_map in Hsub. exact Hsub.
Qed.

Lemma loops_draw_once_per_pipeline_witness :
  exists st,
    startPipelines devHost noRandom devAndProd helloTwo = (st, None) /\
    st_draws st = 1 /\ length (st_tasks st) = 1 /\
    length (triggers helloTwo) = 2.
Proof.
  eexists. split; [vm_compute; reflexivity|].
  lazymatch goal with
  | |- st_draws ?st = _ /\ _ =>
      destruct (loops_draw_once_per_pipeline devHost noRandom devAndProd
                  helloTwo st None ltac:(vm_compute; reflexivity))
        as [Hd _]
  end.
  split; [exact Hd|]. split; reflexivity.
Defined.






(** ** A completed pipeline and the template *)

Lemma merge_fresh_permission (L region A : string) :
  merge_value None (permissionResource L region A)
    = permissionResource L region A.
Proof. reflexivity. Qed.

Lemma merge_fresh_subscriptionFilter (L P ID STG G : string) :
  merge_value None (subscriptionFilterResource L P ID STG G)
    = subscriptionFilterResource L P ID STG G.
Proof. reflexivity. Qed.

(** X25. A completed pipeline on a template that holds neither of its
    two identifiers: when the interpolated texts are fit for a string
    literal (the filter pattern may hold double quotes), the template
    afterwards is the template before with two more entries, the
    Permission resource for the ARN found under the Permission
    identifier and the SubscriptionFilter resource under the
    SubscriptionFilter identifier, each as its builder describes it. *)
Theorem doCompile_fills_fresh_template (fuel : nat) (hst : host) (r : aws)
    (setting : settingObj) (functionName : string) (index : nat)
    (trace : list effect) (resources : gmap string json)
    (Hrun : doCompile fuel hst r setting functionName index
              = Some (trace, Resolved tt))
    (HL : plain (getLambdaLogicalId hst functionName) = true)
    (HR : plain (getRegion hst) = true)
    (HA : forall tokens a,
            getLogGroupArn fuel r (to_string (logGroupName setting)) None
              = Some (tokens, Resolved a) -> plain a = true)
    (HID : plain (getLambdaPermissionLogicalId hst functionName
                    (to_string (logGroupName setting)) index) = true)
    (HS : plain (to_string (stage setting)) = true)
    (HG : plain (to_string (logGroupName setting)) = true)
    (HP : quotable (to_string (filterPattern setting)) = true)
    (Hfresh : resources !! getLambdaPermissionLogicalId hst functionName
                             (to_string (logGroupName setting)) index = None)
    (Hfresh' : resources !! getSubscriptionFilterLogicalId hst functionName
                              (to_string (logGroupName setting)) index = None) :
  let lg := to_string (logGroupName setting) in
  let permissionId := getLambdaPermissionLogicalId hst functionName lg index in
  let filterId := getSubscriptionFilterLogicalId hst functionName lg index in
  exists tokens logGroupArn,
    getLogGroupArn fuel r lg None = Some (tokens, Resolved logGroupArn) /\
    apply_effects resources trace =
      <[filterId :=
          subscriptionFilterResource (getLambdaLogicalId hst functionName)
            (to_string (filterPattern setting)) permissionId
            (to_string (stage setting)) lg]>
        (<[permissionId :=
             permissionResource (getLambdaLogicalId hst functionName)
               (getRegion hst) logGroupArn]> resources) /\
    size (apply_effects resources trace) = S (S (size resources)).
Proof.
  intros lg permissionId filterId.
  apply doCompile_resolved in Hrun
    as (tokens & a & p & s & Hg & Hp & Hs & ->).
  fold lg in Hg, Hp, Hs.
  rewrite (compilePermission_plain _ _ _ _ _ HL HR (HA _ _ Hg)) in Hp.
  rewrite (compileSubscriptionFilter_plain _ _ _ _ HL HID HS HG HP) in Hs.
  injection Hp as <-. injection Hs as <-.
  fold lg permissionId filterId in Hfresh, Hfresh' |- *.
  assert (Hne : filterId <> permissionId).
  { intros Heq. symmetry in Heq. revert Heq. apply permission_filter_differ. }
  assert (Hend : apply_effects resources
            (([CallDescribeSubscriptionFilters lg;
               CallDescribeStacks (getStackName hst)] ++
              map (CallDescribeLogGroups lg) tokens) ++
             [MergeResource
                (permissionId,
                 permissionResource (getLambdaLogicalId hst functionName)
                   (getRegion hst) a);
              MergeResource
                (filterId,
                 subscriptionFilterResource (getLambdaLogicalId hst functionName)
                   (to_string (filterPattern setting)) permissionId
                   (to_string (stage setting)) lg)])
          = <[filterId :=
                subscriptionFilterResource (getLambdaLogicalId hst functionName)
                  (to_string (filterPattern setting)) permissionId
                  (to_string (stage setting)) lg]>
              (<[permissionId :=
                   permissionResource (getLambdaLogicalId hst functionName)
                     (getRegion hst) a]> resources)).
  { rewrite apply_effects_completed.
    - unfold merge. cbn [fst snd].
      rewrite Hfresh, merge_fresh_permission.
      rewrite lookup_insert_ne by (intros Heq; apply Hne; symmetry; exact Heq).
      rewrite Hfresh', merge_fresh_subscriptionFilter. reflexivity.
    - simpl. clear. induction tokens as [|t ts IH]; [reflexivity | exact IH]. }
  exists tokens, a. split; [exact Hg|]. split; [exact Hend|].
  rewrite Hend.
  rewrite map_size_insert_None.
  - rewrite map_size_insert_None by exact Hfresh. reflexivity.
  - rewrite lookup_insert_ne by (intros Heq; apply Hne; symmetry; exact Heq).
    exact Hfresh'.
Qed.

Lemma doCompile_fills_fresh_template_witness :
  exists trace,
    doCompile 1 devHost firstDeployment errorsOfA "hello" 0
      = Some (trace, Resolved tt) /\
    apply_effects ∅ trace =
      <["HelloSubscriptionFilterAppa0" :=
          subscriptionFilterResource "HelloLambdaFunction"
            ("{ $.level = " +:+ q "error" +:+ " }")
            "HelloLambdaPermissionAppa0" "dev-k3x9q" "/app/a"]>
        (<["HelloLambdaPermissionAppa0" :=
             permissionResource "HelloLambdaFunction" "us-east-1" "arn:lg:a"]>
           ∅).
Proof.
  eexists. split; [vm_compute; reflexivity|].
  destruct (doCompile_fills_fresh_template 1 devHost firstDeployment errorsOfA
              "hello" 0 _ ∅ ltac:(vm_compute; reflexivity)
              eq_refl eq_refl
              ltac:(intros tokens a H; vm_compute in H;
                    injection H as _ <-; reflexivity)
              eq_refl eq_refl eq_refl eq_refl
              ltac:(apply lookup_empty) ltac:(apply lookup_empty))
    as (tokens & a & Hg & Hend & _).
  vm_compute in Hg. injection Hg as _ <-. exact Hend.
Defined.

(** ** The static check and the order of the triggers *)

Lemma occurrences_Permutation (k : string) (vs vs' : list jsval) :
  Permutation vs vs' -> occurrences k vs = occurrences k vs'.
Proof.
  intros H. unfold occurrences. apply Permutation_length.
  rewrite H. reflexivity.
Qed.

Lemma declaredLogGroupNames_Permutation (h : gmap loc settingObj)
    (svc svc' : service) :
  Permutation (flat_map snd svc) (flat_map snd svc') ->
  Permutation (declaredLogGroupNames h svc) (declaredLogGroupNames h svc').
Proof.
  intros H. unfold declaredLogGroupNames. apply Permutation_map.
  rewrite H. reflexivity.
Qed.

(** X26. The static check depends on which events the service has, not
    on their order nor on the functions they belong to: two services
    with the same events, in any order and under any functions, both
    pass the check or both fail it. *)
Theorem preCheck_ignores_order (h : gmap loc settingObj) (svc svc' : service)
    (Hsame : Permutation (flat_map snd svc) (flat_map snd svc')) :
  preCheckResourceLimitExceeded h svc = Return tt <->
  preCheckResourceLimitExceeded h svc' = Return tt.
Proof.
  rewrite !preCheck_returns.
  pose proof (declaredLogGroupNames_Permutation h _ _ Hsame) as Hd.
  split; intros H k.
  - rewrite <- (occurrences_Permutation k _ _ Hd). apply H.
  - rewrite (occurrences_Permutation k _ _ Hd). apply H.
Qed.

Lemma preCheck_ignores_order_witness :
  preCheckResourceLimitExceeded devAndProd helloTwo = Return tt /\
  preCheckResourceLimitExceeded devAndProd
    [("bye", [{| subscriptionFilter := JObject 1 |}]);
     ("hello", [{| subscriptionFilter := JObject 0 |}])] = Return tt.
Proof.
  split; [reflexivity|].
  apply (proj1 (preCheck_ignores_order devAndProd helloTwo
                  [("bye", [{| subscriptionFilter := JObject 1 |}]);
                   ("hello", [{| subscriptionFilter := JObject 0 |}])]
                  (perm_swap {| subscriptionFilter := JObject 1 |}
                     {| subscriptionFilter := JObject 0 |} []))).
  reflexivity.
Defined.

(** ** The first revision *)

Lemma rev1_validateSettings (h : gmap loc settingObj) (v : jsval) :
  Rev1.validateSettings h v = validateSettings h v.
Proof. reflexivity. Qed.

Lemma rev1_eachEvent (hst : host) (h : gmap loc settingObj) (f : string)
    (i : nat) (e : event) (st st' : Rev1.loopState) :
  Rev1.eachEvent hst h f e st = (st', None) ->
  Rev1.st_tasks st'
    = Rev1.st_tasks st ++ currentTasks hst h [(f, i, e)] /\
  Rev1.st_log st' = Rev1.st_log st ++ reportLines hst h [(f, i, e)].
Proof.
  unfold Rev1.eachEvent, currentTasks, reportLines. simpl.
  rewrite rev1_validateSettings.
  destruct (validateSettings h (subscriptionFilter e)) as [[|]|err] eqn:Hv;
    [| |discriminate].
  - apply validateSettings_true in Hv as (l & -> & _). simpl.
    destruct (strict_eq (stage (getObj h l)) (JString (getStage hst)));
      simpl; intros H; injection H as <-; simpl;
      rewrite ?List.app_nil_r; split; reflexivity.
  - apply validateSettings_false in Hv. intros H. injection H as <-.
    destruct (subscriptionFilter e); try discriminate Hv;
      rewrite !List.app_nil_r; split; reflexivity.
Qed.

Lemma currentTasks_app (hst : host) (h : gmap loc settingObj)
    (a b : list (string * nat * event)) :
  currentTasks hst h (a ++ b) = currentTasks hst h a ++ currentTasks hst h b.
Proof. apply List.flat_map_app. Qed.

Lemma reportLines_app (hst : host) (h : gmap loc settingObj)
    (a b : list (string * nat * event)) :
  reportLines hst h (a ++ b) = reportLines hst h a ++ reportLines hst h b.
Proof. apply List.flat_map_app. Qed.

Lemma rev1_eachEvents (hst : host) (h : gmap loc settingObj) (f : string)
    (es : list event) (i : nat) (st st' : Rev1.loopState) :
  Rev1.eachEvents hst h f es st = (st', None) ->
  Rev1.st_tasks st'
    = Rev1.st_tasks st ++ currentTasks hst h (indexed f i es) /\
  Rev1.st_log st' = Rev1.st_log st ++ reportLines hst h (indexed f i es).
Proof.
  revert i st. induction es as [|e es IH]; intros i st H; simpl in H.
  - injection H as <-. simpl. rewrite !List.app_nil_r. tauto.
  - destruct (Rev1.eachEvent hst h f e st) as [st1 [err|]] eqn:H1;
      [discriminate|].
    destruct (rev1_eachEvent _ _ _ i _ _ _ H1) as [Ht1 Hl1].
    destruct (IH (S i) st1 H) as [Ht Hl].
    change (indexed f i (e :: es))
      with ([(f, i, e)] ++ indexed f (S i) es).
    rewrite currentTasks_app, reportLines_app, Ht, Hl, Ht1, Hl1,
      !List.app_assoc.
    tauto.
Qed.

Lemma rev1_eachFunction (hst : host) (h : gmap loc settingObj)
    (svc : service) (st st' : Rev1.loopState) :
  Rev1.eachFunction hst h svc st = (st', None) ->
  Rev1.st_tasks st' = Rev1.st_tasks st ++ currentTasks hst h (triggers svc) /\
  Rev1.st_log st' = Rev1.st_log st ++ reportLines hst h (triggers svc).
Proof.
  revert st. induction svc as [|[f es] svc IH]; intros st H; simpl in H.
  - injection H as <-. simpl. rewrite !List.app_nil_r. tauto.
  - destruct (Rev1.eachEvents hst h f es st) as [st1 [err|]] eqn:H1;
      [discriminate|].
    destruct (rev1_eachEvents _ _ _ _ 0 _ _ H1) as [Ht1 Hl1].
    destruct (IH st1 H) as [Ht Hl].
    change (triggers ((f, es) :: svc))
      with (indexed f 0 es ++ triggers svc).
    rewrite currentTasks_app, reportLines_app, Ht, Hl, Ht1, Hl1,
      !List.app_assoc.
    tauto.
Qed.

(** X27. The first revision does not touch the setting objects, and
    it starts a pipeline for every trigger that is declared for the
    stage of the deployment, be its setting object shared with another
    trigger or not.  When its hook returns its promise, the pipelines
    started are those of the triggers of that stage, in the order of the
    triggers, each [doCompile] on the setting as it was declared, and
    the command line holds one line for every valid trigger in that
    order: that it is compiled or that it is skipped. *)
Theorem rev1_starts_every_trigger_of_the_stage (fuel : nat) (hst : host)
    (r : aws) (h : gmap loc settingObj) (svc : service) (log : list string)
    (ps : list (Rev1.task * (list Rev1.effect * option (outcome unit))))
    (o : option (outcome unit))
    (Hrun : Rev1.compileSubscriptionFilterEvents fuel hst r h svc
              = (log, ps, Return o)) :
  map fst ps = currentTasks hst h (triggers svc) /\
  log = reportLines hst h (triggers svc) /\
  forall t p, In (t, p) ps ->
    p = Rev1.doCompile fuel hst r (getObj h (Rev1.t_setting t))
          (Rev1.t_function t).
Proof.
  revert Hrun. unfold Rev1.compileSubscriptionFilterEvents.
  destruct (Rev1.startPipelines hst h svc) as [st [err|]] eqn:Hs;
    [discriminate|].
  destruct (rev1_eachFunction _ _ _ _ _ Hs) as [Ht Hl].
  simpl in Ht, Hl. intros H. injection H as <- <- _.
  split; [|split; [exact Hl|]].
  - rewrite List.map_map. simpl. rewrite List.map_id. exact Ht.
  - intros t p Hin. apply List.in_map_iff in Hin as (t' & Heq & _).
    injection Heq as <- <-. reflexivity.
Qed.

Lemma rev1_starts_every_trigger_of_the_stage_witness :
  exists log ps o,
    Rev1.compileSubscriptionFilterEvents 1 devHost firstDeployment oneSetting
      alphaBeta = (log, ps, Return o) /\
    map fst ps
      = [{| Rev1.t_function := "alpha"; Rev1.t_setting := 0 |};
         {| Rev1.t_function := "beta"; Rev1.t_setting := 0 |}] /\
    log = ["Compiling /app/a subscription filter object...";
           "Compiling /app/a subscription filter object..."].
Proof.
  eexists _, _, _. split; [vm_compute; reflexivity|].
  lazymatch goal with
  | |- map fst ?ps = _ /\ ?log = _ =>
      destruct (rev1_starts_every_trigger_of_the_stage 1 devHost
                  firstDeployment oneSetting alphaBeta log ps
                  (Some (Resolved tt)) ltac:(vm_compute; reflexivity))
        as (Ht & Hl & _)
  end.
  split; [exact Ht | exact Hl].
Defined.

(** X28. [getLogGroupArn] of the first revision on a log group that no
    listing knows: the first page is empty and has no continuation
    token.  The promise is rejected with [LogGroup not found], and the
    listing goes on all the same: every call starts again from the
    first page, so within any number of calls allowed all of them are
    made. *)
Theorem rev1_getLogGroupArn_goes_on_after_rejecting (r : aws) (name : string)
    (data : logGroupsPage)
    (Hempty : describeLogGroups r name None = Resolved data)
    (Hgroups : logGroups data = [])
    (Hlast : nextToken data = None) (fuel : nat) :
  Rev1.getLogGroupArn (S fuel) r name None
    = (repeat None (S fuel), Some (Rejected (Error "LogGroup not found"))).
Proof.
  induction fuel as [|fuel IH].
  - simpl. rewrite Hempty, Hgroups. reflexivity.
  - change (Rev1.getLogGroupArn (S (S fuel)) r name None)
      with (match describeLogGroups r name None with
            | Rejected e => ([None], Some (Rejected e))
            | Pending => ([None], Some Pending)
            | Resolved data =>
                match findLogGroup name (logGroups data) with
                | Some g => ([None], Some (Resolved (arn g)))
                | None =>
                    let '(calls, next) :=
                      Rev1.getLogGroupArn (S fuel) r name (nextToken data) in
                    (None :: calls,
                     match logGroups data with
                     | [] => Some (Rejected (Error "LogGroup not found"))
                     | _ :: _ =>
                         match next with
                         | Some (Rejected e) => Some (Rejected e)
                         | Some _ => Some Pending
                         | None => None
                         end
                     end)
                end
            end).
    rewrite Hempty, Hgroups, Hlast, IH. reflexivity.
Qed.

Lemma rev1_getLogGroupArn_goes_on_after_rejecting_witness :
  Rev1.getLogGroupArn 3 refusedLookup "/app/a" None
    = ([None; None; None], Some (Rejected (Error "LogGroup not found"))) /\
  getLogGroupArn 3 refusedLookup "/app/a" None
    = Some ([None], Rejected (Error "LogGroup not found")).
Proof.
  split; [|reflexivity].
  exact (rev1_getLogGroupArn_goes_on_after_rejecting refusedLookup "/app/a"
           {| logGroups := []; nextToken := None |} eq_refl eq_refl eq_refl 2).
Defined.

Lemma subscriptionFilterTemplate1_tokens (L P G ID : string) :
  Rev1.subscriptionFilterTemplate L P G ID = subscriptionFilterTokens1 L P G ID.
Proof.
  unfold Rev1.subscriptionFilterTemplate. rewrite !q_append. reflexivity.
Qed.

Lemma parse_value_subscriptionFilterProperties1 (L P G r : string) :
  plain L = true -> plain G = true -> quotable P = true ->
  parse_value 9 (subscriptionFilterProperties1 L (escapeDoubleQuote P) G r)
  = POk (JsObj
           [("DestinationArn",
             JsObj [("Fn::GetAtt", JsArr [JsStr L; JsStr "Arn"])]);
            ("FilterPattern", JsStr P);
            ("LogGroupName", JsStr G)]) r.
Proof.
  intros HL HG HP. unfold subscriptionFilterProperties1.
  rewrite parse_value_object by side.
  next_member ltac:(apply parse_value_getAtt; side).
  next_member ltac:(apply parse_value_escaped; side).
  last_member ltac:(apply parse_value_str; side).
  reflexivity.
Qed.

Lemma parse_subscriptionFilterTemplate1 (msg L P G ID : string) :
  plain L = true -> plain G = true -> plain ID = true -> quotable P = true ->
  parse msg (Rev1.subscriptionFilterTemplate L (escapeDoubleQuote P) G ID)
  = Return (subscriptionFilterResource1 L P G ID).
Proof.
  intros HL HG HID HP.
  apply (parse_of_parse_value _ _ _ (nl +:+ "      ")).
  - unfold Rev1.subscriptionFilterTemplate.
    rewrite <- append_assoc. apply parse_fuel_enough. simpl. lia.
  - rewrite subscriptionFilterTemplate1_tokens.
    unfold subscriptionFilterTokens1.
    rewrite parse_value_object by side.
    next_member ltac:(apply parse_value_str; side).
    next_member ltac:(apply parse_value_subscriptionFilterProperties1; side).
    unfold dependsOnMember.
    last_member ltac:(apply parse_value_str; side).
    reflexivity.
  - reflexivity.
Qed.

Lemma rev1_compileSubscriptionFilter_plain (hst : host) (setting : settingObj)
    (functionName : string) :
  plain (getLambdaLogicalId hst functionName) = true ->
  plain (to_string (logGroupName setting)) = true ->
  plain (Rev1.getLambdaPermissionLogicalId hst functionName
           (to_string (logGroupName setting))) = true ->
  quotable (to_string (filterPattern setting)) = true ->
  Rev1.compileSubscriptionFilter hst setting functionName =
  Resolved
    (Rev1.getSubscriptionFilterLogicalId hst functionName
       (to_string (logGroupName setting)),
     subscriptionFilterResource1 (getLambdaLogicalId hst functionName)
       (to_string (filterPattern setting))
       (to_string (logGroupName setting))
       (Rev1.getLambdaPermissionLogicalId hst functionName
          (to_string (logGroupName setting)))).
Proof.
  intros HL HG HID HP. unfold Rev1.compileSubscriptionFilter.
  rewrite parse_subscriptionFilterTemplate1 by assumption. reflexivity.
Qed.

Lemma rev1_compilePermission_plain (hst : host) (setting : settingObj)
    (functionName logGroupArn : string) :
  plain (getLambdaLogicalId hst functionName) = true ->
  plain (getRegion hst) = true ->
  plain logGroupArn = true ->
  Rev1.compilePermission hst setting functionName logGroupArn =
  Resolved
    (Rev1.getLambdaPermissionLogicalId hst functionName
       (to_string (logGroupName setting)),
     permissionResource (getLambdaLogicalId hst functionName)
       (getRegion hst) logGroupArn).
Proof.
  intros HL HR HA. unfold Rev1.compilePermission.
  rewrite parse_permissionTemplate by assumption. reflexivity.
Qed.

Lemma merge_over_permission (L region A A' : string) :
  merge_value (Some (permissionResource L region A))
    (permissionResource L region A')
  = permissionResource L region A'.
Proof. reflexivity. Qed.

Lemma merge_over_subscriptionFilter1 (L P P' G ID : string) :
  merge_value (Some (subscriptionFilterResource1 L P G ID))
    (subscriptionFilterResource1 L P' G ID)
  = subscriptionFilterResource1 L P' G ID.
Proof. reflexivity. Qed.

(** X29. The identifiers of the first revision carry no position: two
    triggers of one function on one log group get the same two
    identifiers, and the fragments of the second are merged over those
    of the first.  On a template that held neither identifier, the
    four merges leave two entries, and the SubscriptionFilter resource
    has the filter pattern of the second trigger: the pattern of the
    first is lost. *)
Theorem rev1_second_trigger_overwrites_first (hst : host)
    (functionName logGroupArn : string) (first second : settingObj)
    (resources : gmap string json)
    (Hsame : logGroupName second = logGroupName first)
    (HL : plain (getLambdaLogicalId hst functionName) = true)
    (HR : plain (getRegion hst) = true)
    (HA : plain logGroupArn = true)
    (HG : plain (to_string (logGroupName first)) = true)
    (HID : plain (Rev1.getLambdaPermissionLogicalId hst functionName
                    (to_string (logGroupName first))) = true)
    (HP : quotable (to_string (filterPattern first)) = true)
    (HP' : quotable (to_string (filterPattern second)) = true)
    (Hfresh : resources !! Rev1.getLambdaPermissionLogicalId hst functionName
                             (to_string (logGroupName first)) = None)
    (Hfresh' : resources !! Rev1.getSubscriptionFilterLogicalId hst
                              functionName (to_string (logGroupName first))
               = None) :
  let lg := to_string (logGroupName first) in
  let permissionId := Rev1.getLambdaPermissionLogicalId hst functionName lg in
  let filterId := Rev1.getSubscriptionFilterLogicalId hst functionName lg in
  exists p1 q1 p2 q2,
    Rev1.compilePermission hst first functionName logGroupArn = Resolved p1 /\
    Rev1.compileSubscriptionFilter hst first functionName = Resolved q1 /\
    Rev1.compilePermission hst second functionName logGroupArn = Resolved p2 /\
    Rev1.compileSubscriptionFilter hst second functionName = Resolved q2 /\
    fst p1 = permissionId /\ fst p2 = permissionId /\
    fst q1 = filterId /\ fst q2 = filterId /\
    size (fold_left merge [p1; q1; p2; q2] resources) = S (S (size resources)) /\
    fold_left merge [p1; q1; p2; q2] resources !! filterId
      = Some (subscriptionFilterResource1 (getLambdaLogicalId hst functionName)
                (to_string (filterPattern second)) lg permissionId).
Proof.
  intros lg permissionId filterId.
  assert (HG' : plain (to_string (logGroupName second)) = true)
    by (rewrite Hsame; exact HG).
  assert (HID' : plain (Rev1.getLambdaPermissionLogicalId hst functionName
                          (to_string (logGroupName second))) = true)
    by (rewrite Hsame; exact HID).
  eexists _, _, _, _.
  split; [apply (rev1_compilePermission_plain _ _ _ _ HL HR HA)|].
  split; [apply (rev1_compileSubscriptionFilter_plain _ _ _ HL HG HID HP)|].
  split; [apply (rev1_compilePermission_plain _ _ _ _ HL HR HA)|].
  split; [apply (rev1_compileSubscriptionFilter_plain _ _ _ HL HG' HID' HP')|].
  rewrite Hsame. fold lg permissionId filterId in Hfresh, Hfresh' |- *.
  do 4 (split; [reflexivity|]).
  assert (Hne : permissionId <> filterId).
  { unfold permissionId, filterId, Rev1.getLambdaPermissionLogicalId,
      Rev1.getSubscriptionFilterLogicalId.
    intros H. apply append_inv_head in H. discriminate. }
  assert (Hend : fold_left merge
      [(permissionId,
        permissionResource (getLambdaLogicalId hst functionName)
          (getRegion hst) logGroupArn);
       (filterId,
        subscriptionFilterResource1 (getLambdaLogicalId hst functionName)
          (to_string (filterPattern first)) lg permissionId);
       (permissionId,
        permissionResource (getLambdaLogicalId hst functionName)
          (getRegion hst) logGroupArn);
       (filterId,
        subscriptionFilterResource1 (getLambdaLogicalId hst functionName)
          (to_string (filterPattern second)) lg permissionId)] resources
    = <[filterId :=
          subscriptionFilterResource1 (getLambdaLogicalId hst functionName)
            (to_string (filterPattern second)) lg permissionId]>
        (<[permissionId :=
             permissionResource (getLambdaLogicalId hst functionName)
               (getRegion hst) logGroupArn]> resources)).
  { set (P := permissionResource (getLambdaLogicalId hst functionName)
                (getRegion hst) logGroupArn).
    set (Q1 := subscriptionFilterResource1 (getLambdaLogicalId hst functionName)
                 (to_string (filterPattern first)) lg permissionId).
    set (Q2 := subscriptionFilterResource1 (getLambdaLogicalId hst functionName)
                 (to_string (filterPattern second)) lg permissionId).
    assert (Hne' : filterId <> permissionId) by congruence.
    cbn [fold_left].
    assert (E1 : merge resources (permissionId, P)
                 = <[permissionId := P]> resources).
    { unfold merge. cbn [fst snd]. rewrite Hfresh. reflexivity. }
    rewrite E1.
    assert (E2 : merge (<[permissionId := P]> resources) (filterId, Q1)
                 = <[filterId := Q1]> (<[permissionId := P]> resources)).
    { unfold merge. cbn [fst snd].
      rewrite lookup_insert_ne by exact Hne. rewrite Hfresh'. reflexivity. }
    rewrite E2.
    assert (E3 : merge (<[filterId := Q1]> (<[permissionId := P]> resources))
                   (permissionId, P)
                 = <[permissionId := P]>
                     (<[filterId := Q1]> (<[permissionId := P]> resources))).
    { unfold merge. cbn [fst snd].
      rewrite lookup_insert_ne by exact Hne'. rewrite lookup_insert_eq.
      reflexivity. }
    rewrite E3.
    assert (E4 : merge (<[permissionId := P]>
                          (<[filterId := Q1]>
                             (<[permissionId := P]> resources)))
                   (filterId, Q2)
                 = <[filterId := Q2]>
                     (<[permissionId := P]>
                        (<[filterId := Q1]>
                           (<[permissionId := P]> resources)))).
    { unfold merge. cbn [fst snd].
      rewrite lookup_insert_ne by exact Hne. rewrite lookup_insert_eq.
      reflexivity. }
    rewrite E4.
    apply map_eq. intros k.
    destruct (decide (k = filterId)) as [->|Hk].
    - rewrite !lookup_insert_eq. reflexivity.
    - rewrite !(lookup_insert_ne _ filterId k) by congruence.
      destruct (decide (k = permissionId)) as [->|Hk'].
      + rewrite !lookup_insert_eq. reflexivity.
      + rewrite !(lookup_insert_ne _ permissionId k) by congruence.
        rewrite !(lookup_insert_ne _ filterId k) by congruence.
        rewrite !(lookup_insert_ne _ permissionId k) by congruence.
        reflexivity. }
  rewrite Hend. split.
  - rewrite map_size_insert_None.
    + rewrite map_size_insert_None by exact Hfresh. reflexivity.
    + rewrite lookup_insert_ne by exact Hne. exact Hfresh'.
  - apply lookup_insert_eq.
Qed.

Lemma rev1_second_trigger_overwrites_first_witness :
  exists p1 q1 p2 q2,
    Rev1.compilePermission devHost errorsOfA "hello" "arn:lg:a" = Resolved p1 /\
    Rev1.compileSubscriptionFilter devHost errorsOfA "hello" = Resolved q1 /\
    Rev1.compilePermission devHost (settingOn "/app/a") "hello" "arn:lg:a"
      = Resolved p2 /\
    Rev1.compileSubscriptionFilter devHost (settingOn "/app/a") "hello"
      = Resolved q2 /\
    size (fold_left merge [p1; q1; p2; q2] ∅) = 2 /\
    fold_left merge [p1; q1; p2; q2] ∅ !! "HelloSubscriptionFilterAppa"
      = Some (subscriptionFilterResource1 "HelloLambdaFunction" "ERROR"
                "/app/a" "HelloLambdaPermissionAppa").
Proof.
  destruct (rev1_second_trigger_overwrites_first devHost "hello" "arn:lg:a"
              errorsOfA (settingOn "/app/a") ∅ eq_refl eq_refl eq_refl eq_refl
              eq_refl eq_refl eq_refl eq_refl
              ltac:(apply lookup_empty) ltac:(apply lookup_empty))
    as (p1 & q1 & p2 & q2 & H1 & H2 & H3 & H4 & _ & _ & _ & _ & Hsize & Hlast).
  exists p1, q1, p2, q2. repeat split; assumption.
Defined.

(** X30. A pipeline of the first revision whose log group is on the
    first page of the listing, with texts that are fit for a string
    literal: it writes its line on the command line, makes one listing
    call, merges the Permission fragment and then the
    SubscriptionFilter fragment, and resolves.  It asks nothing about
    the subscription filters that the log group already has. *)
Theorem rev1_doCompile_completes (fuel : nat) (hst : host) (r : aws)
    (setting : settingObj) (functionName : string) (data : logGroupsPage)
    (g : logGroup)
    (Hpage : describeLogGroups r (to_string (logGroupName setting)) None
               = Resolved data)
    (Hfound : findLogGroup (to_string (logGroupName setting)) (logGroups data)
                = Some g)
    (HL : plain (getLambdaLogicalId hst functionName) = true)
    (HR : plain (getRegion hst) = true)
    (HA : plain (arn g) = true)
    (HG : plain (to_string (logGroupName setting)) = true)
    (HID : plain (Rev1.getLambdaPermissionLogicalId hst functionName
                    (to_string (logGroupName setting))) = true)
    (HP : quotable (to_string (filterPattern setting)) = true) :
  let lg := to_string (logGroupName setting) in
  let permissionId := Rev1.getLambdaPermissionLogicalId hst functionName lg in
  let filterId := Rev1.getSubscriptionFilterLogicalId hst functionName lg in
  Rev1.doCompile (S fuel) hst r setting functionName
  = ([Rev1.Log (Rev1.compilingMessage lg);
      Rev1.CallDescribeLogGroups lg None;
      Rev1.MergeResource
        (permissionId,
         permissionResource (getLambdaLogicalId hst functionName)
           (getRegion hst) (arn g));
      Rev1.MergeResource
        (filterId,
         subscriptionFilterResource1 (getLambdaLogicalId hst functionName)
           (to_string (filterPattern setting)) lg permissionId)],
     Some (Resolved tt)).
Proof.
  intros lg permissionId filterId. unfold Rev1.doCompile. fold lg.
  cbn [Rev1.getLogGroupArn]. fold lg in Hpage, Hfound.
  rewrite Hpage, Hfound.
  rewrite (rev1_compilePermission_plain _ _ _ _ HL HR HA).
  rewrite (rev1_compileSubscriptionFilter_plain _ _ _ HL HG HID HP).
  reflexivity.
Qed.

Lemma rev1_doCompile_completes_witness :
  Rev1.doCompile 1 devHost (deployed "arn:fn:other" "arn:fn:hello") errorsOfA
    "hello"
  = ([Rev1.Log "Compiling /app/a subscription filter object...";
      Rev1.CallDescribeLogGroups "/app/a" None;
      Rev1.MergeResource
        ("HelloLambdaPermissionAppa",
         permissionResource "HelloLambdaFunction" "us-east-1" "arn:lg:a");
      Rev1.MergeResource
        ("HelloSubscriptionFilterAppa",
         subscriptionFilterResource1 "HelloLambdaFunction"
           ("{ $.level = " +:+ q "error" +:+ " }") "/app/a"
           "HelloLambdaPermissionAppa")],
     Some (Resolved tt)).
Proof.
  exact (rev1_doCompile_completes 0 devHost
           (deployed "arn:fn:other" "arn:fn:hello") errorsOfA "hello"
           {| logGroups := [{| lgName := "/app/a"; arn := "arn:lg:a" |}];
              nextToken := None |}
           {| lgName := "/app/a"; arn := "arn:lg:a" |}
           eq_refl eq_refl eq_refl eq_refl eq_refl eq_refl eq_refl eq_refl).
Defined.
